(** * The CUDA lattice decoder of Kaldi: token passing and lattice pruning

    A shallow embedding of [decoder/cuda-lattice-decoder.cu] and
    [decoder/cuda-lattice-decoder.h].

    Conventions of the embedding.
    - [BaseFloat] and [CostType] are IEEE binary32 numbers, taken from
      [SpecFloat] with a 24 bit mantissa; every arithmetic operation rounds
      the way the device does.
    - A device array is a finite map from cell index to content: the cell
      [i] of the array [a] is [a !! i].  A cell that was never written has
      no content, and loading it traps.  A store past the end of an
      allocation lands in a cell of the map, so that it can be observed.
    - A pointer into an array is the index of its cell.
    - [int32] and [uint32] values are integers; the wrap-around is written
      out where a counter can reach it ([PushBack]).
    - A kernel runs with a single thread unless stated otherwise: a
      grid-stride loop [for (tid; tid < size; tid += stride)] visits
      [0, 1, ..., size - 1] in this order and [grid_sync] does nothing.
      The interleavings of several threads are modelled separately for
      [PushBack] and for the activation of a lookup slot.
    - A failed [assert] and a load of an unwritten cell end the kernel:
      the functions return an [outcome]. *)

From Stdlib Require Import ZArith Bool List Lia String.
From Stdlib Require Import Floats.SpecFloat.
From stdpp Require Import base option list gmap.

Open Scope Z_scope.

(** ** Single precision numbers *)

Module F32.

Definition prec : Z := 24.
Definition emax : Z := 128.

Definition float : Type := spec_float.

Definition add : float -> float -> float := SFadd prec emax.
Definition sub : float -> float -> float := SFsub prec emax.
Definition div : float -> float -> float := SFdiv prec emax.
Definition neg : float -> float := SFopp.

Definition ltb : float -> float -> bool := SFltb.
Definition leb : float -> float -> bool := SFleb.
Definition eqb : float -> float -> bool := SFeqb.

(** [a > b] is [b < a], [a != b] is the negation of [a == b]. *)
Definition gtb (a b : float) : bool := ltb b a.
Definition neqb (a b : float) : bool := negb (eqb a b).

Definition isnan (x : float) : bool :=
  match x with S754_nan => true | _ => false end.

(** The number [m * 2 ^ e], rounded. *)
Definition make (m e : Z) : float := binary_normalize prec emax m e false.

(** Conversion of an integer constant of the source. *)
Definition of_Z (z : Z) : float := make z 0.

(** The 32 bits of a number in the binary32 format. *)
Definition bits (x : float) : Z :=
  match x with
  | S754_zero s => if s then 2 ^ 31 else 0
  | S754_infinity s => (if s then 2 ^ 31 else 0) + 255 * 2 ^ 23
  | S754_nan => 255 * 2 ^ 23 + 2 ^ 22
  | S754_finite s m e =>
      (if s then 2 ^ 31 else 0) +
      (if 2 ^ 23 <=? Z.pos m
       then (e + 150) * 2 ^ 23 + (Z.pos m - 2 ^ 23)
       else Z.pos m)
  end.

Definition zero : float := S754_zero false.
Definition INFINITY : float := S754_infinity false.
Definition FLT_MAX : float := S754_finite false (2 ^ 24 - 1) 104.

End F32.

Abbreviation float := F32.float.

(** ** Kernel outcomes *)

Inductive trap : Type :=
  | AssertFailed (cond : string)
  | UnwrittenCell
  | NullPointer
  | SpinsForever.

Inductive outcome (A : Type) : Type :=
  | Ret (a : A)
  | Trap (t : trap).
Arguments Ret {A} a.
Arguments Trap {A} t.

#[global] Instance outcome_ret : MRet outcome := @Ret.
#[global] Instance outcome_bind : MBind outcome :=
  fun A B (k : A -> outcome B) (m : outcome A) =>
    match m with
    | Ret a => k a
    | Trap t => Trap t
    end.

Definition assert (cond : string) (b : bool) : outcome unit :=
  if b then Ret tt else Trap (AssertFailed cond).

Definition load {T : Type} (a : gmap Z T) (i : Z) : outcome T :=
  match a !! i with
  | Some x => Ret x
  | None => Trap UnwrittenCell
  end.

Definition returns {A : Type} (m : outcome A) : bool :=
  match m with Ret _ => true | Trap _ => false end.

(** The result of a computation, or [d] when it traps. *)
Definition result_or {A : Type} (d : A) (m : outcome A) : A :=
  match m with Ret a => a | Trap _ => d end.

(** The number of trips that a loop with fuel made, or 0. *)
Definition trips {A : Type} (r : option (outcome (nat * A))) : nat :=
  match r with
  | Some (Ret (n, _)) => n
  | _ => 0%nat
  end.

Definition ended {A : Type} (r : option (outcome (nat * A))) : bool :=
  match r with
  | Some (Ret _) => true
  | _ => false
  end.

(** ** Data of the lattice *)

(** [class Token] of the header.  [state_id] is not set by the constructor;
    the embedding puts 0 there. *)
Record Token : Type := mkToken {
  cost_ : float;
  frame : Z;
  extra_cost : float;
  state_id : Z
}.

(** [Token::Token(BaseFloat cost, int32 frame, Token* prev)]. *)
Definition Token_new (cost : float) (fr : Z) (prev : option Token) : Token :=
  {| cost_ := match prev with
              | Some p => F32.add cost (cost_ p)
              | None => cost
              end;
     frame := fr;
     extra_cost := F32.of_Z 0;
     state_id := 0 |}.

Definition set_extra_cost (x : float) (t : Token) : Token :=
  {| cost_ := cost_ t; frame := frame t; extra_cost := x;
     state_id := state_id t |}.

(** Modelled from the spec: [LatLinkCompact] is declared outside the files
    at hand.  The spec gives its attributes (previous TokenState id,
    previous frame, next TokenState id, next frame, pre-scaled acoustic
    cost, arc id), which are the arguments of the constructor call in
    [_find_or_add_token_arc]; an arc is emitting when it consumes a frame,
    that is when its two frames differ. *)
Record LatLinkCompact : Type := mkLatLinkCompact {
  prev_tok_id : Z;
  prev_tok_fr : Z;
  next_tok_id : Z;
  next_tok_fr : Z;
  acoustic_cost : float;
  arc_id : Z
}.

Definition IsEmitArc (l : LatLinkCompact) : bool :=
  negb (prev_tok_fr l =? next_tok_fr l).

Definition GetPrevTokId (l : LatLinkCompact) : Z := prev_tok_id l.

(** [ENCODE_TOK_IDX_PAIR(frame, idx)] is [((uint64)(frame) << 32) + (idx)]. *)
Definition ENCODE_TOK_IDX_PAIR (fr idx : Z) : Z := Z.shiftl fr 32 + idx.

(** [class LatLink] of the header, the exploded form of an arc. *)
Record LatLink : Type := mkLatLink {
  p1 : Z;
  ilabel : Z;
  olabel : Z;
  graph_cost : float;
  ll_acoustic_cost : float;
  p2 : Z
}.

Definition LatLink_new (prev_id prev_fr next_id next_fr il ol : Z)
    (gc ac : float) : LatLink :=
  {| p1 := ENCODE_TOK_IDX_PAIR next_fr next_id;
     ilabel := il; olabel := ol; graph_cost := gc; ll_acoustic_cost := ac;
     p2 := ENCODE_TOK_IDX_PAIR prev_fr prev_id |}.

(** Modelled from the spec: [atomic_min] is defined outside the files at
    hand; the spec calls it atomic-min: the cell keeps the smaller of its
    content and the value. *)
Definition atomic_min (old v : float) : float :=
  if F32.ltb v old then v else old.

(** Modelled from the spec: [ESTIMATED_PRUNE_RATIO] is defined outside the
    files at hand; the spec gives 0.25, so [i < n * ESTIMATED_PRUNE_RATIO]
    is [4 * i < n]. *)
Definition below_estimated_prune_ratio (i n : Z) : bool := 4 * i <? n.

(** A grid-stride loop run by one thread: the body is applied to
    [0, 1, ..., size - 1] in turn and the first trap ends the kernel. *)
Fixpoint for_each {S : Type} (body : S -> Z -> outcome S) (ids : list Z)
    (s : S) : outcome S :=
  match ids with
  | [] => Ret s
  | i :: rest =>
      match body s i with
      | Ret s' => for_each body rest s'
      | Trap t => Trap t
      end
  end.

Definition grid_stride_loop {S : Type} (body : S -> Z -> outcome S)
    (size : Z) (s : S) : outcome S :=
  for_each body (seqZ 0 size) s.

(** The results of a computation at each element of a list, when none of
    them traps. *)
Fixpoint collect {A B : Type} (f : A -> outcome B) (l : list A)
    : outcome (list B) :=
  match l with
  | [] => Ret []
  | x :: rest =>
      match f x with
      | Ret y =>
          match collect f rest with
          | Ret ys => Ret (y :: ys)
          | Trap t => Trap t
          end
      | Trap t => Trap t
      end
  end.

(** The two ways to build the device code: with [__DEBUG__] defined or
    without. *)
Inductive build : Type := Debug | Release.

(** Conversion to [uint32]. *)
Definition uint32 (z : Z) : Z := z mod 2 ^ 32.

(** ** CudaVector *)

Module CudaVector.

(** The device side of a vector: the counter [*count_d], the capacity and
    the cells of [mem_d]. *)
Record t (T : Type) : Type := mk {
  count_d : Z;
  max_size : Z;
  mem_d : gmap Z T
}.
Arguments mk {T} _ _ _.
Arguments count_d {T} _.
Arguments max_size {T} _.
Arguments mem_d {T} _.

Definition with_count {T : Type} (c : Z) (v : t T) : t T :=
  mk c (max_size v) (mem_d v).

Definition with_mem {T : Type} (m : gmap Z T) (v : t T) : t T :=
  mk (count_d v) (max_size v) m.

(** [Size]. *)
Definition Size {T : Type} (v : t T) : Z := count_d v.

(** [Clear]. *)
Definition Clear {T : Type} (v : t T) : t T := with_count 0 v.

(** [operator[]]. *)
Definition get {T : Type} (v : t T) (idx : Z) : outcome T :=
  _ ← assert "idx < *count_d" (uint32 idx <? count_d v);
  load (mem_d v) (uint32 idx).

(** A store through the reference that [operator[]] returns. *)
Definition set {T : Type} (v : t T) (idx : Z) (x : T) : outcome (t T) :=
  _ ← assert "idx < *count_d" (uint32 idx <? count_d v);
  mret (with_mem (<[uint32 idx := x]> (mem_d v)) v).

(** [GetIdxFromAddr], for the address of the cell [idx]. *)
Definition GetIdxFromAddr {T : Type} (v : t T) (idx : Z) : outcome Z :=
  _ ← assert "ret < *count_d && ret >= 0"
        ((idx <? count_d v) && (0 <=? idx));
  mret idx.

(** The three steps of the device side of [PushBack]. *)
Definition fetch_add {T : Type} (v : t T) : Z * t T :=
  (count_d v, with_count (uint32 (count_d v + 1)) v).

Definition clamp_count {T : Type} (b : build) (v : t T) : outcome (t T) :=
  match b with
  | Debug =>
      _ ← assert "*count_d < max_size" (count_d v <? max_size v);
      mret v
  | Release =>
      if max_size v <=? count_d v
      then mret (with_count (uint32 (max_size v - 1)) v)
      else mret v
  end.

Definition store {T : Type} (idx : Z) (val : T) (v : t T) : t T :=
  with_mem (<[idx := val]> (mem_d v)) v.

(** [PushBack] on the device, run by one thread without interruption. *)
Definition PushBack {T : Type} (b : build) (v : t T) (val : T)
    : outcome (Z * t T) :=
  let '(idx, v1) := fetch_add v in
  v2 ← clamp_count b v1;
  mret (idx, store idx val v2).

(** Pushes one after the other; the result carries the indices. *)
Fixpoint push_all {T : Type} (b : build) (v : t T) (vals : list T)
    : outcome (list Z * t T) :=
  match vals with
  | [] => mret ([], v)
  | x :: rest =>
      '(idx, v1) ← PushBack b v x;
      '(ids, v2) ← push_all b v1 rest;
      mret (idx :: ids, v2)
  end.

(** [PushBack] on the host, where [v] stands for [count_h] and [mem_h]. *)
Definition PushBack_host {T : Type} (v : t T) (val : T)
    : outcome (Z * t T) :=
  _ ← assert "*count_h < max_size" (count_d v <? max_size v);
  let idx := count_d v in
  mret (idx, store idx val (with_count (uint32 (count_d v + 1)) v)).

(** *** Several threads in [PushBack]

    A thread that pushes [val] is before its [atomicAdd], before the
    test of the counter, before its store, or has returned an index.
    The code is the one built without [__DEBUG__]. *)
Inductive thread (T : Type) : Type :=
  | AtAdd (val : T)
  | AtClamp (val : T) (idx : Z)
  | AtStore (val : T) (idx : Z)
  | Returned (idx : Z).
Arguments AtAdd {T} val.
Arguments AtClamp {T} val idx.
Arguments AtStore {T} val idx.
Arguments Returned {T} idx.

Definition step {T : Type} (p : thread T) (v : t T) : thread T * t T :=
  match p with
  | AtAdd val => let '(idx, v1) := fetch_add v in (AtClamp val idx, v1)
  | AtClamp val idx =>
      (AtStore val idx, result_or v (clamp_count Release v))
  | AtStore val idx => (Returned idx, store idx val v)
  | Returned idx => (p, v)
  end.

(** The thread [i] of the pool takes one step. *)
Definition sched_step {T : Type} (st : list (thread T) * t T) (i : nat)
    : list (thread T) * t T :=
  match fst st !! i with
  | Some p => let '(p', v') := step p (snd st) in (<[i := p']> (fst st), v')
  | None => st
  end.

(** A schedule names the thread that takes each step. *)
Definition run {T : Type} (sched : list nat) (st : list (thread T) * t T)
    : list (thread T) * t T :=
  foldl sched_step st sched.

(** One thread per value, all before their [atomicAdd]. *)
Definition pushing {T : Type} (vals : list T) : list (thread T) :=
  map AtAdd vals.

(** Every thread takes one step, in the order of the pool; three such
    rounds bring every thread to its return. *)
Definition round (n : nat) : list nat := seq 0 n.
Definition three_rounds (n : nat) : list nat :=
  round n ++ round n ++ round n.

End CudaVector.

(** ** LatticeProcessor *)

Module LatticeProcessor.

Record t : Type := mk {
  toks_bpr_d : gmap Z Token;
  toks_bpr_fr_sidx_d : gmap Z Z;
  toks_num_used : Z;
  toks_buf_before_pr_size : Z;
  arcs_bpr_d : gmap Z LatLinkCompact;
  arcs_bpr_fr_sidx_d : gmap Z Z;
  arcs_bpr_used_d : Z;
  arcs_buf_before_pr_size : Z;
  arcs_apr_d : gmap Z LatLink;
  arcs_apr_used_d : Z;
  arcs_apr_fr_size_d : gmap Z Z;
  modified_d : gmap Z Z;
  arc_ilabels : gmap Z Z;
  arc_olabels : gmap Z Z;
  arc_weights : gmap Z float
}.

Definition with_toks (v : gmap Z Token) (lp : t) : t :=
  mk v (toks_bpr_fr_sidx_d lp) (toks_num_used lp)
     (toks_buf_before_pr_size lp) (arcs_bpr_d lp) (arcs_bpr_fr_sidx_d lp)
     (arcs_bpr_used_d lp) (arcs_buf_before_pr_size lp) (arcs_apr_d lp)
     (arcs_apr_used_d lp) (arcs_apr_fr_size_d lp) (modified_d lp)
     (arc_ilabels lp) (arc_olabels lp) (arc_weights lp).

Definition with_toks_sidx (v : gmap Z Z) (lp : t) : t :=
  mk (toks_bpr_d lp) v (toks_num_used lp)
     (toks_buf_before_pr_size lp) (arcs_bpr_d lp) (arcs_bpr_fr_sidx_d lp)
     (arcs_bpr_used_d lp) (arcs_buf_before_pr_size lp) (arcs_apr_d lp)
     (arcs_apr_used_d lp) (arcs_apr_fr_size_d lp) (modified_d lp)
     (arc_ilabels lp) (arc_olabels lp) (arc_weights lp).

Definition with_toks_num_used (v : Z) (lp : t) : t :=
  mk (toks_bpr_d lp) (toks_bpr_fr_sidx_d lp) v
     (toks_buf_before_pr_size lp) (arcs_bpr_d lp) (arcs_bpr_fr_sidx_d lp)
     (arcs_bpr_used_d lp) (arcs_buf_before_pr_size lp) (arcs_apr_d lp)
     (arcs_apr_used_d lp) (arcs_apr_fr_size_d lp) (modified_d lp)
     (arc_ilabels lp) (arc_olabels lp) (arc_weights lp).

Definition with_arcs_bpr (v : gmap Z LatLinkCompact) (lp : t) : t :=
  mk (toks_bpr_d lp) (toks_bpr_fr_sidx_d lp) (toks_num_used lp)
     (toks_buf_before_pr_size lp) v (arcs_bpr_fr_sidx_d lp)
     (arcs_bpr_used_d lp) (arcs_buf_before_pr_size lp) (arcs_apr_d lp)
     (arcs_apr_used_d lp) (arcs_apr_fr_size_d lp) (modified_d lp)
     (arc_ilabels lp) (arc_olabels lp) (arc_weights lp).

Definition with_arcs_sidx (v : gmap Z Z) (lp : t) : t :=
  mk (toks_bpr_d lp) (toks_bpr_fr_sidx_d lp) (toks_num_used lp)
     (toks_buf_before_pr_size lp) (arcs_bpr_d lp) v
     (arcs_bpr_used_d lp) (arcs_buf_before_pr_size lp) (arcs_apr_d lp)
     (arcs_apr_used_d lp) (arcs_apr_fr_size_d lp) (modified_d lp)
     (arc_ilabels lp) (arc_olabels lp) (arc_weights lp).

Definition with_arcs_bpr_used (v : Z) (lp : t) : t :=
  mk (toks_bpr_d lp) (toks_bpr_fr_sidx_d lp) (toks_num_used lp)
     (toks_buf_before_pr_size lp) (arcs_bpr_d lp) (arcs_bpr_fr_sidx_d lp)
     v (arcs_buf_before_pr_size lp) (arcs_apr_d lp)
     (arcs_apr_used_d lp) (arcs_apr_fr_size_d lp) (modified_d lp)
     (arc_ilabels lp) (arc_olabels lp) (arc_weights lp).

Definition with_arcs_apr (v : gmap Z LatLink) (u : Z) (lp : t) : t :=
  mk (toks_bpr_d lp) (toks_bpr_fr_sidx_d lp) (toks_num_used lp)
     (toks_buf_before_pr_size lp) (arcs_bpr_d lp) (arcs_bpr_fr_sidx_d lp)
     (arcs_bpr_used_d lp) (arcs_buf_before_pr_size lp) v
     u (arcs_apr_fr_size_d lp) (modified_d lp)
     (arc_ilabels lp) (arc_olabels lp) (arc_weights lp).

Definition with_arcs_apr_fr_size (v : gmap Z Z) (lp : t) : t :=
  mk (toks_bpr_d lp) (toks_bpr_fr_sidx_d lp) (toks_num_used lp)
     (toks_buf_before_pr_size lp) (arcs_bpr_d lp) (arcs_bpr_fr_sidx_d lp)
     (arcs_bpr_used_d lp) (arcs_buf_before_pr_size lp) (arcs_apr_d lp)
     (arcs_apr_used_d lp) v (modified_d lp)
     (arc_ilabels lp) (arc_olabels lp) (arc_weights lp).

Definition with_modified (v : gmap Z Z) (lp : t) : t :=
  mk (toks_bpr_d lp) (toks_bpr_fr_sidx_d lp) (toks_num_used lp)
     (toks_buf_before_pr_size lp) (arcs_bpr_d lp) (arcs_bpr_fr_sidx_d lp)
     (arcs_bpr_used_d lp) (arcs_buf_before_pr_size lp) (arcs_apr_d lp)
     (arcs_apr_used_d lp) (arcs_apr_fr_size_d lp) v
     (arc_ilabels lp) (arc_olabels lp) (arc_weights lp).

(** The test both functions below make on an index into the pool of
    tokens: an assertion with [__DEBUG__], a saturation at the last cell
    without. *)
Definition pool_index (b : build) (lp : t) (idx : Z) : outcome Z :=
  match b with
  | Debug =>
      _ ← assert "idx >= 0 && idx < toks_buf_before_pr_size"
            ((0 <=? idx) && (idx <? toks_buf_before_pr_size lp));
      mret idx
  | Release =>
      if toks_buf_before_pr_size lp <=? idx
      then mret (toks_buf_before_pr_size lp - 1)
      else mret idx
  end.

(** [GetTokenByExactIdx]; the result is the index of the cell. *)
Definition GetTokenByExactIdx (b : build) (lp : t) (offset : Z)
    : outcome Z :=
  pool_index b lp offset.

(** [GetTokenAllocIdx]. *)
Definition GetTokenAllocIdx (b : build) (lp : t) (offset : Z)
    : outcome Z :=
  pool_index b lp (toks_num_used lp + offset).

(** [SetNextSidx]. *)
Definition SetNextSidx (sidx_buf : gmap Z Z) (size fr : Z)
    : outcome (gmap Z Z) :=
  _ ← assert "frame >= 0" (0 <=? fr);
  cur_sidx ← load sidx_buf fr;
  mret (<[fr + 1 := cur_sidx + size]> sidx_buf).

(** [GetActiveToken(int32 frame, int32 id_pack, bool check)]. *)
Definition GetActiveToken (lp : t) (fr id_pack : Z) : outcome Z :=
  cur_sidx ← load (toks_bpr_fr_sidx_d lp) fr;
  let id := Z.land id_pack (Z.shiftl 1 31 - 1) in
  _ ← assert "cur_sidx + id < toks_buf_before_pr_size"
        (cur_sidx + id <? toks_buf_before_pr_size lp);
  mret (cur_sidx + id).

(** [GetActiveArc]. *)
Definition GetActiveArc (lp : t) (fr id : Z) : outcome Z :=
  cur_sidx ← load (arcs_bpr_fr_sidx_d lp) fr;
  _ ← assert "cur_sidx + id < arcs_buf_before_pr_size"
        (cur_sidx + id <? arcs_buf_before_pr_size lp);
  mret (cur_sidx + id).

(** [GetSize]. *)
Definition GetSize (lp : t) (acc_len : gmap Z Z) (fr : Z) : outcome Z :=
  hi ← load acc_len (fr + 1);
  lo ← load acc_len fr;
  let size := hi - lo in
  _ ← assert "size >= 0 && size <= arcs_buf_before_pr_size"
        ((0 <=? size) && (size <=? arcs_buf_before_pr_size lp));
  mret size.

(** [UpdateModifiedFlags]: the cells of [modified_d] that [modified0],
    [modified1] and [modified2] point to. *)
Definition UpdateModifiedFlags (cnt : Z) : Z * Z * Z :=
  (cnt mod 3, (cnt + 1) mod 3, (cnt + 2) mod 3).

(** [AddArc(LatLinkCompact* arc, int32 frame)]. *)
Definition explode (lp : t) (fr : Z) (arc : LatLinkCompact)
    : outcome LatLink :=
  let frame_tok := if IsEmitArc arc then fr - 1 else fr in
  let j := arc_id arc in
  il ← load (arc_ilabels lp) j;
  ol ← load (arc_olabels lp) j;
  w ← load (arc_weights lp) j;
  mret (LatLink_new (GetPrevTokId arc) frame_tok (next_tok_id arc) fr
                    il ol w (acoustic_cost arc)).

Definition AddArc (lp : t) (arc : LatLinkCompact) (fr : Z) : outcome t :=
  let i := arcs_apr_used_d lp in
  _ ← assert "i < arcs_buf_before_pr_size * ESTIMATED_PRUNE_RATIO"
        (below_estimated_prune_ratio i (arcs_buf_before_pr_size lp));
  apr_arc ← explode lp fr arc;
  mret (with_arcs_apr (<[i := apr_arc]> (arcs_apr_d lp)) (i + 1) lp).

(** The extra cost of a link of the frame, as both passes of
    [PruneLatticeForFrame] compute it, with the cell of the previous
    token of the link. *)
Definition extra_cost_of_link (lp : t) (fr : Z) (link : LatLinkCompact)
    : outcome (Z * float) :=
  let frame_tok := if IsEmitArc link then fr - 1 else fr in
  next_i ← GetActiveToken lp fr (next_tok_id link);
  tok_i ← GetActiveToken lp frame_tok (GetPrevTokId link);
  next_tok ← load (toks_bpr_d lp) next_i;
  tok ← load (toks_bpr_d lp) tok_i;
  w ← load (arc_weights lp) (arc_id link);
  mret (tok_i,
        F32.add (extra_cost next_tok)
          (F32.sub (F32.add (F32.add (cost_ tok) (acoustic_cost link)) w)
                   (cost_ next_tok))).

(** The same for the link [tid] of the frame, fetched with
    [GetActiveArc]. *)
Definition link_extra_cost (lp : t) (fr tid : Z)
    : outcome (LatLinkCompact * Z * float) :=
  link_i ← GetActiveArc lp fr tid;
  link ← load (arcs_bpr_d lp) link_i;
  '(tok_i, x) ← extra_cost_of_link lp fr link;
  mret (link, tok_i, x).

(** [!isnan(link_extra_cost) && link_extra_cost <= lattice_beam]. *)
Definition not_pruned (lattice_beam x : float) : bool :=
  negb (F32.isnan x) && F32.leb x lattice_beam.

(** The value that the update pass hands to [atomic_min]: a cost below -1
    is reported on the console and replaced by half the beam. *)
Definition debug_clamp (lattice_beam x : float) : float :=
  if F32.ltb x (F32.of_Z (-1))
  then F32.div lattice_beam (F32.of_Z 2)
  else x.

(** The initialisation of [PruneLatticeForFrame]: the tokens of the frame
    before get [FLT_MAX]. *)
Definition init_token (fr : Z) (lp : t) (tid : Z) : outcome t :=
  tok_i ← GetActiveToken lp (fr - 1) tid;
  tok ← load (toks_bpr_d lp) tok_i;
  mret (with_toks (<[tok_i := set_extra_cost F32.FLT_MAX tok]>
                     (toks_bpr_d lp)) lp).

(** The body of the update loop for the link [tid]; [m0] is the cell that
    [modified0] points to. *)
Definition update_link (lattice_beam : float) (fr m0 : Z) (lp : t)
    (tid : Z) : outcome t :=
  '(link, tok_i, x) ← link_extra_cost lp fr tid;
  if not_pruned lattice_beam x then
    let x' := debug_clamp lattice_beam x in
    tok ← load (toks_bpr_d lp) tok_i;
    if F32.ltb x' (extra_cost tok) then
      let lp1 :=
        with_toks (<[tok_i := set_extra_cost
                                (atomic_min (extra_cost tok) x') tok]>
                     (toks_bpr_d lp)) lp in
      flag ← load (modified_d lp1) m0;
      if flag =? 0
      then mret (with_modified (<[m0 := flag + 1]> (modified_d lp1)) lp1)
      else mret lp1
    else mret lp
  else mret lp.

(** The body of the final pass for the link [tid]. *)
Definition aggregate_link (merge : bool) (lattice_beam : float) (fr : Z)
    (lp : t) (tid : Z) : outcome t :=
  '(link, tok_i, x) ← link_extra_cost lp fr tid;
  if not_pruned lattice_beam x then
    if merge then AddArc lp link fr else mret lp
  else mret lp.

(** The first block of [PruneLatticeForFrame]: [FLT_MAX] for the tokens of
    the frame before, then the flags as thread 0 sets them with
    [cnt = 0]; the result carries [prev_cidx]. *)
Definition prune_init (fr : Z) (lp : t) : outcome (Z * t) :=
  size ← GetSize lp (toks_bpr_fr_sidx_d lp) (fr - 1);
  lp1 ← grid_stride_loop (init_token fr) size lp;
  let '(m0, m1, m2) := UpdateModifiedFlags 0 in
  mret (arcs_apr_used_d lp1,
        with_modified
          (<[m2 := 0]> (<[m1 := 0]> (<[m0 := 1]> (modified_d lp1)))) lp1).

(** One trip of the update loop, entered with the incremented [cnt]. *)
Definition update_pass (lattice_beam : float) (fr cnt : Z) (lp : t)
    : outcome t :=
  let '(m0, m1, m2) := UpdateModifiedFlags cnt in
  let lp1 := with_modified (<[m1 := 0]> (modified_d lp)) lp in
  size ← GetSize lp1 (arcs_bpr_fr_sidx_d lp1) fr;
  grid_stride_loop (update_link lattice_beam fr m0) size lp1.

(** [cnt++ < 10 && *modified0 != 0], where [modified0] still points to the
    cell chosen with the value of [cnt] before the increment. *)
Definition update_loop_test (cnt : Z) (lp : t) : outcome bool :=
  if cnt <? 10 then
    let '(m0, _, _) := UpdateModifiedFlags cnt in
    flag ← load (modified_d lp) m0;
    mret (negb (flag =? 0))
  else mret false.

(** [while (cnt++ < 10 && *modified0 != 0) { ... }].  The fuel bounds the
    number of times the test is evaluated; the result counts the trips
    through the body. *)
Fixpoint update_loop (fuel : nat) (lattice_beam : float) (fr cnt : Z)
    (lp : t) : option (outcome (nat * t)) :=
  match fuel with
  | O => None
  | S fuel' =>
      match update_loop_test cnt lp with
      | Trap e => Some (Trap e)
      | Ret false => Some (Ret (O, lp))
      | Ret true =>
          match update_pass lattice_beam fr (cnt + 1) lp with
          | Trap e => Some (Trap e)
          | Ret lp' =>
              match update_loop fuel' lattice_beam fr (cnt + 1) lp' with
              | Some (Ret (n, lp'')) => Some (Ret (S n, lp''))
              | other => other
              end
          end
      end
  end.

(** The last blocks of [PruneLatticeForFrame]: the surviving arcs are
    gathered and thread 0 records how many the frame kept. *)
Definition aggregate_pass (merge : bool) (lattice_beam : float) (fr : Z)
    (prev_cidx : Z) (lp : t) : outcome t :=
  size ← GetSize lp (arcs_bpr_fr_sidx_d lp) fr;
  lp1 ← grid_stride_loop (aggregate_link merge lattice_beam fr) size lp;
  if merge
  then mret (with_arcs_apr_fr_size
               (<[fr := arcs_apr_used_d lp1 - prev_cidx]>
                  (arcs_apr_fr_size_d lp1)) lp1)
  else mret lp1.

(** [PruneLatticeForFrame]; the result also tells how many trips the
    update loop made. *)
Definition PruneLatticeForFrame (fuel : nat) (fr : Z) (merge : bool)
    (lattice_beam : float) (lp : t) : option (outcome (nat * t)) :=
  match prune_init fr lp with
  | Trap e => Some (Trap e)
  | Ret (prev_cidx, lp1) =>
      match update_loop fuel lattice_beam fr 0 lp1 with
      | None => None
      | Some (Trap e) => Some (Trap e)
      | Some (Ret (n, lp2)) =>
          match aggregate_pass merge lattice_beam fr prev_cidx lp2 with
          | Trap e => Some (Trap e)
          | Ret lp3 => Some (Ret (n, lp3))
          end
      end
  end.

(** [for (f = frame; f > 0; f--) PruneLatticeForFrame(f, 1, ...)]. *)
Fixpoint prune_frames (fuel : nat) (frames : list Z) (lattice_beam : float)
    (lp : t) : option (outcome t) :=
  match frames with
  | [] => Some (Ret lp)
  | f :: rest =>
      match PruneLatticeForFrame fuel f true lattice_beam lp with
      | None => None
      | Some (Trap e) => Some (Trap e)
      | Some (Ret (_, lp')) => prune_frames fuel rest lattice_beam lp'
      end
  end.

(** [PruneActiveTokens]. *)
Definition PruneActiveTokens (fuel : nat) (fr : Z) (lattice_beam : float)
    (lp : t) : option (outcome t) :=
  if fr =? 0 then Some (Ret lp) else
  let lp0 := with_arcs_apr (arcs_apr_d lp) 0 lp in
  match prune_frames fuel (reverse (seqZ 1 fr)) lattice_beam lp0 with
  | Some (Ret lp1) =>
      Some (_ ← assert
                  "*arcs_apr_used_d < arcs_buf_before_pr_size * ESTIMATED_PRUNE_RATIO"
                  (below_estimated_prune_ratio (arcs_apr_used_d lp1)
                     (arcs_buf_before_pr_size lp1));
            mret lp1)
  | other => other
  end.

(** [CollectToksPerFrame], as thread 0 runs it. *)
Definition CollectToksPerFrame (size fr : Z) (lp : t) : outcome t :=
  sidx ← SetNextSidx (toks_bpr_fr_sidx_d lp) size fr;
  let lp1 := with_toks_num_used (toks_num_used lp + size)
               (with_toks_sidx sidx lp) in
  first ← load (toks_bpr_fr_sidx_d lp1) 0;
  _ ← assert "*toks_bpr_fr_sidx_d < toks_buf_before_pr_size"
        (first <? toks_buf_before_pr_size lp1);
  mret lp1.

(** [CollectArcsPerFrame], as thread 0 runs it; [cur_size] is the size of
    the arc vector. *)
Definition CollectArcsPerFrame (cur_size fr : Z) (lp : t) : outcome t :=
  let size := cur_size - arcs_bpr_used_d lp in
  sidx ← SetNextSidx (arcs_bpr_fr_sidx_d lp) size fr;
  mret (with_arcs_bpr_used cur_size (with_arcs_sidx sidx lp)).

End LatticeProcessor.

(** ** Helpers that the files at hand only call

    [pack_cost_idx_into_uint64], [unpack_idx_from_uint64], the constructor
    [TokenState(StateId)] and the class of [histogram_prev_toks] are
    declared in a header that is not at hand.  The decoder takes them as
    parameters: the two functions on packs, the content of the fields that
    the constructor sets besides the state, and for the histogram its
    [Initialize] and the cutoff that [GetCutoff] writes once the costs of
    the tokens have been added. *)
Class DeviceUtils : Type := {
  pack_cost_idx_into_uint64 : float -> Z -> Z;
  unpack_idx_from_uint64 : Z -> Z;
  TokenState_fresh_tok_idx : Z;
  TokenState_fresh_pack : Z;
  histogram : Type;
  histogram_Initialize : histogram -> float -> histogram;
  histogram_GetCutoff : histogram -> list float -> Z -> float
}.

(** Modelled from the spec: [LOOKUP_DEACTIVE] and [LOOKUP_READY_PUSH] are
    defined outside the files at hand.  They are the states INACTIVE and
    CLAIMING of a lookup slot of the spec; the code keeps them in
    [tokenstate_idx], the field of the index, so they are values that no
    index takes. *)
Definition LOOKUP_DEACTIVE : Z := -1.
Definition LOOKUP_READY_PUSH : Z := -2.

(** The fields of [TokenState] that the kernels use. *)
Record TokenState : Type := mkTokenState {
  state : Z;
  tok_idx_allocated : Z;
  token_pack : Z
}.

Definition with_tok_idx_allocated (i : Z) (ts : TokenState) : TokenState :=
  mkTokenState (state ts) i (token_pack ts).

Definition with_token_pack (pk : Z) (ts : TokenState) : TokenState :=
  mkTokenState (state ts) (tok_idx_allocated ts) pk.

(** [CudaMergeVector<TokenState>]: a vector and the flags [mem_update_d]. *)
Record TokenMergeVector : Type := mkTokenMergeVector {
  vector : CudaVector.t TokenState;
  mem_update_d : gmap Z Z
}.

Definition with_vector (v : CudaVector.t TokenState) (m : TokenMergeVector)
    : TokenMergeVector :=
  mkTokenMergeVector v (mem_update_d m).

Definition with_mem_update (u : gmap Z Z) (m : TokenMergeVector)
    : TokenMergeVector :=
  mkTokenMergeVector (vector m) u.

(** [IsUpdated]. *)
Definition IsUpdated (m : TokenMergeVector) (i : Z) : outcome Z :=
  if CudaVector.count_d (vector m) <=? i then mret 0
  else load (mem_update_d m) i.

(** The tokens that a dispatcher hands out to one group, from the value of
    its counter on, and the counter after the fetch that ends the loop. *)
Definition dispatch (counter size : Z) : list Z * Z :=
  (seqZ counter (size - counter), Z.max counter size + 1).

(** The threads of a group, [blockDimx] of them, share the out-arcs of a
    token: the arc [j] goes to the thread of rank [(j - start) mod 32]. *)
Definition blockDimx : Z := 32.
Definition lane_of (start j : Z) : nat := Z.to_nat ((j - start) mod blockDimx).

(** ** The kernels of token passing *)

Module Decoder.
Section WithUtils.
Context `{DeviceUtils}.

(** The part of [processTokens_params] that a kernel only reads. *)
Record params : Type := mkParams {
  built : build;
  e_offsets : gmap Z Z;
  ne_offsets : gmap Z Z;
  arc_ilabels : gmap Z Z;
  arc_olabels : gmap Z Z;
  arc_weights : gmap Z float;
  arc_nextstates : gmap Z Z;
  loglikelihoods : gmap Z float;
  beam : float;
  lattice_beam : float;
  max_active : Z;
  max_lat_arc_per_frame : Z;
  numArcs : Z;
  frame : Z;
  verbose : Z
}.

(** The parameters with another beam. *)
Definition with_beam (b : float) (p : params) : params :=
  mkParams (built p) (e_offsets p) (ne_offsets p) (arc_ilabels p)
    (arc_olabels p) (arc_weights p) (arc_nextstates p) (loglikelihoods p) b
    (lattice_beam p) (max_active p) (max_lat_arc_per_frame p) (numArcs p)
    (frame p) (verbose p).

(** The parameters at another frame. *)
Definition with_frame (f : Z) (p : params) : params :=
  mkParams (built p) (e_offsets p) (ne_offsets p) (arc_ilabels p)
  (arc_olabels p) (arc_weights p) (arc_nextstates p) (loglikelihoods p)
  (beam p) (lattice_beam p) (max_active p) (max_lat_arc_per_frame p)
  (numArcs p) f (verbose p).

(** The device memory behind the pointers of [processTokens_params].
    The arc vector [lat_arcs_sub_vec] has its counter and capacity here
    and its cells in [arcs_bpr_d] of the lattice processor, with which it
    shares them. *)
Record t : Type := mk {
  prev_toks : TokenMergeVector;
  cur_toks : TokenMergeVector;
  current_tokens_lookup : gmap Z Z;
  cutoff : float;
  cutoff_prev : float;
  lat_arcs_count : Z;
  lat_arcs_max_size : Z;
  token_per_arc : gmap Z Token;
  token_per_arc_update : gmap Z Z;
  lattice_processor : LatticeProcessor.t;
  histogram_prev_toks : histogram;
  modified : gmap Z Z;
  pe_idx : Z;
  ne_idx : Z;
  fb_idx : Z;
  agg_idx : Z;
  ne_queue : gmap Z Z;
  num_arcs_till_last : Z
}.

Definition with_prev_toks (v : TokenMergeVector) (st : t) : t :=
  mk v (cur_toks st) (current_tokens_lookup st) (cutoff st)
     (cutoff_prev st) (lat_arcs_count st) (lat_arcs_max_size st)
     (token_per_arc st) (token_per_arc_update st) (lattice_processor st)
     (histogram_prev_toks st) (modified st) (pe_idx st) (ne_idx st)
     (fb_idx st) (agg_idx st) (ne_queue st) (num_arcs_till_last st).

Definition with_cur_toks (v : TokenMergeVector) (st : t) : t :=
  mk (prev_toks st) v (current_tokens_lookup st) (cutoff st)
     (cutoff_prev st) (lat_arcs_count st) (lat_arcs_max_size st)
     (token_per_arc st) (token_per_arc_update st) (lattice_processor st)
     (histogram_prev_toks st) (modified st) (pe_idx st) (ne_idx st)
     (fb_idx st) (agg_idx st) (ne_queue st) (num_arcs_till_last st).

Definition with_current_tokens_lookup (v : gmap Z Z) (st : t) : t :=
  mk (prev_toks st) (cur_toks st) v (cutoff st) (cutoff_prev st)
     (lat_arcs_count st) (lat_arcs_max_size st) (token_per_arc st)
     (token_per_arc_update st) (lattice_processor st)
     (histogram_prev_toks st) (modified st) (pe_idx st) (ne_idx st)
     (fb_idx st) (agg_idx st) (ne_queue st) (num_arcs_till_last st).

Definition with_cutoff (v : float) (st : t) : t :=
  mk (prev_toks st) (cur_toks st) (current_tokens_lookup st) v
     (cutoff_prev st) (lat_arcs_count st) (lat_arcs_max_size st)
     (token_per_arc st) (token_per_arc_update st) (lattice_processor st)
     (histogram_prev_toks st) (modified st) (pe_idx st) (ne_idx st)
     (fb_idx st) (agg_idx st) (ne_queue st) (num_arcs_till_last st).

Definition with_cutoff_prev (v : float) (st : t) : t :=
  mk (prev_toks st) (cur_toks st) (current_tokens_lookup st) (cutoff st) v
     (lat_arcs_count st) (lat_arcs_max_size st) (token_per_arc st)
     (token_per_arc_update st) (lattice_processor st)
     (histogram_prev_toks st) (modified st) (pe_idx st) (ne_idx st)
     (fb_idx st) (agg_idx st) (ne_queue st) (num_arcs_till_last st).

Definition with_lat_arcs_count (v : Z) (st : t) : t :=
  mk (prev_toks st) (cur_toks st) (current_tokens_lookup st) (cutoff st)
     (cutoff_prev st) v (lat_arcs_max_size st) (token_per_arc st)
     (token_per_arc_update st) (lattice_processor st)
     (histogram_prev_toks st) (modified st) (pe_idx st) (ne_idx st)
     (fb_idx st) (agg_idx st) (ne_queue st) (num_arcs_till_last st).

Definition with_token_per_arc (v : gmap Z Token) (st : t) : t :=
  mk (prev_toks st) (cur_toks st) (current_tokens_lookup st) (cutoff st)
     (cutoff_prev st) (lat_arcs_count st) (lat_arcs_max_size st) v
     (token_per_arc_update st) (lattice_processor st)
     (histogram_prev_toks st) (modified st) (pe_idx st) (ne_idx st)
     (fb_idx st) (agg_idx st) (ne_queue st) (num_arcs_till_last st).

Definition with_token_per_arc_update (v : gmap Z Z) (st : t) : t :=
  mk (prev_toks st) (cur_toks st) (current_tokens_lookup st) (cutoff st)
     (cutoff_prev st) (lat_arcs_count st) (lat_arcs_max_size st)
     (token_per_arc st) v (lattice_processor st) (histogram_prev_toks st)
     (modified st) (pe_idx st) (ne_idx st) (fb_idx st) (agg_idx st)
     (ne_queue st) (num_arcs_till_last st).

Definition with_lattice_processor (v : LatticeProcessor.t) (st : t) : t :=
  mk (prev_toks st) (cur_toks st) (current_tokens_lookup st) (cutoff st)
     (cutoff_prev st) (lat_arcs_count st) (lat_arcs_max_size st)
     (token_per_arc st) (token_per_arc_update st) v
     (histogram_prev_toks st) (modified st) (pe_idx st) (ne_idx st)
     (fb_idx st) (agg_idx st) (ne_queue st) (num_arcs_till_last st).

Definition with_histogram_prev_toks (v : histogram) (st : t) : t :=
  mk (prev_toks st) (cur_toks st) (current_tokens_lookup st) (cutoff st)
     (cutoff_prev st) (lat_arcs_count st) (lat_arcs_max_size st)
     (token_per_arc st) (token_per_arc_update st) (lattice_processor st) v
     (modified st) (pe_idx st) (ne_idx st) (fb_idx st) (agg_idx st)
     (ne_queue st) (num_arcs_till_last st).

Definition with_modified (v : gmap Z Z) (st : t) : t :=
  mk (prev_toks st) (cur_toks st) (current_tokens_lookup st) (cutoff st)
     (cutoff_prev st) (lat_arcs_count st) (lat_arcs_max_size st)
     (token_per_arc st) (token_per_arc_update st) (lattice_processor st)
     (histogram_prev_toks st) v (pe_idx st) (ne_idx st) (fb_idx st)
     (agg_idx st) (ne_queue st) (num_arcs_till_last st).

Definition with_pe_idx (v : Z) (st : t) : t :=
  mk (prev_toks st) (cur_toks st) (current_tokens_lookup st) (cutoff st)
     (cutoff_prev st) (lat_arcs_count st) (lat_arcs_max_size st)
     (token_per_arc st) (token_per_arc_update st) (lattice_processor st)
     (histogram_prev_toks st) (modified st) v (ne_idx st) (fb_idx st)
     (agg_idx st) (ne_queue st) (num_arcs_till_last st).

Definition with_ne_idx (v : Z) (st : t) : t :=
  mk (prev_toks st) (cur_toks st) (current_tokens_lookup st) (cutoff st)
     (cutoff_prev st) (lat_arcs_count st) (lat_arcs_max_size st)
     (token_per_arc st) (token_per_arc_update st) (lattice_processor st)
     (histogram_prev_toks st) (modified st) (pe_idx st) v (fb_idx st)
     (agg_idx st) (ne_queue st) (num_arcs_till_last st).

Definition with_fb_idx (v : Z) (st : t) : t :=
  mk (prev_toks st) (cur_toks st) (current_tokens_lookup st) (cutoff st)
     (cutoff_prev st) (lat_arcs_count st) (lat_arcs_max_size st)
     (token_per_arc st) (token_per_arc_update st) (lattice_processor st)
     (histogram_prev_toks st) (modified st) (pe_idx st) (ne_idx st) v
     (agg_idx st) (ne_queue st) (num_arcs_till_last st).

Definition with_agg_idx (v : Z) (st : t) : t :=
  mk (prev_toks st) (cur_toks st) (current_tokens_lookup st) (cutoff st)
     (cutoff_prev st) (lat_arcs_count st) (lat_arcs_max_size st)
     (token_per_arc st) (token_per_arc_update st) (lattice_processor st)
     (histogram_prev_toks st) (modified st) (pe_idx st) (ne_idx st)
     (fb_idx st) v (ne_queue st) (num_arcs_till_last st).

Definition with_ne_queue (v : gmap Z Z) (st : t) : t :=
  mk (prev_toks st) (cur_toks st) (current_tokens_lookup st) (cutoff st)
     (cutoff_prev st) (lat_arcs_count st) (lat_arcs_max_size st)
     (token_per_arc st) (token_per_arc_update st) (lattice_processor st)
     (histogram_prev_toks st) (modified st) (pe_idx st) (ne_idx st)
     (fb_idx st) (agg_idx st) v (num_arcs_till_last st).

Definition with_num_arcs_till_last (v : Z) (st : t) : t :=
  mk (prev_toks st) (cur_toks st) (current_tokens_lookup st) (cutoff st)
     (cutoff_prev st) (lat_arcs_count st) (lat_arcs_max_size st)
     (token_per_arc st) (token_per_arc_update st) (lattice_processor st)
     (histogram_prev_toks st) (modified st) (pe_idx st) (ne_idx st)
     (fb_idx st) (agg_idx st) (ne_queue st) v.

Definition TokenState_new (s : Z) : TokenState :=
  mkTokenState s TokenState_fresh_tok_idx TokenState_fresh_pack.

Definition lat_arcs_sub_vec (st : t) : CudaVector.t LatLinkCompact :=
  CudaVector.mk (lat_arcs_count st) (lat_arcs_max_size st)
    (LatticeProcessor.arcs_bpr_d (lattice_processor st)).

Definition with_lat_arcs_sub_vec (v : CudaVector.t LatLinkCompact)
    (st : t) : t :=
  with_lattice_processor
    (LatticeProcessor.with_arcs_bpr (CudaVector.mem_d v)
       (lattice_processor st))
    (with_lat_arcs_count (CudaVector.count_d v) st).

Definition with_toks_bpr (v : gmap Z Token) (st : t) : t :=
  with_lattice_processor
    (LatticeProcessor.with_toks v (lattice_processor st)) st.

(** [GetTokenByExactIdx(ts.tok_idx_allocated)] and the token there. *)
Definition token_of (p : params) (st : t) (ts : TokenState)
    : outcome Token :=
  i ← LatticeProcessor.GetTokenByExactIdx (built p) (lattice_processor st)
        (tok_idx_allocated ts);
  load (LatticeProcessor.toks_bpr_d (lattice_processor st)) i.

(** [_initialize_cutoff]: the constant [1e2]. *)
Definition _initialize_cutoff (st : t) : t := with_cutoff (F32.of_Z 100) st.

(** The first block of [_find_or_add_token_arc]: the thread finds the
    slot of the state inactive, wins the compare-and-swap, pushes a
    token state and records its index. *)
Definition activate (p : params) (st : t) (nextstate : Z) : outcome t :=
  idx ← load (current_tokens_lookup st) nextstate;
  if idx =? LOOKUP_DEACTIVE then
    '(tokenstate_idx, v) ←
      CudaVector.PushBack (built p) (vector (cur_toks st))
        (TokenState_new nextstate);
    let st1 :=
      with_current_tokens_lookup
        (<[nextstate := tokenstate_idx]> (current_tokens_lookup st))
        (with_cur_toks (with_vector v (cur_toks st)) st) in
    tok_idx ← LatticeProcessor.GetTokenAllocIdx (built p)
                (lattice_processor st1) tokenstate_idx;
    ts ← CudaVector.get v tokenstate_idx;
    v' ← CudaVector.set v tokenstate_idx (with_tok_idx_allocated tok_idx ts);
    mret (with_cur_toks (with_vector v' (cur_toks st1)) st1)
  else mret st.

(** The end of [_find_or_add_token_arc]: the arc is pushed and its index
    within the frame, which becomes [*update_idx], is held against the
    ceiling of the frame. *)
Definition push_arc (p : params) (st : t) (arc : LatLinkCompact)
    : outcome (t * Z) :=
  '(pushed, v) ← CudaVector.PushBack (built p) (lat_arcs_sub_vec st) arc;
  let ret := pushed - num_arcs_till_last st in
  _ ← assert "ret < params->max_lat_arc_per_frame"
        (ret <? max_lat_arc_per_frame p);
  mret (with_lat_arcs_sub_vec v st, ret).

(** [_find_or_add_token_arc].  [ts] is the index of the source token
    state in its vector, or [None] for [NULL]; the result carries the
    index of the token state of [nextstate] and [*update_idx]. *)
Definition _find_or_add_token_arc (p : params) (st : t) (nextstate : Z)
    (total_cost acoustic_cost : float) (ts : option Z) (j : Z)
    (add_arc : bool) (update_idx : Z) (is_emit : bool)
    : outcome (t * Z * Z) :=
  st1 ← activate p st nextstate;
  idx ← load (current_tokens_lookup st1) nextstate;
  if (idx =? LOOKUP_DEACTIVE) || (idx =? LOOKUP_READY_PUSH)
  then Trap SpinsForever
  else
    _ ← CudaVector.get (vector (cur_toks st1)) idx;
    if add_arc then
      match ts with
      | None => Trap NullPointer
      | Some ts_i =>
          let src := if is_emit then prev_toks st1 else cur_toks st1 in
          source ← load (CudaVector.mem_d (vector src)) ts_i;
          _ ← LatticeProcessor.GetTokenByExactIdx (built p)
                (lattice_processor st1) (tok_idx_allocated source);
          let prev_tok_frame := if is_emit then frame p - 1 else frame p in
          ts_id ← CudaVector.GetIdxFromAddr (vector src) ts_i;
          let arc := mkLatLinkCompact ts_id prev_tok_frame idx (frame p)
                       acoustic_cost j in
          '(st2, ret) ← push_arc p st1 arc;
          mret (st2, idx, ret)
      end
    else mret (st1, idx, update_idx).

(** [atomicMax] on the pack of the token state [next_i], and whether the
    pack it found was smaller. *)
Definition recombine (st : t) (next_i new_token_pack : Z)
    : outcome (bool * t) :=
  next_ts ← load (CudaVector.mem_d (vector (cur_toks st))) next_i;
  let ret := token_pack next_ts in
  let v := CudaVector.store next_i
             (with_token_pack (Z.max ret new_token_pack) next_ts)
             (vector (cur_toks st)) in
  mret (ret <? new_token_pack, with_cur_toks (with_vector v (cur_toks st)) st).

(** The winner of the recombination fills the cell of its arc. *)
Definition store_token_per_arc (update_idx : Z) (tok : Token) (st : t) : t :=
  with_token_per_arc_update
    (<[update_idx := 1]> (token_per_arc_update st))
    (with_token_per_arc (<[update_idx := tok]> (token_per_arc st)) st).

(** One trip of the loop of [StoreDataByPackIdx]. *)
Definition store_slot (p : params) (st : t) (tid : Z) : outcome t :=
  ts ← load (CudaVector.mem_d (vector (cur_toks st))) tid;
  let idx := unpack_idx_from_uint64 (token_pack ts) in
  _ ← assert "idx < buf_size" (idx <? numArcs p);
  updated ← load (token_per_arc_update st) idx;
  let st1 :=
    with_cur_toks
      (with_mem_update (<[tid := updated]> (mem_update_d (cur_toks st)))
         (cur_toks st)) st in
  if updated =? 0 then mret st1
  else
    let st2 :=
      with_token_per_arc_update (<[idx := 0]> (token_per_arc_update st1))
        st1 in
    cur_tok ← load (token_per_arc st2) idx;
    to_tok ← LatticeProcessor.GetTokenByExactIdx (built p)
               (lattice_processor st2) (tok_idx_allocated ts);
    mret (with_toks_bpr
            (<[to_tok := cur_tok]>
               (LatticeProcessor.toks_bpr_d (lattice_processor st2)))
            st2).

(** [CudaMergeVector<TokenState>::StoreDataByPackIdx] on [cur_toks], with
    [token_per_arc], [token_per_arc_update] and [numArcs]. *)
Definition StoreDataByPackIdx (p : params) (st : t) : outcome t :=
  grid_stride_loop (store_slot p)
    (CudaVector.count_d (vector (cur_toks st))) st.

(** The state after the slots before [n] have been through the loop. *)
Definition StoreDataByPackIdx_upto (p : params) (n : Z) (st : t)
    : outcome t :=
  for_each (store_slot p) (seqZ 0 n) st.

(** [size > params->max_active && tok->cost_ > *params->cutoff_prev]. *)
Definition histogram_pruned (p : params) (st : t) (size : Z) (tok : Token)
    : bool :=
  (max_active p <? size) && F32.gtb (cost_ tok) (cutoff_prev st).

(** [_find_prev_cutoff_by_histogram]. *)
Definition _find_prev_cutoff_by_histogram (p : params) (st : t)
    : outcome t :=
  let size := CudaVector.Size (vector (prev_toks st)) in
  costs ← collect
            (fun i =>
               ts ← CudaVector.get (vector (prev_toks st)) i;
               tok ← token_of p st ts;
               mret (cost_ tok))
            (seqZ 0 size);
  mret (with_cutoff_prev
          (histogram_GetCutoff (histogram_prev_toks st) costs
             (max_active p)) st).

(** The body of the arc loop of [_find_best_cutoff]; [local] holds the
    [local_cutoff] of every thread of the group. *)
Definition cutoff_arc (p : params) (tok : Token) (start : Z)
    (local : list float) (j : Z) : outcome (list float) :=
  ilabel ← load (arc_ilabels p) j;
  ll ← load (loglikelihoods p) ilabel;
  let acoustic_cost := F32.neg ll in
  weight ← load (arc_weights p) j;
  let total_cost :=
    F32.add (F32.add (F32.add (cost_ tok) weight) acoustic_cost) (beam p) in
  let r := lane_of start j in
  match local !! r with
  | Some local_cutoff =>
      if F32.ltb total_cost local_cutoff
      then mret (<[r := total_cost]> local)
      else mret local
  | None => mret local
  end.

(** The body of the token loop of [_find_best_cutoff]. *)
Definition cutoff_token (p : params) (st : t) (size : Z)
    (local : list float) (i : Z) : outcome (list float) :=
  ts ← CudaVector.get (vector (prev_toks st)) i;
  tok ← token_of p st ts;
  if histogram_pruned p st size tok then mret local
  else
    start ← load (e_offsets p) (state ts);
    finish ← load (e_offsets p) (state ts + 1);
    for_each (cutoff_arc p tok start) (seqZ start (finish - start)) local.

(** The end of [_find_best_cutoff]: every thread whose [local_cutoff] is
    not [INFINITY] takes it into the cutoff with [atomic_min]. *)
Definition merge_local_cutoffs (c : float) (local : list float) : float :=
  foldl (fun c l => if F32.neqb l F32.INFINITY then atomic_min c l else c)
        c local.

(** [_find_best_cutoff], run by one group. *)
Definition _find_best_cutoff (p : params) (st : t) : outcome t :=
  let size := CudaVector.Size (vector (prev_toks st)) in
  st1 ← (if (max_active p <? size) && (1 <? frame p)
         then _find_prev_cutoff_by_histogram p st
         else mret st);
  let '(toks, fb) := dispatch (fb_idx st1) size in
  local ← for_each (cutoff_token p st1 size) toks
            (replicate (Z.to_nat blockDimx) F32.INFINITY);
  mret (with_cutoff (merge_local_cutoffs (cutoff st1) local)
          (with_fb_idx fb st1)).

(** The body of the arc loop of [_process_emitting_tokens], for the arc
    [j] of the token state [i] of [prev_toks]. *)
Definition emit_arc (p : params) (cutoff0 : float) (i : Z) (tok : Token)
    (st : t) (j : Z) : outcome t :=
  ilabel ← load (arc_ilabels p) j;
  ll ← load (loglikelihoods p) ilabel;
  let acoustic_cost := F32.neg ll in
  weight ← load (arc_weights p) j;
  nextstate ← load (arc_nextstates p) j;
  let total_cost := F32.add (F32.add (cost_ tok) weight) acoustic_cost in
  if F32.leb total_cost cutoff0 then
    '(st1, next_i, update_idx) ←
      _find_or_add_token_arc p st nextstate total_cost acoustic_cost
        (Some i) j true 0 true;
    let new_token_pack :=
      pack_cost_idx_into_uint64 (F32.neg total_cost) update_idx in
    '(won, st2) ← recombine st1 next_i new_token_pack;
    if won : bool
    then mret (store_token_per_arc update_idx
                 (Token_new (F32.add acoustic_cost weight) (frame p)
                    (Some tok)) st2)
    else mret st2
  else mret st.

(** The body of the token loop of [_process_emitting_tokens]. *)
Definition emit_token (p : params) (cutoff0 : float) (size : Z) (st : t)
    (i : Z) : outcome t :=
  ts ← CudaVector.get (vector (prev_toks st)) i;
  tok ← token_of p st ts;
  if histogram_pruned p st size tok then mret st
  else
    start ← load (e_offsets p) (state ts);
    finish ← load (e_offsets p) (state ts + 1);
    for_each (emit_arc p cutoff0 i tok) (seqZ start (finish - start)) st.

(** [_process_emitting_tokens], run by one group. *)
Definition _process_emitting_tokens (p : params) (st : t) : outcome t :=
  let cutoff0 := cutoff st in
  let size := CudaVector.Size (vector (prev_toks st)) in
  let '(toks, pe) := dispatch (pe_idx st) size in
  st1 ← for_each (emit_token p cutoff0 size) toks st;
  StoreDataByPackIdx p (with_pe_idx pe st1).

(** The body of the arc loop of [_process_nonemitting_tokens], for the
    arc [j] of the token state [i] of [cur_toks]; [m] is the cell of
    [modified]. *)
Definition nonemit_arc (p : params) (cutoff0 : float) (m i : Z)
    (tok : Token) (st : t) (j : Z) : outcome t :=
  weight ← load (arc_weights p) j;
  nextstate ← load (arc_nextstates p) j;
  let next_tok := Token_new weight (frame p) (Some tok) in
  let total_cost := F32.add (cost_ tok) weight in
  if F32.leb (cost_ next_tok) cutoff0 then
    '(st1, next_i, update_idx) ←
      _find_or_add_token_arc p st nextstate total_cost (F32.of_Z 0)
        (Some i) j true 0 false;
    let new_token_pack :=
      pack_cost_idx_into_uint64 (F32.neg total_cost) update_idx in
    '(won, st2) ← recombine st1 next_i new_token_pack;
    if won : bool then
      _ ← assert "update_idx < params->max_lat_arc_per_frame"
            (update_idx <? max_lat_arc_per_frame p);
      let st3 := store_token_per_arc update_idx
                   (Token_new weight (frame p) (Some tok)) st2 in
      mret (with_modified (<[m := 1]> (modified st3)) st3)
    else mret st2
  else mret st.

(** The body of the token loop of [_process_nonemitting_tokens]. *)
Definition nonemit_token (p : params) (cutoff0 : float) (m : Z) (st : t)
    (i : Z) : outcome t :=
  ts ← CudaVector.get (vector (cur_toks st)) i;
  tok ← token_of p st ts;
  start ← load (ne_offsets p) (state ts);
  finish ← load (ne_offsets p) (state ts + 1);
  for_each (nonemit_arc p cutoff0 m i tok) (seqZ start (finish - start)) st.

(** The aggregation stage: the token states updated by the pass before
    are queued. *)
Fixpoint aggregate_updated (size : Z) (tids : list Z) (st : t)
    : outcome t :=
  match tids with
  | [] => mret st
  | tid :: rest =>
      updated ← IsUpdated (cur_toks st) tid;
      if updated =? 0 then aggregate_updated size rest st
      else
        let i := agg_idx st in
        let st1 := with_agg_idx (i + 1) st in
        if size <=? i then mret st1
        else aggregate_updated size rest
               (with_ne_queue (<[i := tid]> (ne_queue st1)) st1)
  end.

(** The dispatcher over the queue: the group fetches the entries [js]
    one after the other and stops at the first that is not below
    [size]. *)
Fixpoint nonemit_queue (body : t -> Z -> outcome t) (size : Z)
    (js : list Z) (st : t) : outcome t :=
  match js with
  | [] => mret (with_ne_idx (ne_idx st + 1) st)
  | j :: rest =>
      let st1 := with_ne_idx (ne_idx st + 1) st in
      i ← load (ne_queue st1) j;
      if size <=? i then mret st1
      else st2 ← body st1 i; nonemit_queue body size rest st2
  end.

(** [_process_nonemitting_tokens], run by one group. *)
Definition _process_nonemitting_tokens (p : params) (cutoff0 : float)
    (size m : Z) (aggregate : bool) (st : t) : outcome t :=
  _ ← assert "size" (negb (size =? 0));
  st2 ← (if aggregate then
           st1 ← aggregate_updated size (seqZ 0 size) st;
           nonemit_queue (nonemit_token p cutoff0 m) size
             (seqZ (ne_idx st1) (agg_idx st1 - ne_idx st1)) st1
         else
           let '(toks, ne) := dispatch (ne_idx st) size in
           st1 ← for_each (nonemit_token p cutoff0 m) toks st;
           mret (with_ne_idx ne st1));
  StoreDataByPackIdx p st2.

(** [_initialize_visited_states]. *)
Definition reset_visited (st : t) (i : Z) : outcome t :=
  ts ← CudaVector.get (vector (cur_toks st)) i;
  mret (with_current_tokens_lookup
          (<[state ts := LOOKUP_DEACTIVE]> (current_tokens_lookup st)) st).

Definition _initialize_visited_states (st : t) : outcome t :=
  grid_stride_loop reset_visited (CudaVector.Size (vector (cur_toks st))) st.

(** [_initialize_all_states]. *)
Definition _initialize_all_states (numStates : Z) (st : t) : t :=
  with_current_tokens_lookup
    (foldl (fun l i => <[i := LOOKUP_DEACTIVE]> l)
       (current_tokens_lookup st) (seqZ 0 numStates)) st.

(** [_add_initial_token], up to its call of [StoreDataByPackIdx]. *)
Definition add_initial_token_begin (p : params) (st : t) (start : Z)
    : outcome t :=
  let st0 := _initialize_cutoff st in
  '(st1, next_i, update_idx) ←
    _find_or_add_token_arc p st0 start (F32.of_Z 0) (F32.of_Z 0) None 0
      false 0 false;
  let new_token_pack := pack_cost_idx_into_uint64 (F32.of_Z 0) update_idx in
  let st2 := store_token_per_arc update_idx
               (Token_new (F32.of_Z 0) (frame p) None) st1 in
  '(_, st3) ← recombine st2 next_i new_token_pack;
  mret st3.

(** [_add_initial_token], as the thread 0 runs it. *)
Definition _add_initial_token (p : params) (st : t) (start : Z)
    : outcome t :=
  st3 ← add_initial_token_begin p st start;
  StoreDataByPackIdx p st3.

(** The test that ends a trip of the loop of [_process_tokens]:
    [*modified0 == true && cnt < 10]. *)
Definition closure_test (m0 cnt : Z) (st : t) : outcome bool :=
  flag ← load (modified st) m0;
  mret ((flag =? 1) && (cnt <? 10)).

(** One trip of the loop, entered with the flags [m0] and [m1] as they
    are before the swap; the trip uses [m1] as its [modified0]. *)
Definition closure_pass (p : params) (is_init : bool) (cutoff0 : float)
    (cnt m0 m1 : Z) (st : t) : outcome t :=
  let size := CudaVector.Size (vector (cur_toks st)) in
  let st1 := with_agg_idx 0 (with_ne_idx 0 st) in
  let st2 := with_modified (<[m0 := 0]> (modified st1)) st1 in
  let aggregate := negb is_init && (1 <? cnt) in
  _process_nonemitting_tokens p cutoff0 size m1 aggregate st2.

(** [do { ... } while] with the test above.  The fuel
    bounds the number of trips; the result counts them. *)
Fixpoint closure_loop (fuel : nat) (p : params) (is_init : bool)
    (cutoff0 : float) (cnt m0 m1 : Z) (st : t)
    : option (outcome (nat * t)) :=
  match fuel with
  | O => None
  | S fuel' =>
      match closure_pass p is_init cutoff0 (cnt + 1) m0 m1 st with
      | Trap e => Some (Trap e)
      | Ret st' =>
          match closure_test m1 (cnt + 1) st' with
          | Trap e => Some (Trap e)
          | Ret false => Some (Ret (1%nat, st'))
          | Ret true =>
              match closure_loop fuel' p is_init cutoff0 (cnt + 1) m1 m0
                      st' with
              | Some (Ret (n, st'')) => Some (Ret (S n, st''))
              | other => other
              end
          end
      end
  end.

(** The part of [_process_tokens] before the loop; the result carries
    the local [cutoff]. *)
Definition process_tokens_begin (p : params) (is_init : bool) (st : t)
    : outcome (float * t) :=
  st1 ← (if is_init then mret (with_num_arcs_till_last 0 st)
         else
           s ← _find_best_cutoff p st;
           mret (with_histogram_prev_toks
                   (histogram_Initialize (histogram_prev_toks s)
                      (F32.sub (cutoff s) (beam p))) s));
  let st2 := with_modified (<[0 := 0]> (<[1 := 0]> (modified st1))) st1 in
  let cutoff0 := cutoff st2 in
  st3 ← (if is_init then mret st2 else _process_emitting_tokens p st2);
  mret (cutoff0, st3).

(** The part of [_process_tokens] after the loop. *)
Definition process_tokens_end (p : params) (st : t) : outcome t :=
  lp1 ← LatticeProcessor.CollectToksPerFrame
          (CudaVector.Size (vector (cur_toks st))) (frame p)
          (lattice_processor st);
  lp2 ← LatticeProcessor.CollectArcsPerFrame
          (CudaVector.Size (lat_arcs_sub_vec st)) (frame p) lp1;
  let st1 := with_num_arcs_till_last
               (CudaVector.Size (lat_arcs_sub_vec st))
               (with_lattice_processor lp2 st) in
  st2 ← _initialize_visited_states st1;
  mret (with_pe_idx 0 (with_fb_idx 0 (with_cutoff F32.INFINITY st2))).

(** [_process_tokens]; the result also tells how many trips the loop of
    the non-emitting closure made. *)
Definition _process_tokens (fuel : nat) (p : params) (is_init : bool)
    (st : t) : option (outcome (nat * t)) :=
  match process_tokens_begin p is_init st with
  | Trap e => Some (Trap e)
  | Ret (cutoff0, st1) =>
      match closure_loop fuel p is_init cutoff0 0 0 1 st1 with
      | None => None
      | Some (Trap e) => Some (Trap e)
      | Some (Ret (n, st2)) =>
          match process_tokens_end p st2 with
          | Trap e => Some (Trap e)
          | Ret st3 => Some (Ret (n, st3))
          end
      end
  end.

(** [PreProcessTokens], seen from the device: the two buffers of token
    states change roles and the new [cur_toks] is cleared. *)
Definition PreProcessTokens (st : t) : t :=
  with_prev_toks (cur_toks st)
    (with_cur_toks
       (with_vector (CudaVector.Clear (vector (prev_toks st))) (prev_toks st))
       st).

End WithUtils.
End Decoder.

(** ** Several threads in [_find_or_add_token_arc]

    The first statements of [_find_or_add_token_arc], up to the end of its
    [while] loop, run by several threads at once.  A thread that looks for
    the token state of the state [s] is before its read of the slot, before
    its compare-and-swap, before the [atomicAdd] of [PushBack], before the
    test of the counter there, before the store there, before it records
    the index it got, before it stores [tok_idx_allocated], in the [while]
    loop, or past the loop with the index it found there.  A thread past
    the loop enters the function again, for the state that the schedule
    names. *)

Module Activation.
Section WithUtils.
Context `{DeviceUtils}.

Inductive thread : Type :=
  | AtTest (s : Z)
  | AtCAS (s : Z)
  | AtAdd (s : Z)
  | AtClamp (s idx : Z)
  | AtStore (s idx : Z)
  | AtRecord (s idx : Z)
  | AtAlloc (s idx : Z)
  | AtSpin (s : Z)
  | Found (s idx : Z).

Abbreviation lookup_of st := (Decoder.current_tokens_lookup st).
Abbreviation cur_vector st := (vector (Decoder.cur_toks st)).

Definition with_cur_vector (v : CudaVector.t TokenState) (st : Decoder.t)
    : Decoder.t :=
  Decoder.with_cur_toks (with_vector v (Decoder.cur_toks st)) st.

Definition step (p : Decoder.params) (next : Z) (th : thread)
    (st : Decoder.t) : outcome (thread * Decoder.t) :=
  match th with
  | AtTest s =>
      idx ← load (lookup_of st) s;
      mret (if idx =? LOOKUP_DEACTIVE then AtCAS s else AtSpin s, st)
  | AtCAS s =>
      idx ← load (lookup_of st) s;
      if idx =? LOOKUP_DEACTIVE
      then mret (AtAdd s,
                 Decoder.with_current_tokens_lookup
                   (<[s := LOOKUP_READY_PUSH]> (lookup_of st)) st)
      else mret (AtSpin s, st)
  | AtAdd s =>
      let '(idx, v) := CudaVector.fetch_add (cur_vector st) in
      mret (AtClamp s idx, with_cur_vector v st)
  | AtClamp s idx =>
      v ← CudaVector.clamp_count (Decoder.built p) (cur_vector st);
      mret (AtStore s idx, with_cur_vector v st)
  | AtStore s idx =>
      mret (AtRecord s idx,
            with_cur_vector
              (CudaVector.store idx (Decoder.TokenState_new s)
                 (cur_vector st)) st)
  | AtRecord s idx =>
      mret (AtAlloc s idx,
            Decoder.with_current_tokens_lookup
              (<[s := idx]> (lookup_of st)) st)
  | AtAlloc s idx =>
      tok_idx ← LatticeProcessor.GetTokenAllocIdx (Decoder.built p)
                  (Decoder.lattice_processor st) idx;
      ts ← CudaVector.get (cur_vector st) idx;
      v ← CudaVector.set (cur_vector st) idx
            (with_tok_idx_allocated tok_idx ts);
      mret (AtSpin s, with_cur_vector v st)
  | AtSpin s =>
      idx ← load (lookup_of st) s;
      mret (if (idx =? LOOKUP_DEACTIVE) || (idx =? LOOKUP_READY_PUSH)
            then AtSpin s else Found s idx, st)
  | Found s idx => mret (AtTest next, st)
  end.

(** The threads, the memory, and for the statements below the states for
    which a thread went into [PushBack], the latest first. *)
Record system : Type := mkSystem {
  pool : list thread;
  memory : Decoder.t;
  pushes : list Z
}.

Definition pushes_of (th : thread) (log : list Z) : list Z :=
  match th with
  | AtAdd s => s :: log
  | _ => log
  end.

(** The thread [k] takes a step; [next] is the state it looks for when it
    enters the function again. *)
Definition sched_step (p : Decoder.params) (sys : system) (item : nat * Z)
    : outcome system :=
  match pool sys !! fst item with
  | Some th =>
      '(th', st') ← step p (snd item) th (memory sys);
      mret (mkSystem (<[fst item := th']> (pool sys)) st'
              (pushes_of th (pushes sys)))
  | None => mret sys
  end.

Fixpoint run (p : Decoder.params) (sched : list (nat * Z)) (sys : system)
    : outcome system :=
  match sched with
  | [] => mret sys
  | item :: rest =>
      sys' ← sched_step p sys item;
      run p rest sys'
  end.

(** The token state [a] is in the cell [j] of [cur_toks]. *)
Definition holds (st : Decoder.t) (j : Z) (a : TokenState) : Prop :=
  0 <= j < CudaVector.count_d (cur_vector st) /\
  CudaVector.mem_d (cur_vector st) !! j = Some a.

(** The start of a frame: the vector of token states is empty and has
    room, every slot of the lookup table is inactive, every thread enters
    the function.  The table has fewer than [2 ^ 32] slots. *)
Definition frame_start (sys : system) : Prop :=
  CudaVector.count_d (cur_vector (memory sys)) = 0 /\
  1 <= CudaVector.max_size (cur_vector (memory sys)) <= 2 ^ 32 /\
  Z.of_nat (size (lookup_of (memory sys))) < 2 ^ 32 /\
  (forall s v, lookup_of (memory sys) !! s = Some v ->
     v = LOOKUP_DEACTIVE) /\
  (forall k th, pool sys !! k = Some th -> exists s, th = AtTest s) /\
  pushes sys = [].

(** The state that a thread has claimed with its compare-and-swap and not
    yet recorded an index for. *)
Definition claims (th : thread) : option Z :=
  match th with
  | AtAdd s | AtClamp s _ | AtStore s _ | AtRecord s _ => Some s
  | _ => None
  end.

(** The state of a thread about to go into [PushBack]. *)
Definition adding (th : thread) : option Z :=
  match th with
  | AtAdd s => Some s
  | _ => None
  end.

(** The state and the index of a thread that has got an index from
    [atomicAdd] and not yet recorded it. *)
Definition index_of (th : thread) : option (Z * Z) :=
  match th with
  | AtClamp s i | AtStore s i | AtRecord s i => Some (s, i)
  | _ => None
  end.

(** The same for a thread that has not yet stored its token state. *)
Definition pending_of (th : thread) : option (Z * Z) :=
  match th with
  | AtClamp s i | AtStore s i => Some (s, i)
  | _ => None
  end.

(** The same for a thread between its [atomicAdd] and its test of the
    counter. *)
Definition clamp_of (th : thread) : option (Z * Z) :=
  match th with
  | AtClamp s i => Some (s, i)
  | _ => None
  end.

(** No thread is within [PushBack]. *)
Definition no_push_under_way (pl : list thread) : Prop :=
  forall k th, pl !! k = Some th -> pending_of th = None.

Definition some_thread {A : Type} (f : thread -> option A)
    (pl : list thread) (x : A) : Prop :=
  exists k th, pl !! k = Some th /\ f th = Some x.

(** What the place of a thread tells about the lookup table. *)
Definition thread_ok (lk : gmap Z Z) (th : thread) : Prop :=
  (forall s, claims th = Some s -> lk !! s = Some LOOKUP_READY_PUSH) /\
  (forall s i, th = AtAlloc s i \/ th = Found s i ->
     lk !! s = Some i /\ 0 <= i).

(** The compare-and-swap and the lookup table. *)
Record protocol (pl : list thread) (lk : gmap Z Z) (log : list Z)
    : Prop := mkProtocol {
  pr_lookup :
    forall s v, lk !! s = Some v ->
      v = LOOKUP_DEACTIVE \/ v = LOOKUP_READY_PUSH \/ 0 <= v;
  pr_threads : forall k th, pl !! k = Some th -> thread_ok lk th;
  pr_claim :
    forall k1 k2 th1 th2 s, pl !! k1 = Some th1 -> pl !! k2 = Some th2 ->
      claims th1 = Some s -> claims th2 = Some s -> k1 = k2;
  pr_nodup : NoDup log;
  pr_logged :
    forall s, In s log ->
      (exists v, lk !! s = Some v /\ v <> LOOKUP_DEACTIVE) /\
      ~ some_thread adding pl s;
  pr_pushed :
    forall s v, lk !! s = Some v -> v <> LOOKUP_DEACTIVE ->
      In s log \/ some_thread adding pl s;
  pr_size : Z.of_nat (size lk) < 2 ^ 32
}.

(** The index [j] was handed out for the state [s]. *)
Definition owns (pl : list thread) (lk : gmap Z Z) (s j : Z) : Prop :=
  some_thread index_of pl (s, j) \/ (lk !! s = Some j /\ 0 <= j).

(** The indices and the cells of the vector; [n] is the number of the
    pushes so far. *)
Record ownership (pl : list thread) (lk : gmap Z Z) (n : Z)
    (v : CudaVector.t TokenState) : Prop := mkOwnership {
  ow_cap : 1 <= CudaVector.max_size v <= 2 ^ 32;
  ow_count : 0 <= CudaVector.count_d v <= n;
  ow_quiet :
    CudaVector.count_d v <= CudaVector.max_size v - 1 \/
    exists x, some_thread clamp_of pl x;
  ow_range :
    forall s j, owns pl lk s j ->
      0 <= j < n /\
      (j < CudaVector.count_d v \/ CudaVector.max_size v - 1 <= j);
  ow_unique :
    forall s s' j, owns pl lk s j -> owns pl lk s' j ->
      j < CudaVector.max_size v - 1 -> s = s';
  ow_handed :
    forall j, 0 <= j < CudaVector.count_d v ->
      j < CudaVector.max_size v - 1 -> exists s, owns pl lk s j;
  ow_cells :
    forall s j, owns pl lk s j -> j < CudaVector.max_size v - 1 ->
      some_thread pending_of pl (s, j) \/
      exists a, CudaVector.mem_d v !! j = Some a /\ state a = s
}.

Definition invariant (sys : system) : Prop :=
  protocol (pool sys) (lookup_of (memory sys)) (pushes sys) /\
  ownership (pool sys) (lookup_of (memory sys))
    (Z.of_nat (length (pushes sys))) (cur_vector (memory sys)).

End WithUtils.
End Activation.

(** ** Small lattices to run the model on *)

Module Examples.
Import LatticeProcessor.

Definition cells {T : Type} (l : list (Z * T)) : gmap Z T := list_to_map l.

(** Frame 0 holds two tokens, of costs 0 and 0.25; frame 1 holds one
    token of cost 0.5.  Three emitting links of frame 1 reach it: from
    the first token with graph cost 0.5, from the second with graph cost
    2, and from the second with an acoustic cost that is not a number. *)
Definition two_branches : t :=
  {| toks_bpr_d :=
       cells [(0, Token_new (F32.of_Z 0) 0 None);
              (1, Token_new (F32.make 1 (-2)) 0 None);
              (2, Token_new (F32.make 1 (-1)) 1 None)];
     toks_bpr_fr_sidx_d := cells [(0, 0); (1, 2); (2, 3)];
     toks_num_used := 3;
     toks_buf_before_pr_size := 64;
     arcs_bpr_d :=
       cells [(0, mkLatLinkCompact 0 0 0 1 (F32.of_Z 0) 0);
              (1, mkLatLinkCompact 1 0 0 1 (F32.of_Z 0) 1);
              (2, mkLatLinkCompact 1 0 0 1 S754_nan 0)];
     arcs_bpr_fr_sidx_d := cells [(0, 0); (1, 0); (2, 3)];
     arcs_bpr_used_d := 3;
     arcs_buf_before_pr_size := 64;
     arcs_apr_d := ∅;
     arcs_apr_used_d := 0;
     arcs_apr_fr_size_d := ∅;
     modified_d := cells [(0, 0); (1, 0); (2, 0)];
     arc_ilabels := cells [(0, 1); (1, 1)];
     arc_olabels := cells [(0, 7); (1, 8)];
     arc_weights := cells [(0, F32.make 1 (-1)); (1, F32.of_Z 2)] |}.

(** An instance of the helpers.  The pack is the one of the spec,
    [(negated_cost << 32) | arc_slot_index], where the cost stands in the
    upper half as the bits of the number, changed so that the order of
    the packs is the order of the numbers; a fresh token state has the
    pack 0; the histogram has a single bin that ends at 1. *)
Definition order_bits (x : float) : Z :=
  let b := F32.bits x in
  if 2 ^ 31 <=? b then 2 ^ 32 - 1 - b else b + 2 ^ 31.

#[export] Instance utils : DeviceUtils := {|
  pack_cost_idx_into_uint64 :=
    fun c i => Z.lor (Z.shiftl (order_bits c) 32) i;
  unpack_idx_from_uint64 := fun pk => Z.land pk (Z.ones 32);
  TokenState_fresh_tok_idx := -1;
  TokenState_fresh_pack := 0;
  histogram := unit;
  histogram_Initialize := fun h _ => h;
  histogram_GetCutoff := fun _ _ _ => F32.of_Z 1
|}.

(** A graph with the states 0, 1 and 2.  The start state 0 has two
    emitting arcs to the state 2, of weights 0.25 and 0.125; the state 1
    has an emitting arc to the state 2 of weight 1; the state 2 has a
    non-emitting arc to the state 1 of weight 0.  Every emitting arc has
    the input label 1, whose log-likelihood is 0. *)
Definition recombination_graph (b : build) (fr max_active0 max_arcs : Z)
    : Decoder.params :=
  {| Decoder.built := b;
     Decoder.e_offsets := cells [(0, 0); (1, 2); (2, 3); (3, 3)];
     Decoder.ne_offsets := cells [(0, 3); (1, 3); (2, 3); (3, 4)];
     Decoder.arc_ilabels := cells [(0, 1); (1, 1); (2, 1); (3, 0)];
     Decoder.arc_olabels := cells [(0, 5); (1, 6); (2, 7); (3, 0)];
     Decoder.arc_weights :=
       cells [(0, F32.make 1 (-2)); (1, F32.make 1 (-3)); (2, F32.of_Z 1);
              (3, F32.of_Z 0)];
     Decoder.arc_nextstates := cells [(0, 2); (1, 2); (2, 2); (3, 1)];
     Decoder.loglikelihoods := cells [(0, F32.of_Z 0); (1, F32.of_Z 0)];
     Decoder.beam := F32.of_Z 2;
     Decoder.lattice_beam := F32.of_Z 1;
     Decoder.max_active := max_active0;
     Decoder.max_lat_arc_per_frame := max_arcs;
     Decoder.numArcs := 4;
     Decoder.frame := fr;
     Decoder.verbose := 0 |}.

Definition zeros (n : Z) : gmap Z Z := cells (map (fun i => (i, 0)) (seqZ 0 n)).

(** A graph with the states 0 and 1 and five emitting arcs from the start
    state 0 to the state 1, each of weight 0.25 and input label 1. *)
Definition fan_graph (b : build) (fr max_active0 max_arcs : Z)
    : Decoder.params :=
  {| Decoder.built := b;
     Decoder.e_offsets := cells [(0, 0); (1, 5); (2, 5)];
     Decoder.ne_offsets := cells [(0, 5); (1, 5); (2, 5)];
     Decoder.arc_ilabels := cells [(0, 1); (1, 1); (2, 1); (3, 1); (4, 1)];
     Decoder.arc_olabels := cells [(0, 1); (1, 2); (2, 3); (3, 4); (4, 5)];
     Decoder.arc_weights :=
       cells [(0, F32.make 1 (-2)); (1, F32.make 1 (-2));
              (2, F32.make 1 (-2)); (3, F32.make 1 (-2));
              (4, F32.make 1 (-2))];
     Decoder.arc_nextstates :=
       cells [(0, 1); (1, 1); (2, 1); (3, 1); (4, 1)];
     Decoder.loglikelihoods := cells [(0, F32.of_Z 0); (1, F32.of_Z 0)];
     Decoder.beam := F32.of_Z 2;
     Decoder.lattice_beam := F32.of_Z 1;
     Decoder.max_active := max_active0;
     Decoder.max_lat_arc_per_frame := max_arcs;
     Decoder.numArcs := 5;
     Decoder.frame := fr;
     Decoder.verbose := 0 |}.

(** The device memory as the constructor and the host side of
    [InitDecoding] leave it for a graph of three states, with vectors of
    [max_toks] token states; the cells that no one has initialised hold
    [junk]. *)
Definition fresh_lattice_processor (p : Decoder.params)
    : LatticeProcessor.t :=
  {| toks_bpr_d := ∅;
     toks_bpr_fr_sidx_d := zeros 8;
     toks_num_used := 0;
     toks_buf_before_pr_size := 64;
     arcs_bpr_d := ∅;
     arcs_bpr_fr_sidx_d := zeros 8;
     arcs_bpr_used_d := 0;
     arcs_buf_before_pr_size := 64;
     arcs_apr_d := ∅;
     arcs_apr_used_d := 0;
     arcs_apr_fr_size_d := zeros 8;
     modified_d := ∅;
     arc_ilabels := Decoder.arc_ilabels p;
     arc_olabels := Decoder.arc_olabels p;
     arc_weights := Decoder.arc_weights p |}.

Definition fresh (p : Decoder.params) (max_toks : Z) (junk : float)
    : Decoder.t :=
  Decoder._initialize_all_states 3
    {| Decoder.prev_toks :=
         mkTokenMergeVector (CudaVector.mk 0 max_toks ∅) (zeros max_toks);
       Decoder.cur_toks :=
         mkTokenMergeVector (CudaVector.mk 0 max_toks ∅) (zeros max_toks);
       Decoder.current_tokens_lookup := ∅;
       Decoder.cutoff := junk;
       Decoder.cutoff_prev := junk;
       Decoder.lat_arcs_count := 0;
       Decoder.lat_arcs_max_size := 64;
       Decoder.token_per_arc := ∅;
       Decoder.token_per_arc_update := zeros 16;
       Decoder.lattice_processor := fresh_lattice_processor p;
       Decoder.histogram_prev_toks := tt;
       Decoder.modified := ∅;
       Decoder.pe_idx := 0;
       Decoder.ne_idx := 0;
       Decoder.fb_idx := 0;
       Decoder.agg_idx := 0;
       Decoder.ne_queue := ∅;
       Decoder.num_arcs_till_last := 0 |}.

(** The kernels of [InitDecoding]: [_add_initial_token] for the start
    state 0, then [_process_tokens] for frame 0. *)
Definition init_decoding (p : Decoder.params) (st : Decoder.t)
    : option (outcome (nat * Decoder.t)) :=
  match Decoder._add_initial_token p st 0 with
  | Ret st1 => Decoder._process_tokens 11 p true st1
  | Trap e => Some (Trap e)
  end.

(** The memory after frame 0, or [st] when the kernels do not return. *)
Definition after_init (p : Decoder.params) (st : Decoder.t) : Decoder.t :=
  match init_decoding p st with
  | Some (Ret (_, st')) => st'
  | _ => st
  end.

(** The same lattice after the first token of frame 0 got cheaper by 2
    once the link had been recorded: the first link now has the extra
    cost -2. *)
Definition cheaper_source : t :=
  with_toks (<[0 := Token_new (F32.of_Z (-2)) 0 None]>
               (toks_bpr_d two_branches)) two_branches.

End Examples.

(** ** The host side of the lattice processor *)

Module LatticeProcessorHost.
Import LatticeProcessor.

(** [cudaMemset(a, 0, sizeof(int32) * n)]. *)
Definition memset0 (n : Z) (a : gmap Z Z) : gmap Z Z :=
  foldl (fun m i => <[i := 0]> m) a (seqZ 0 n).

(** [LatticeProcessor::Initialize]. *)
Definition Initialize (prune_interval : Z) (lp : t) : t :=
  let lp1 := with_arcs_apr_fr_size
               (memset0 (prune_interval + 2) (arcs_apr_fr_size_d lp)) lp in
  let lp2 := with_arcs_apr (arcs_apr_d lp1) 0 lp1 in
  let lp3 := with_arcs_bpr_used 0 lp2 in
  let lp4 := with_toks_sidx
               (memset0 (prune_interval + 2) (toks_bpr_fr_sidx_d lp3)) lp3 in
  let lp5 := with_arcs_sidx
               (memset0 (prune_interval + 2) (arcs_bpr_fr_sidx_d lp4)) lp4 in
  with_toks_num_used 0 lp5.

(** The sum of [arcs_apr_fr_size] over some frames, which the host needs
    to find the arcs of a frame in the output arena. *)
Definition frame_sizes (sizes : gmap Z Z) (frames : list Z) : Z :=
  foldr (fun f acc => default 0 (sizes !! f) + acc) 0 frames.

End LatticeProcessorHost.

(** ** The two sides of a vector *)

Module CudaVectorHost.

(** [cudaMemcpy] of the [n] first cells of [src] to [dst]; a cell that
    was never written is copied as such. *)
Definition memcpy {T : Type} (n : Z) (src dst : gmap Z T) : gmap Z T :=
  foldl (fun m i =>
           match src !! i with
           | Some x => <[i := x]> m
           | None => delete i m
           end)
        dst (seqZ 0 n).

(** A vector with its two sides: [count_d] and [mem_d] in [device],
    [count_h] and [mem_h] in [host]. *)
Record t (T : Type) : Type := mk {
  device : CudaVector.t T;
  count_h : Z;
  mem_h : gmap Z T
}.
Arguments mk {T} _ _ _.
Arguments device {T} _.
Arguments count_h {T} _.
Arguments mem_h {T} _.

(** [Size] and [operator[]] on the host. *)
Definition Size {T : Type} (v : t T) : Z := count_h v.

Definition get {T : Type} (v : t T) (idx : Z) : outcome T :=
  _ ← assert "idx < *count_h" (uint32 idx <? count_h v);
  load (mem_h v) (uint32 idx).

(** [PushBack] on the host. *)
Definition PushBack {T : Type} (v : t T) (val : T) : outcome (Z * t T) :=
  _ ← assert "*count_h < max_size"
        (count_h v <? CudaVector.max_size (device v));
  let idx := count_h v in
  mret (idx, mk (device v) (uint32 (count_h v + 1))
               (<[idx := val]> (mem_h v))).

(** [CopyAllToHost]. *)
Definition CopyAllToHost {T : Type} (v : t T) : t T :=
  let n := CudaVector.count_d (device v) in
  mk (device v) n (memcpy n (CudaVector.mem_d (device v)) (mem_h v)).

(** [CopyAllToDevice]. *)
Definition CopyAllToDevice {T : Type} (v : t T) : t T :=
  mk (CudaVector.mk (count_h v) (CudaVector.max_size (device v))
        (memcpy (count_h v) (mem_h v) (CudaVector.mem_d (device v))))
     (count_h v) (mem_h v).

(** [CopySizeToHost] and [CopySizeToDevice]. *)
Definition CopySizeToHost {T : Type} (v : t T) : t T :=
  mk (device v) (CudaVector.count_d (device v)) (mem_h v).

Definition CopySizeToDevice {T : Type} (v : t T) : t T :=
  mk (CudaVector.with_count (count_h v) (device v)) (count_h v) (mem_h v).

(** [CopyDataToHost] with [to_buf == NULL]. *)
Definition CopyDataToHost {T : Type} (copy_size : bool) (v : t T) : t T :=
  let n := if copy_size then CudaVector.count_d (device v) else count_h v in
  mk (device v) n (memcpy n (CudaVector.mem_d (device v)) (mem_h v)).

(** [CopyDataToDevice]. *)
Definition CopyDataToDevice {T : Type} (v : t T) : t T :=
  mk (CudaVector.with_mem
        (memcpy (count_h v) (mem_h v) (CudaVector.mem_d (device v)))
        (device v))
     (count_h v) (mem_h v).

End CudaVectorHost.

(** ** The host side of the decoder *)

Module CudaLatticeDecoder.
Section WithUtils.
Context `{DeviceUtils}.

Definition LAT_BUF_SIZE : Z := 2.

(** The members of [CudaLatticeDecoder] that name the vectors of token
    states: the two buffers, the count of the frames, and [cur_toks_] and
    [prev_toks_], which point into [lat_toks_bufs_] and are kept as
    indices. *)
Record t : Type := mk {
  lat_toks_bufs_ : list TokenMergeVector;
  num_frames_decoded_ : Z;
  cur_toks_ : Z;
  prev_toks_ : Z
}.

(** [UpdateTokPointersByFrame(uint32 frame)]: [frame - 1] is computed on
    [uint32]. *)
Definition UpdateTokPointersByFrame (frame : Z) (h : t) : t :=
  mk (lat_toks_bufs_ h) (num_frames_decoded_ h)
     (uint32 frame mod LAT_BUF_SIZE)
     (uint32 (uint32 frame - 1) mod LAT_BUF_SIZE).

(** [ClearToks], on the buffer of index [i]. *)
Definition ClearToks (i : Z) (h : t) : outcome t :=
  match lat_toks_bufs_ h !! Z.to_nat i with
  | Some toks =>
      mret (mk (<[Z.to_nat i :=
                   with_vector (CudaVector.Clear (vector toks)) toks]>
                  (lat_toks_bufs_ h))
              (num_frames_decoded_ h) (cur_toks_ h) (prev_toks_ h))
  | None => Trap NullPointer
  end.

(** [PreProcessTokens]. *)
Definition PreProcessTokens (h : t) : outcome t :=
  let h1 := mk (lat_toks_bufs_ h) (num_frames_decoded_ h + 1) (cur_toks_ h)
              (prev_toks_ h) in
  let h2 := UpdateTokPointersByFrame (num_frames_decoded_ h1) h1 in
  ClearToks (cur_toks_ h2) h2.

(** The first two assignments of [InitParams]: the kernels get
    [*prev_toks_] and [*cur_toks_]. *)
Definition InitParams (h : t) (st : Decoder.t) : outcome Decoder.t :=
  match lat_toks_bufs_ h !! Z.to_nat (prev_toks_ h),
        lat_toks_bufs_ h !! Z.to_nat (cur_toks_ h) with
  | Some prev, Some cur =>
      mret (Decoder.with_cur_toks cur (Decoder.with_prev_toks prev st))
  | _, _ => Trap NullPointer
  end.

End WithUtils.
End CudaLatticeDecoder.

(** * Properties *)

(** ** Tactics and basic facts *)

Ltac unfold_outcome :=
  unfold mbind, outcome_bind, mret, outcome_ret in *.

(** Case analysis on the first computation that a hypothesis of the form
    [... = Ret _] waits for. *)
Ltac step_outcome H :=
  match type of H with
  | context [match ?m with Ret _ => _ | Trap _ => _ end] =>
      let E := fresh "E" in
      destruct m eqn:E; simpl in H; [ | discriminate H ]
  end.

Lemma set_extra_cost_same (tok : Token) :
  set_extra_cost (extra_cost tok) tok = tok.
Proof. destruct tok; reflexivity. Qed.

Lemma returns_result_or {A : Type} (d : A) (m : outcome A) :
  returns m = true -> m = Ret (result_or d m).
Proof. destruct m; [reflexivity | discriminate]. Qed.

Lemma load_Ret {T : Type} (a : gmap Z T) (i : Z) (x : T) :
  load a i = Ret x <-> a !! i = Some x.
Proof.
  unfold load. destruct (a !! i); split; intros H; inversion H; reflexivity.
Qed.

Lemma for_each_app {S : Type} (body : S -> Z -> outcome S) (l1 l2 : list Z)
    (s : S) :
  for_each body (l1 ++ l2) s =
  match for_each body l1 s with
  | Ret s' => for_each body l2 s'
  | Trap e => Trap e
  end.
Proof.
  revert s. induction l1 as [|i l1 IH]; intros s; simpl; [reflexivity|].
  destruct (body s i); [apply IH | reflexivity].
Qed.

Lemma collect_ext {A B : Type} (f g : A -> outcome B) (l : list A) :
  (forall x, f x = g x) -> collect f l = collect g l.
Proof.
  intros E. induction l as [|x l IH]; simpl; [reflexivity|].
  rewrite E, IH. reflexivity.
Qed.

Lemma collect_length {A B : Type} (f : A -> outcome B) (l : list A)
    (r : list B) :
  collect f l = Ret r -> length r = length l.
Proof.
  revert r. induction l as [|x l IH]; intros r H; simpl in H.
  - inversion H. reflexivity.
  - destruct (f x); [|discriminate].
    destruct (collect f l); [|discriminate].
    inversion H. simpl. f_equal. apply IH. reflexivity.
Qed.

(** ** Pushes onto a full vector *)

Module CudaVectorFacts.
Import CudaVector.

Lemma uint32_small (z : Z) : 0 <= z < 2 ^ 32 -> uint32 z = z.
Proof. intros H. unfold uint32. apply Z.mod_small. exact H. Qed.

Lemma run_app {T : Type} (s1 s2 : list nat) (st : list (thread T) * t T) :
  run (s1 ++ s2) st = run s2 (run s1 st).
Proof. unfold run. apply foldl_app. Qed.

Section Round.
Context {T : Type}.
Variables (A B : nat -> thread T) (I : nat -> t T -> Prop) (n : nat).
Hypothesis Hstep : forall i v, (i < n)%nat -> I i v ->
  exists v', step (A i) v = (B i, v') /\ I (S i) v'.

(** A round over the first [k] threads, each of which is at [A] before
    its step and at [B] after it. *)
Lemma run_round (k : nat) :
  (k <= n)%nat ->
  forall (pool : list (thread T)) (v : t T),
  (forall i, (i < n)%nat -> pool !! i = Some (A i)) ->
  I 0%nat v ->
  exists pool' v',
    run (round k) (pool, v) = (pool', v') /\
    I k v' /\
    length pool' = length pool /\
    (forall i, (i < k)%nat -> pool' !! i = Some (B i)) /\
    (forall i, (k <= i)%nat -> pool' !! i = pool !! i).
Proof.
  induction k as [|k IH]; intros Hk pool v Hpool H0.
  - exists pool, v. split; [reflexivity|]. split; [exact H0|].
    split; [reflexivity|]. split; [intros i Hi; lia|].
    intros i _. reflexivity.
  - destruct (IH ltac:(lia) pool v Hpool H0)
      as (pool1 & v1 & Hrun & HI & Hlen & Hlt & Hge).
    destruct (Hstep k v1 ltac:(lia) HI) as (v2 & Hs & HI2).
    exists (<[k := B k]> pool1), v2.
    assert (Hk1 : pool1 !! k = Some (A k)).
    { rewrite Hge by lia. apply Hpool. lia. }
    split.
    { unfold round in *. rewrite seq_S, run_app, Hrun. simpl.
      unfold sched_step. simpl. rewrite Hk1, Hs. reflexivity. }
    split; [exact HI2|].
    split; [rewrite length_insert; exact Hlen|].
    split.
    + intros i Hi. destruct (decide (i = k)) as [->|Hne].
      * apply list_lookup_insert_eq. apply lookup_lt_Some in Hk1.
        exact Hk1.
      * rewrite list_lookup_insert_ne by congruence. apply Hlt. lia.
    + intros i Hi. rewrite list_lookup_insert_ne by lia.
      apply Hge. lia.
Qed.
End Round.

(** Built without [__DEBUG__], [PushBack] always returns: it hands out
    the old value of the counter, stores there, and only brings the
    counter back to [max_size - 1]. *)
Lemma PushBack_release {T : Type} (v : t T) (x : T) :
  exists v',
    PushBack Release v x = Ret (count_d v, v') /\
    mem_d v' = <[count_d v := x]> (mem_d v) /\
    max_size v' = max_size v /\
    count_d v' = if max_size v <=? uint32 (count_d v + 1)
                 then uint32 (max_size v - 1)
                 else uint32 (count_d v + 1).
Proof.
  unfold PushBack, fetch_add, clamp_count. simpl.
  destruct (max_size v <=? uint32 (count_d v + 1)); simpl;
    eexists; repeat split; reflexivity.
Qed.

(** The three steps of a thread that nothing interrupts are
    [PushBack]. *)
Lemma PushBack_steps {T : Type} (v : t T) (x : T) :
  exists idx v',
    run [0; 0; 0]%nat ([AtAdd x], v) = ([Returned idx], v') /\
    PushBack Release v x = Ret (idx, v').
Proof.
  unfold PushBack, fetch_add, clamp_count, run, sched_step. simpl.
  destruct (max_size v <=? uint32 (count_d v + 1)); simpl;
    eexists _, _; split; reflexivity.
Qed.

(** Pushes that do not overlap stay inside the allocation. *)
Lemma PushBack_release_alone {T : Type} (v v' : t T) (x : T) (idx : Z) :
  0 <= count_d v < max_size v -> max_size v <= 2 ^ 32 ->
  PushBack Release v x = Ret (idx, v') ->
  0 <= idx < max_size v /\ 0 <= count_d v' < max_size v'.
Proof.
  intros Hc Hm H.
  destruct (PushBack_release v x) as (v1 & H1 & _ & Hmax & Hcnt).
  rewrite H1 in H. inversion H; subst idx v1. split; [exact Hc|].
  rewrite Hmax, Hcnt.
  destruct (Z.eq_dec (count_d v + 1) (2 ^ 32)) as [E|E].
  - rewrite E. change (uint32 (2 ^ 32)) with 0.
    destruct (max_size v <=? 0) eqn:L; [apply Z.leb_le in L|]; lia.
  - rewrite (uint32_small (count_d v + 1)) by lia.
    destruct (max_size v <=? count_d v + 1) eqn:L.
    + rewrite uint32_small by lia. lia.
    + apply Z.leb_gt in L. lia.
Qed.

End CudaVectorFacts.

Section PushBackOverflow.
Import CudaVector CudaVectorFacts.
Context {T : Type}.

(** C9.  Built without [__DEBUG__], the device side of [PushBack] never
    fails: it takes its index from the counter before it looks at the
    capacity, brings only the counter back to [max_size - 1], stores the
    element at the index it took and returns this index.  When
    [max_size + 1] threads push onto an empty vector and each of them has
    done its [atomicAdd] before any of them goes on, the last thread stores
    at the cell [max_size], one past the last cell of the vector, and
    returns [max_size]. *)
Theorem PushBack_release_stores_past_the_end
    (val : nat -> T) (m : Z) (mem0 : gmap Z T) :
  0 <= m < 2 ^ 32 ->
  let n := S (Z.to_nat m) in
  (forall (v : t T) (x : T),
     exists v',
       PushBack Release v x = Ret (count_d v, v') /\
       mem_d v' = <[count_d v := x]> (mem_d v) /\
       max_size v' = max_size v /\
       count_d v' = if max_size v <=? uint32 (count_d v + 1)
                    then uint32 (max_size v - 1)
                    else uint32 (count_d v + 1)) /\
  exists pool' v',
    run (three_rounds n) (pushing (map val (seq 0 n)), mk 0 m mem0) =
      (pool', v') /\
    length pool' = n /\
    (forall i, (i < n)%nat -> pool' !! i = Some (Returned (Z.of_nat i))) /\
    pool' !! Z.to_nat m = Some (Returned m) /\
    mem_d v' !! m = Some (val (Z.to_nat m)) /\
    max_size v' = m.
Proof.
  intros Hm n. split; [intros v x; apply PushBack_release|].
  set (pool0 := pushing (map val (seq 0 n))).
  assert (Hlen0 : length pool0 = n).
  { unfold pool0, pushing. rewrite !length_map, length_seq. reflexivity. }
  assert (Hpool0 : forall i, (i < n)%nat -> pool0 !! i = Some (AtAdd (val i))).
  { intros i Hi. unfold pool0, pushing. rewrite !list_lookup_fmap.
    rewrite lookup_seq_lt by exact Hi. reflexivity. }
  (* every thread takes its index *)
  destruct (run_round (fun i => AtAdd (val i))
              (fun i => AtClamp (val i) (Z.of_nat i))
              (fun i v => count_d v = uint32 (Z.of_nat i) /\
                          max_size v = m /\ mem_d v = mem0) n) with
    (k := n) (pool := pool0) (v := mk 0 m mem0)
    as (pool1 & v1 & Hrun1 & (_ & Hmax1 & Hmem1) & Hlen1 & Hlt1 & _);
    [ | lia | exact Hpool0 | repeat split | ].
  { intros i v Hi (Hc & Hx & Hmm). simpl. unfold fetch_add.
    rewrite uint32_small in Hc by lia. rewrite Hc.
    eexists. split; [reflexivity|]. simpl.
    repeat split; [f_equal; lia | exact Hx | exact Hmm]. }
  (* every thread looks at the counter *)
  destruct (run_round (fun i => AtClamp (val i) (Z.of_nat i))
              (fun i => AtStore (val i) (Z.of_nat i))
              (fun i v => max_size v = m /\ mem_d v = mem0) n) with
    (k := n) (pool := pool1) (v := v1)
    as (pool2 & v2 & Hrun2 & (Hmax2 & Hmem2) & Hlen2 & Hlt2 & _);
    [ | lia | exact Hlt1 | split; assumption | ].
  { intros i v Hi (Hx & Hmm). simpl. eexists. split; [reflexivity|].
    unfold clamp_count. destruct (max_size v <=? count_d v); simpl;
      split; assumption. }
  (* every thread stores *)
  destruct (run_round (fun i => AtStore (val i) (Z.of_nat i))
              (fun i => Returned (Z.of_nat i))
              (fun i v => max_size v = m /\
                 forall j, (j < i)%nat ->
                   mem_d v !! Z.of_nat j = Some (val j)) n) with
    (k := n) (pool := pool2) (v := v2)
    as (pool3 & v3 & Hrun3 & (Hmax3 & Hmem3) & Hlen3 & Hlt3 & _);
    [ | lia | exact Hlt2 | split; [exact Hmax2 | intros j Hj; lia] | ].
  { intros i v Hi (Hx & Hmm). simpl. eexists. split; [reflexivity|].
    simpl. split; [exact Hx|]. intros j Hj.
    destruct (decide (j = i)) as [->|Hne].
    - apply lookup_insert_eq.
    - rewrite lookup_insert_ne by lia. apply Hmm. lia. }
  exists pool3, v3. split.
  { unfold three_rounds. rewrite !run_app. fold pool0.
    rewrite Hrun1, Hrun2. exact Hrun3. }
  split; [congruence|]. split; [exact Hlt3|].
  assert (Hlast : (Z.to_nat m < n)%nat) by (unfold n; lia).
  split; [rewrite (Hlt3 _ Hlast); f_equal; f_equal; lia|].
  split; [|exact Hmax3].
  rewrite <- (Hmem3 _ Hlast). f_equal. lia.
Qed.

End PushBackOverflow.

(** The theorem for a vector of two cells and three pushes. *)
Lemma PushBack_release_stores_past_the_end_witness :
  snd (CudaVector.run (CudaVector.three_rounds 3)
         (CudaVector.pushing [10; 11; 12],
          CudaVector.mk 0 2 (∅ : gmap Z Z))) =
    CudaVector.mk 1 2 (list_to_map [(0, 10); (1, 11); (2, 12)]) /\
  exists pool' v',
    CudaVector.run (CudaVector.three_rounds 3)
      (CudaVector.pushing [10; 11; 12], CudaVector.mk 0 2 ∅) =
      (pool', v') /\
    pool' !! 2%nat = Some (CudaVector.Returned 2) /\
    CudaVector.mem_d v' !! 2 = Some 12.
Proof.
  split; [vm_compute; reflexivity|].
  assert (H : 0 <= 2 < 2 ^ 32) by lia.
  destruct (PushBack_release_stores_past_the_end
              (fun i => 10 + Z.of_nat i) 2 ∅ H)
    as (_ & pool' & v' & Hrun & _ & _ & Hret & Hmem & _).
  exists pool', v'. split; [exact Hrun|]. split; [exact Hret|exact Hmem].
Defined.


Module LatticeProcessorFacts.
Import LatticeProcessor.

(** Two states of the processor that differ at most in the output arena
    and its counters. *)
Definition same_lattice (a b : t) : Prop :=
  toks_bpr_d a = toks_bpr_d b /\
  toks_bpr_fr_sidx_d a = toks_bpr_fr_sidx_d b /\
  toks_buf_before_pr_size a = toks_buf_before_pr_size b /\
  arcs_bpr_d a = arcs_bpr_d b /\
  arcs_bpr_fr_sidx_d a = arcs_bpr_fr_sidx_d b /\
  arcs_buf_before_pr_size a = arcs_buf_before_pr_size b /\
  arc_ilabels a = arc_ilabels b /\
  arc_olabels a = arc_olabels b /\
  arc_weights a = arc_weights b.

Lemma same_lattice_refl (a : t) : same_lattice a a.
Proof. repeat split. Qed.

Lemma same_lattice_trans (a b c : t) :
  same_lattice a b -> same_lattice b c -> same_lattice a c.
Proof.
  unfold same_lattice. intros H1 H2.
  destruct H1 as (?&?&?&?&?&?&?&?&?), H2 as (?&?&?&?&?&?&?&?&?).
  repeat split; congruence.
Qed.

Lemma link_extra_cost_same (a b : t) (fr tid : Z) :
  same_lattice a b -> link_extra_cost a fr tid = link_extra_cost b fr tid.
Proof.
  intros (H1&H2&H3&H4&H5&H6&H7&H8&H9).
  unfold link_extra_cost, extra_cost_of_link, GetActiveArc, GetActiveToken.
  rewrite H1, H2, H3, H4, H5, H6, H9. reflexivity.
Qed.

Lemma explode_same (a b : t) (fr : Z) (l : LatLinkCompact) :
  same_lattice a b -> explode a fr l = explode b fr l.
Proof.
  intros (H1&H2&H3&H4&H5&H6&H7&H8&H9).
  unfold explode. rewrite H7, H8, H9. reflexivity.
Qed.

Lemma AddArc_Ret (lp lp' : t) (l : LatLinkCompact) (fr : Z) :
  AddArc lp l fr = Ret lp' ->
  exists e, explode lp fr l = Ret e /\
    lp' = with_arcs_apr (<[arcs_apr_used_d lp := e]> (arcs_apr_d lp))
            (arcs_apr_used_d lp + 1) lp.
Proof.
  unfold AddArc. unfold_outcome. intros H.
  step_outcome H. step_outcome H. inversion H. eauto.
Qed.

(** The links of a frame that the final pass keeps, in the order of the
    frame. *)
Definition survivors (lattice_beam : float)
    (links : list (LatLinkCompact * Z * float)) : list LatLinkCompact :=
  map (fun r => fst (fst r))
      (filter (fun r => not_pruned lattice_beam (snd r) = true) links).

Lemma aggregate_for_each (lattice_beam : float) (fr : Z) (tids : list Z) :
  forall lp lp' : t,
  for_each (aggregate_link true lattice_beam fr) tids lp = Ret lp' ->
  exists links,
    collect (link_extra_cost lp fr) tids = Ret links /\
    same_lattice lp lp' /\
    arcs_apr_used_d lp' =
      arcs_apr_used_d lp + Z.of_nat (length (survivors lattice_beam links)) /\
    (forall i, i < arcs_apr_used_d lp ->
       arcs_apr_d lp' !! i = arcs_apr_d lp !! i) /\
    (forall (k : nat) (l : LatLinkCompact),
       survivors lattice_beam links !! k = Some l ->
       exists e, explode lp fr l = Ret e /\
         arcs_apr_d lp' !! (arcs_apr_used_d lp + Z.of_nat k) = Some e).
Proof.
  induction tids as [|tid tids IH]; intros lp lp' H; simpl in H.
  - inversion H; subst. exists []. simpl.
    split; [reflexivity|]. split; [apply same_lattice_refl|].
    split; [lia|]. split; [reflexivity|].
    intros k l Hk. unfold survivors in Hk. simpl in Hk. discriminate.
  - step_outcome H. rename a into lp1.
    unfold aggregate_link in E. unfold_outcome.
    destruct (link_extra_cost lp fr tid) as [[[link tok_i] x]|] eqn:EL;
      simpl in E; [|discriminate].
    destruct (IH _ _ H) as (links & HM & HS & HU & HB & HK).
    destruct (not_pruned lattice_beam x) eqn:EG.
    + apply AddArc_Ret in E. destruct E as (e & He & ->).
      assert (HS1 : same_lattice lp
                (with_arcs_apr (<[arcs_apr_used_d lp:=e]> (arcs_apr_d lp))
                   (arcs_apr_used_d lp + 1) lp)) by (repeat split).
      exists ((link, tok_i, x) :: links). simpl in *.
      rewrite EL.
      rewrite (collect_ext _ (link_extra_cost lp fr)) in HM.
      2:{ intros y. symmetry. apply link_extra_cost_same. exact HS1. }
      rewrite HM.
      split; [reflexivity|].
      split; [eapply same_lattice_trans; eassumption|].
      unfold survivors in *. rewrite filter_cons. simpl.
      destruct (decide (not_pruned lattice_beam x = true)) as [_|N];
        [|congruence]. simpl.
      split; [lia|]. split.
      * intros i Hi. rewrite HB by lia.
        apply lookup_insert_ne. lia.
      * intros [|k] l Hl; simpl in Hl.
        -- inversion Hl; subst l. exists e. split; [exact He|].
           rewrite Z.add_0_r. rewrite HB by lia. apply lookup_insert_eq.
        -- destruct (HK k l Hl) as (e' & He' & Hc).
           exists e'. split.
           ++ rewrite <- He'. apply explode_same. exact HS1.
           ++ rewrite <- Hc. f_equal. lia.
    + inversion E; subst lp1.
      exists ((link, tok_i, x) :: links). simpl.
      rewrite EL, HM.
      split; [reflexivity|]. split; [exact HS|].
      unfold survivors in *. rewrite filter_cons. simpl.
      destruct (decide (not_pruned lattice_beam x = true)) as [Y|_];
        [congruence|].
      repeat split; assumption.
Qed.

(** What [extra_cost_of_link] returns: the cell of the previous token,
    which lies in the frame before when the link is emitting and in the
    frame itself otherwise, and the extra cost of the link. *)
Lemma extra_cost_of_link_Ret (lp : t) (fr : Z) (link : LatLinkCompact)
    (tok_i : Z) (x : float) :
  extra_cost_of_link lp fr link = Ret (tok_i, x) ->
  exists next_i next_tok tok w,
    GetActiveToken lp fr (next_tok_id link) = Ret next_i /\
    GetActiveToken lp (if IsEmitArc link then fr - 1 else fr)
      (GetPrevTokId link) = Ret tok_i /\
    toks_bpr_d lp !! next_i = Some next_tok /\
    toks_bpr_d lp !! tok_i = Some tok /\
    arc_weights lp !! arc_id link = Some w /\
    x = F32.add (extra_cost next_tok)
          (F32.sub (F32.add (F32.add (cost_ tok) (acoustic_cost link)) w)
                   (cost_ next_tok)).
Proof.
  unfold extra_cost_of_link. unfold_outcome. intros H.
  destruct (GetActiveToken lp fr (next_tok_id link)) as [next_i|] eqn:E3;
    [|discriminate].
  destruct (GetActiveToken lp (if IsEmitArc link then fr - 1 else fr)
              (GetPrevTokId link)) as [ti|] eqn:E4; [|discriminate].
  destruct (load (toks_bpr_d lp) next_i) as [nt|] eqn:E5; [|discriminate].
  destruct (load (toks_bpr_d lp) ti) as [tk|] eqn:E6; [|discriminate].
  destruct (load (arc_weights lp) (arc_id link)) as [w|] eqn:E7;
    [|discriminate].
  inversion H; subst.
  apply load_Ret in E5, E6, E7.
  exists next_i, nt, tk, w. repeat split; assumption.
Qed.

Lemma link_extra_cost_Ret (lp : t) (fr tid : Z) (link : LatLinkCompact)
    (tok_i : Z) (x : float) :
  link_extra_cost lp fr tid = Ret (link, tok_i, x) ->
  exists link_i,
    GetActiveArc lp fr tid = Ret link_i /\
    arcs_bpr_d lp !! link_i = Some link /\
    extra_cost_of_link lp fr link = Ret (tok_i, x).
Proof.
  unfold link_extra_cost. unfold_outcome. intros H.
  destruct (GetActiveArc lp fr tid) as [link_i|] eqn:E1; [|discriminate].
  destruct (load (arcs_bpr_d lp) link_i) as [l|] eqn:E2; [|discriminate].
  destruct (extra_cost_of_link lp fr l) as [[ti y]|] eqn:E3;
    [|discriminate].
  inversion H; subst. apply load_Ret in E2. eauto.
Qed.

Lemma collect_link_extra_cost (lp : t) (fr : Z) (tids : list Z)
    (links : list (LatLinkCompact * Z * float)) :
  collect (link_extra_cost lp fr) tids = Ret links ->
  forall link tok_i x, In (link, tok_i, x) links ->
    extra_cost_of_link lp fr link = Ret (tok_i, x).
Proof.
  revert links. induction tids as [|tid tids IH]; intros links H; simpl in H.
  - inversion H. intros ? ? ? [].
  - destruct (link_extra_cost lp fr tid) as [[[l ti] y]|] eqn:E;
      [|discriminate].
    destruct (collect (link_extra_cost lp fr) tids) as [r|];
      [|discriminate].
    inversion H; subst links. intros link tok_i x [HI|HI].
    + inversion HI; subst.
      apply link_extra_cost_Ret in E. destruct E as (?&?&?&?). assumption.
    + eapply IH; [reflexivity | exact HI].
Qed.

(** A link of the frame is among the survivors exactly when its extra
    cost passes the test. *)
Lemma survivors_iff (lattice_beam : float) (lp : t) (fr : Z)
    (tids : list Z) (links : list (LatLinkCompact * Z * float))
    (link : LatLinkCompact) (tok_i : Z) (x : float) :
  collect (link_extra_cost lp fr) tids = Ret links ->
  In (link, tok_i, x) links ->
  In link (survivors lattice_beam links) <->
  not_pruned lattice_beam x = true.
Proof.
  intros HC HI. unfold survivors. rewrite in_map_iff. split.
  - intros ([[l ti] y] & Hl & Hin). simpl in Hl. subst l.
    apply list_elem_of_In, list_elem_of_filter in Hin.
    destruct Hin as [Hg Hin]. simpl in Hg.
    apply list_elem_of_In in Hin.
    pose proof (collect_link_extra_cost _ _ _ _ HC _ _ _ HI) as E1.
    pose proof (collect_link_extra_cost _ _ _ _ HC _ _ _ Hin) as E2.
    rewrite E1 in E2. inversion E2; subst. exact Hg.
  - intros Hg. exists (link, tok_i, x). split; [reflexivity|].
    apply list_elem_of_In, list_elem_of_filter. split; [exact Hg|].
    apply list_elem_of_In. exact HI.
Qed.

(** The update of one link: nothing changes when the link fails the test,
    and the only change otherwise is the minimum taken into the extra
    cost of the previous token, with the flag of the pass raised. *)
Lemma update_link_Ret (lattice_beam : float) (fr m0 : Z) (lp lp' : t)
    (tid : Z) (link : LatLinkCompact) (tok_i : Z) (x : float) :
  link_extra_cost lp fr tid = Ret (link, tok_i, x) ->
  update_link lattice_beam fr m0 lp tid = Ret lp' ->
  (not_pruned lattice_beam x = false -> lp' = lp) /\
  (not_pruned lattice_beam x = true ->
     exists tok, toks_bpr_d lp !! tok_i = Some tok /\
       toks_bpr_d lp' =
         <[tok_i := set_extra_cost
                      (atomic_min (extra_cost tok)
                         (debug_clamp lattice_beam x)) tok]>
           (toks_bpr_d lp)).
Proof.
  intros HL HU. unfold update_link in HU. rewrite HL in HU.
  unfold_outcome. simpl in HU.
  destruct (not_pruned lattice_beam x) eqn:EG.
  - split; [discriminate|]. intros _.
    destruct (load (toks_bpr_d lp) tok_i) as [tok|] eqn:ET; [|discriminate].
    apply load_Ret in ET. exists tok. split; [exact ET|].
    destruct (F32.ltb (debug_clamp lattice_beam x) (extra_cost tok))
      eqn:EM.
    + simpl in HU.
      destruct (load (modified_d lp) m0) as [flag|]; [|discriminate].
      destruct (flag =? 0); inversion HU; reflexivity.
    + inversion HU; subst lp'. unfold atomic_min. rewrite EM.
      rewrite set_extra_cost_same. symmetry. apply insert_id. exact ET.
  - split; [|discriminate]. intros _. inversion HU. reflexivity.
Qed.

End LatticeProcessorFacts.

Lemma collect_In {A B : Type} (f : A -> outcome B) (l : list A)
    (r : list B) (a : A) (y : B) :
  collect f l = Ret r -> In a l -> f a = Ret y -> In y r.
Proof.
  revert r. induction l as [|x l IH]; intros r H HI Hf; simpl in *.
  - destruct HI.
  - destruct (f x) as [y'|] eqn:E; [|discriminate].
    destruct (collect f l) as [ys|]; [|discriminate].
    inversion H; subst r. destruct HI as [->|HI].
    + rewrite Hf in E. inversion E. left. reflexivity.
    + right. apply IH; [reflexivity | exact HI | exact Hf].
Qed.

(** ** Back-pruning keeps the links within the lattice beam *)

Section BackPruning.
Import LatticeProcessor LatticeProcessorFacts.



(** ** A negative extra cost of a link *)

(** C8 (as amended).  A negative extra cost of a link does not end the
    kernel and no assertion looks at it: the update of the link returns.
    A cost below -1 that passes the test against the beam is replaced by
    [lattice_beam / 2] before the minimum is taken (and printed); a cost
    between -1 and 0 is used as it is. *)
Theorem negative_link_extra_cost_is_clamped
    (lattice_beam : float) (fr m0 tid : Z) (lp : t)
    (link : LatLinkCompact) (tok_i : Z) (x : float) :
  link_extra_cost lp fr tid = Ret (link, tok_i, x) ->
  is_Some (modified_d lp !! m0) ->
  F32.ltb x (F32.of_Z 0) = true ->
  exists lp' tok,
    update_link lattice_beam fr m0 lp tid = Ret lp' /\
    toks_bpr_d lp !! tok_i = Some tok /\
    (not_pruned lattice_beam x = true ->
       toks_bpr_d lp' !! tok_i =
         Some (set_extra_cost
                 (atomic_min (extra_cost tok)
                    (if F32.ltb x (F32.of_Z (-1))
                     then F32.div lattice_beam (F32.of_Z 2)
                     else x)) tok)) /\
    (not_pruned lattice_beam x = false -> lp' = lp).
Proof.
  intros HL [flag Hflag] _.
  destruct (link_extra_cost_Ret _ _ _ _ _ _ HL) as (link_i & _ & _ & HE).
  destruct (extra_cost_of_link_Ret _ _ _ _ _ HE)
    as (next_i & next_tok & tok & w & _ & _ & _ & Htok & _ & _).
  assert (Hret : exists lp', update_link lattice_beam fr m0 lp tid = Ret lp').
  { unfold update_link. rewrite HL. unfold_outcome. simpl.
    destruct (not_pruned lattice_beam x); [|eauto].
    apply load_Ret in Htok. rewrite Htok.
    destruct (F32.ltb (debug_clamp lattice_beam x) (extra_cost tok));
      [|eauto].
    simpl. apply load_Ret in Hflag. rewrite Hflag.
    destruct (flag =? 0); eauto. }
  destruct Hret as [lp' Hret]. exists lp', tok.
  split; [exact Hret|]. split; [exact Htok|].
  destruct (update_link_Ret _ _ _ _ _ _ _ _ _ HL Hret) as [Hno Hyes].
  split; [|exact Hno].
  intros G. destruct (Hyes G) as (tok' & Ht & Heq).
  rewrite Htok in Ht. inversion Ht; subst tok'.
  rewrite Heq. apply lookup_insert_eq.
Qed.

(** The theorem at the first link of [Examples.cheaper_source], whose extra
    cost is -2, once the tokens of frame 0 hold [FLT_MAX]: with the beam 1
    the previous token gets the extra cost 0.5. *)
Lemma negative_link_extra_cost_is_clamped_witness :
  let beam := F32.of_Z 1 in
  let lp := snd (result_or (0, Examples.cheaper_source)
                   (prune_init 1 Examples.cheaper_source)) in
  link_extra_cost lp 1 0 =
    Ret (mkLatLinkCompact 0 0 0 1 (F32.of_Z 0) 0, 0, F32.of_Z (-2)) /\
  exists lp',
    update_link beam 1 1 lp 0 = Ret lp' /\
    extra_cost <$> toks_bpr_d lp' !! 0 = Some (F32.make 1 (-1)).
Proof.
  intros beam lp.
  assert (H1 : link_extra_cost lp 1 0 =
               Ret (mkLatLinkCompact 0 0 0 1 (F32.of_Z 0) 0, 0,
                    F32.of_Z (-2)))
    by (vm_compute; reflexivity).
  assert (H2 : is_Some (modified_d lp !! 1))
    by (exists 0; vm_compute; reflexivity).
  assert (H3 : F32.ltb (F32.of_Z (-2)) (F32.of_Z 0) = true)
    by (vm_compute; reflexivity).
  split; [exact H1|].
  destruct (negative_link_extra_cost_is_clamped beam 1 1 0 lp _ _ _
              H1 H2 H3) as (lp' & tok & HU & Htok & Hyes & _).
  exists lp'. split; [exact HU|].
  rewrite Hyes by (vm_compute; reflexivity).
  assert (Et : tok = mkToken (F32.of_Z (-2)) 0 F32.FLT_MAX 0).
  { assert (Hc : toks_bpr_d lp !! 0 =
                 Some (mkToken (F32.of_Z (-2)) 0 F32.FLT_MAX 0))
      by (vm_compute; reflexivity).
    rewrite Hc in Htok. inversion Htok. reflexivity. }
  rewrite Et. vm_compute. reflexivity.
Defined.

(** C8 (as stated) fails: the first link of [Examples.cheaper_source] has
    the extra cost -2, and back-pruning of frame 1 with the beam 1 runs to
    its end; the link is kept and its previous token ends with the extra
    cost 0.5. *)
Lemma negative_link_extra_cost_counterexample :
  let beam := F32.of_Z 1 in
  let lp := Examples.cheaper_source in
  (exists prev_cidx lp1,
     prune_init 1 lp = Ret (prev_cidx, lp1) /\
     link_extra_cost lp1 1 0 =
       Ret (mkLatLinkCompact 0 0 0 1 (F32.of_Z 0) 0, 0, F32.of_Z (-2)) /\
     F32.ltb (F32.of_Z (-2)) (F32.of_Z 0) = true) /\
  exists n lp',
    PruneLatticeForFrame 11 1 true beam lp = Some (Ret (n, lp')) /\
    extra_cost <$> toks_bpr_d lp' !! 0 = Some (F32.make 1 (-1)) /\
    arcs_apr_used_d lp' = 1.
Proof.
  split.
  - eexists _, _. split; [vm_compute; reflexivity|].
    split; vm_compute; reflexivity.
  - eexists _, _. split; [vm_compute; reflexivity|].
    split; vm_compute; reflexivity.
Qed.

(** ** The extra cost of a token *)

Lemma land_index (tid : Z) :
  0 <= tid < 2 ^ 31 -> Z.land tid (Z.shiftl 1 31 - 1) = tid.
Proof.
  intros H. change (Z.shiftl 1 31 - 1) with (Z.ones 31).
  rewrite Z.land_ones by lia. apply Z.mod_small. exact H.
Qed.

Lemma init_token_Ret (fr : Z) (lp lp' : t) (tid sidx : Z) :
  toks_bpr_fr_sidx_d lp !! (fr - 1) = Some sidx ->
  0 <= tid < 2 ^ 31 ->
  init_token fr lp tid = Ret lp' ->
  exists tok,
    toks_bpr_d lp !! (sidx + tid) = Some tok /\
    lp' = with_toks (<[sidx + tid := set_extra_cost F32.FLT_MAX tok]>
                       (toks_bpr_d lp)) lp.
Proof.
  intros Hs Ht H. unfold init_token, GetActiveToken in H.
  apply load_Ret in Hs. rewrite Hs in H. unfold_outcome. simpl in H.
  rewrite land_index in H by exact Ht.
  destruct (assert _ _); [|discriminate]. simpl in H.
  destruct (load (toks_bpr_d lp) (sidx + tid)) as [tok|] eqn:E;
    [|discriminate].
  inversion H. apply load_Ret in E. eauto.
Qed.

Lemma init_tokens_for_each (fr sidx : Z) (tids : list Z) :
  forall lp lp' : t,
  toks_bpr_fr_sidx_d lp !! (fr - 1) = Some sidx ->
  (forall tid, In tid tids -> 0 <= tid < 2 ^ 31) ->
  for_each (init_token fr) tids lp = Ret lp' ->
  forall c,
    (In (c - sidx) tids ->
       exists tok, toks_bpr_d lp !! c = Some tok /\
         toks_bpr_d lp' !! c = Some (set_extra_cost F32.FLT_MAX tok)) /\
    (~ In (c - sidx) tids -> toks_bpr_d lp' !! c = toks_bpr_d lp !! c).
Proof.
  induction tids as [|tid tids IH]; intros lp lp' Hs Hr H c; simpl in H.
  - inversion H; subst. split; [intros []|reflexivity].
  - destruct (init_token fr lp tid) as [lp1|] eqn:E; [|discriminate].
    destruct (init_token_Ret _ _ _ _ _ Hs (Hr tid (or_introl eq_refl)) E)
      as (tok & Htok & ->).
    pose proof (fun Hs' => IH _ lp' Hs' (fun t0 Ht => Hr t0 (or_intror Ht))
                             H c) as IH'.
    specialize (IH' Hs). simpl in IH'. destruct IH' as [IHin IHout].
    destruct (decide (c = sidx + tid)) as [->|Hne].
    + split; [intros _|intros N; exfalso; apply N; left; lia].
      destruct (in_dec Z.eq_dec (sidx + tid - sidx) tids) as [Hin|Hout].
      * destruct (IHin Hin) as (tok' & Ht' & Hl).
        rewrite lookup_insert_eq in Ht'. inversion Ht'; subst tok'.
        exists tok. split; [exact Htok|]. rewrite Hl.
        destruct tok; reflexivity.
      * exists tok. split; [exact Htok|].
        rewrite (IHout Hout). apply lookup_insert_eq.
    + rewrite lookup_insert_ne in IHin, IHout by congruence. split.
      * intros [Heq|Hin]; [exfalso; apply Hne; lia | exact (IHin Hin)].
      * intros N. apply IHout. intros Hin. apply N. right. exact Hin.
Qed.

(** C6 (as amended).  The constructor of a token sets its extra cost to 0.
    Back-pruning of the frame [fr] starts with [FLT_MAX], a finite number
    below +infinity, in the extra cost of every token of frame [fr - 1],
    and the update of a link afterwards leaves the extra cost of every
    token as it is or makes it smaller; the cost of a token never
    changes. *)
Theorem token_extra_cost_lifecycle
    (fr sidx size tid prev_cidx : Z) (lp lp1 : t) :
  toks_bpr_fr_sidx_d lp !! (fr - 1) = Some sidx ->
  GetSize lp (toks_bpr_fr_sidx_d lp) (fr - 1) = Ret size ->
  size <= 2 ^ 31 ->
  0 <= tid < size ->
  prune_init fr lp = Ret (prev_cidx, lp1) ->
  (forall cost f prev, extra_cost (Token_new cost f prev) = F32.of_Z 0) /\
  (exists tok,
     toks_bpr_d lp !! (sidx + tid) = Some tok /\
     toks_bpr_d lp1 !! (sidx + tid) =
       Some (set_extra_cost F32.FLT_MAX tok)) /\
  F32.ltb F32.FLT_MAX F32.INFINITY = true /\
  (forall lattice_beam m0 i (st st' : t) c tok',
     update_link lattice_beam fr m0 st i = Ret st' ->
     toks_bpr_d st' !! c = Some tok' ->
     exists tok,
       toks_bpr_d st !! c = Some tok /\
       cost_ tok' = cost_ tok /\
       (extra_cost tok' = extra_cost tok \/
        F32.ltb (extra_cost tok') (extra_cost tok) = true)).
Proof.
  intros Hs Hsize Hbound Htid Hinit.
  split; [reflexivity|]. split; [|split; [reflexivity|]].
  - unfold prune_init in Hinit. rewrite Hsize in Hinit.
    unfold_outcome. simpl in Hinit.
    destruct (grid_stride_loop (init_token fr) size lp) as [lp0|] eqn:E;
      [|discriminate].
    simpl in Hinit. inversion Hinit; subst. simpl.
    unfold grid_stride_loop in E.
    assert (Hr : forall t0, In t0 (seqZ 0 size) -> 0 <= t0 < 2 ^ 31).
    { intros t0 Ht0. apply list_elem_of_In, elem_of_seqZ in Ht0. lia. }
    destruct (init_tokens_for_each _ _ _ _ _ Hs Hr E (sidx + tid))
      as [Hin _].
    apply Hin. apply list_elem_of_In, elem_of_seqZ. lia.
  - intros lattice_beam m0 i st st' c tok' HU Hc.
    unfold update_link in HU. unfold_outcome.
    destruct (link_extra_cost st fr i) as [[[link tok_i] x]|] eqn:EL;
      simpl in HU; [|discriminate].
    assert (Hsame : st' = st ->
              exists tok, toks_bpr_d st !! c = Some tok /\
                cost_ tok' = cost_ tok /\
                (extra_cost tok' = extra_cost tok \/
                 F32.ltb (extra_cost tok') (extra_cost tok) = true)).
    { intros ->. exists tok'. repeat split; [exact Hc | left; reflexivity]. }
    destruct (not_pruned lattice_beam x);
      [|apply Hsame; congruence].
    destruct (load (toks_bpr_d st) tok_i) as [tok|] eqn:ET; [|discriminate].
    apply load_Ret in ET. simpl in HU.
    destruct (F32.ltb (debug_clamp lattice_beam x) (extra_cost tok)) eqn:EM;
      [|apply Hsame; congruence].
    simpl in HU.
    assert (Ht : toks_bpr_d st' =
                 <[tok_i := set_extra_cost
                              (atomic_min (extra_cost tok)
                                 (debug_clamp lattice_beam x)) tok]>
                   (toks_bpr_d st)).
    { destruct (load (modified_d st) m0) as [flag|]; [|discriminate].
      destruct (flag =? 0); inversion HU; reflexivity. }
    rewrite Ht in Hc. destruct (decide (c = tok_i)) as [->|Hne].
    + rewrite lookup_insert_eq in Hc. inversion Hc; subst tok'.
      exists tok. split; [exact ET|]. split; [reflexivity|].
      right. simpl. unfold atomic_min. rewrite EM. exact EM.
    + rewrite lookup_insert_ne in Hc by congruence.
      exists tok'. repeat split; [exact Hc | left; reflexivity].
Qed.

(** The theorem at [Examples.two_branches]: the first token of frame 0
    starts back-pruning of frame 1 with [FLT_MAX]. *)
Lemma token_extra_cost_lifecycle_witness :
  let lp := Examples.two_branches in
  let r := result_or (0, lp) (prune_init 1 lp) in
  prune_init 1 lp = Ret r /\
  extra_cost <$> toks_bpr_d lp !! 0 = Some (F32.of_Z 0) /\
  extra_cost <$> toks_bpr_d (snd r) !! 0 = Some F32.FLT_MAX.
Proof.
  intros lp r.
  assert (H1 : toks_bpr_fr_sidx_d lp !! (1 - 1) = Some 0)
    by (vm_compute; reflexivity).
  assert (H2 : GetSize lp (toks_bpr_fr_sidx_d lp) (1 - 1) = Ret 2)
    by (vm_compute; reflexivity).
  assert (H3 : 2 <= 2 ^ 31) by lia.
  assert (H4 : 0 <= 0 < 2) by lia.
  assert (H5 : prune_init 1 lp = Ret (fst r, snd r))
    by (vm_compute; reflexivity).
  split; [vm_compute; reflexivity|].
  split; [vm_compute; reflexivity|].
  destruct (token_extra_cost_lifecycle 1 0 2 0 (fst r) lp (snd r)
              H1 H2 H3 H4 H5) as (_ & (tok & Ha & Hb) & _).
  change (0 + 0) with 0 in Hb. rewrite Hb. reflexivity.
Defined.

(** C6 (as stated) fails: the start token, built by [Token(0, NULL)], is
    created with the extra cost 0, which is not +infinity. *)
Lemma token_extra_cost_counterexample :
  extra_cost (Token_new (F32.of_Z 0) 0 None) = F32.zero /\
  extra_cost (Token_new (F32.of_Z 0) 0 None) <> F32.INFINITY /\
  F32.eqb (extra_cost (Token_new (F32.of_Z 0) 0 None)) F32.INFINITY = false.
Proof.
  split; [reflexivity|]. split; [discriminate|reflexivity].
Qed.

End BackPruning.

(** ** The second pass of the recombination *)

Module DecoderFacts.
Section WithUtils.
Context `{DeviceUtils}.
Import Decoder.

(** What one trip of the loop of [StoreDataByPackIdx] does. *)
Lemma store_slot_Ret (p : params) (st st' : t) (tid : Z) :
  store_slot p st tid = Ret st' ->
  exists ts flag,
    CudaVector.mem_d (vector (cur_toks st)) !! tid = Some ts /\
    token_per_arc_update st !! unpack_idx_from_uint64 (token_pack ts) =
      Some flag /\
    vector (cur_toks st') = vector (cur_toks st) /\
    mem_update_d (cur_toks st') =
      <[tid := flag]> (mem_update_d (cur_toks st)) /\
    token_per_arc st' = token_per_arc st /\
    LatticeProcessor.toks_buf_before_pr_size (lattice_processor st') =
      LatticeProcessor.toks_buf_before_pr_size (lattice_processor st) /\
    (flag = 0 ->
       token_per_arc_update st' = token_per_arc_update st /\
       lattice_processor st' = lattice_processor st) /\
    (flag <> 0 ->
       token_per_arc_update st' =
         <[unpack_idx_from_uint64 (token_pack ts) := 0]>
           (token_per_arc_update st) /\
       exists tok to_tok,
         token_per_arc st !! unpack_idx_from_uint64 (token_pack ts) =
           Some tok /\
         LatticeProcessor.GetTokenByExactIdx (built p)
           (lattice_processor st) (tok_idx_allocated ts) = Ret to_tok /\
         LatticeProcessor.toks_bpr_d (lattice_processor st') =
           <[to_tok := tok]>
             (LatticeProcessor.toks_bpr_d (lattice_processor st))).
Proof.
  unfold store_slot. unfold_outcome. intros HS.
  destruct (load (CudaVector.mem_d (vector (cur_toks st))) tid)
    as [ts|] eqn:E1; [|discriminate].
  destruct (assert _ _) as [[]|]; [|discriminate]. simpl in HS.
  destruct (load (token_per_arc_update st)
              (unpack_idx_from_uint64 (token_pack ts)))
    as [flag|] eqn:E2; [|discriminate].
  apply load_Ret in E1, E2. exists ts, flag.
  split; [exact E1|]. split; [exact E2|].
  destruct (flag =? 0) eqn:EF.
  - apply Z.eqb_eq in EF. inversion HS; subst st'. simpl.
    repeat (split; [reflexivity|]). split.
    + intros _. split; reflexivity.
    + intros N. contradiction.
  - apply Z.eqb_neq in EF. simpl in HS.
    destruct (load (token_per_arc st)
                (unpack_idx_from_uint64 (token_pack ts)))
      as [tok|] eqn:E3; [|discriminate].
    destruct (LatticeProcessor.GetTokenByExactIdx (built p)
                (lattice_processor st) (tok_idx_allocated ts))
      as [to_tok|] eqn:E4; [|discriminate].
    inversion HS; subst st'. simpl.
    repeat (split; [reflexivity|]). split.
    + intros Z0. contradiction.
    + intros _. split; [reflexivity|].
      apply load_Ret in E3. exists tok, to_tok.
      split; [exact E3|]. split; reflexivity.
Qed.

Lemma store_slots_frame (p : params) (tids : list Z) :
  forall st st' : t,
  for_each (store_slot p) tids st = Ret st' ->
  vector (cur_toks st') = vector (cur_toks st) /\
  forall j, ~ In j tids ->
    mem_update_d (cur_toks st') !! j = mem_update_d (cur_toks st) !! j.
Proof.
  induction tids as [|tid tids IH]; intros st st' HF; simpl in HF.
  - inversion HF. split; reflexivity.
  - destruct (store_slot p st tid) as [st1|] eqn:E; [|discriminate].
    destruct (store_slot_Ret _ _ _ _ E)
      as (ts & flag & _ & _ & Hv & Hu & _).
    destruct (IH _ _ HF) as [Hv' Hu']. split; [congruence|].
    intros j Hj. rewrite Hu' by (intros Hin; apply Hj; right; exact Hin).
    rewrite Hu. apply lookup_insert_ne. intros ->. apply Hj. left.
    reflexivity.
Qed.

End WithUtils.
End DecoderFacts.

Lemma for_each_snoc {S : Type} (body : S -> Z -> outcome S) (l : list Z)
    (i : Z) (s : S) :
  for_each body (l ++ [i]) s =
  match for_each body l s with
  | Ret s' => body s' i
  | Trap e => Trap e
  end.
Proof.
  rewrite for_each_app. destruct (for_each body l s); [|reflexivity].
  simpl. destruct (body a i); reflexivity.
Qed.

Lemma seqZ_snoc (i : Z) : 0 <= i -> seqZ 0 (i + 1) = seqZ 0 i ++ [i].
Proof.
  intros Hi. rewrite seqZ_app by lia. f_equal.
Qed.

Section SecondPass.
Context `{DeviceUtils}.
Import Decoder DecoderFacts.

(** C2.  The second pass of the recombination, [StoreDataByPackIdx] on
    [cur_toks], at the slot [i] below the size of the vector; [s_i] is the
    memory when the loop reaches the slot and [s_i1] the memory when it
    leaves it.  The index [k] of the arc slot is decoded from the pack of
    the slot.  When [token_per_arc_update[k]] is set, [token_per_arc[k]] is
    copied to the token of the pool bound to the slot, the flag is recorded
    in [mem_update_d[i]] and [token_per_arc_update[k]] is cleared;
    otherwise [mem_update_d[i]] records 0 and the pool is left as it is.
    What the slot records is still there when the loop ends. *)
Theorem store_by_pack_second_pass
    (p : params) (st s_i s_i1 s_f : t) (i : Z) :
  0 <= i < CudaVector.count_d (vector (cur_toks st)) ->
  StoreDataByPackIdx_upto p i st = Ret s_i ->
  StoreDataByPackIdx_upto p (i + 1) st = Ret s_i1 ->
  StoreDataByPackIdx p st = Ret s_f ->
  exists ts flag,
    CudaVector.mem_d (vector (cur_toks st)) !! i = Some ts /\
    token_per_arc_update s_i !! unpack_idx_from_uint64 (token_pack ts) =
      Some flag /\
    mem_update_d (cur_toks s_i1) !! i = Some flag /\
    mem_update_d (cur_toks s_f) !! i = Some flag /\
    (flag <> 0 ->
       exists tok to_tok,
         token_per_arc s_i !! unpack_idx_from_uint64 (token_pack ts) =
           Some tok /\
         LatticeProcessor.GetTokenByExactIdx (built p)
           (lattice_processor s_i) (tok_idx_allocated ts) = Ret to_tok /\
         LatticeProcessor.toks_bpr_d (lattice_processor s_i1) =
           <[to_tok := tok]>
             (LatticeProcessor.toks_bpr_d (lattice_processor s_i)) /\
         token_per_arc_update s_i1 =
           <[unpack_idx_from_uint64 (token_pack ts) := 0]>
             (token_per_arc_update s_i)) /\
    (flag = 0 ->
       lattice_processor s_i1 = lattice_processor s_i /\
       token_per_arc_update s_i1 = token_per_arc_update s_i).
Proof.
  intros Hi Hpre Hnext Hfull.
  unfold StoreDataByPackIdx_upto in *.
  rewrite seqZ_snoc, for_each_snoc, Hpre in Hnext by lia.
  destruct (store_slots_frame _ _ _ _ Hpre) as [Hv _].
  destruct (store_slot_Ret _ _ _ _ Hnext)
    as (ts & flag & Hts & Hflag & Hv1 & Hu & _ & _ & Hzero & Hset).
  rewrite Hv in Hts. exists ts, flag.
  split; [exact Hts|]. split; [exact Hflag|].
  assert (Hrec : mem_update_d (cur_toks s_i1) !! i = Some flag).
  { rewrite Hu. apply lookup_insert_eq. }
  split; [exact Hrec|]. split.
  - unfold StoreDataByPackIdx, grid_stride_loop in Hfull.
    replace (CudaVector.count_d (vector (cur_toks st)))
      with ((i + 1) + (CudaVector.count_d (vector (cur_toks st)) - (i + 1)))
      in Hfull by lia.
    rewrite seqZ_app, for_each_app in Hfull by lia.
    rewrite seqZ_snoc, for_each_snoc, Hpre, Hnext in Hfull by lia.
    destruct (store_slots_frame _ _ _ _ Hfull) as [_ Hkeep].
    rewrite Hkeep; [exact Hrec|].
    intros Hin. apply list_elem_of_In, elem_of_seqZ in Hin. lia.
  - split.
    + intros Hne. destruct (Hset Hne) as (Hclr & tok & to_tok & Ht & Hg & Hp).
      exists tok, to_tok. repeat split; assumption.
    + intros Hz. destruct (Hzero Hz) as [Hu0 Hl]. split; assumption.
Qed.

End SecondPass.

(** The theorem at the start token of an utterance, just before
    [_add_initial_token] calls [StoreDataByPackIdx]: the only slot has the
    pack of the arc slot 0, whose flag is set, and the start token lands in
    the cell 0 of the pool. *)
Lemma store_by_pack_second_pass_witness :
  let p := Examples.recombination_graph Release 0 100 16 in
  let st0 := Examples.fresh p 8 (F32.of_Z 0) in
  let st := result_or st0 (Decoder.add_initial_token_begin p st0 0) in
  let s_f := result_or st (Decoder.StoreDataByPackIdx p st) in
  Decoder.add_initial_token_begin p st0 0 = Ret st /\
  Decoder.StoreDataByPackIdx p st = Ret s_f /\
  mem_update_d (Decoder.cur_toks s_f) !! 0 = Some 1 /\
  Decoder.token_per_arc_update st !! 0 = Some 1 /\
  Decoder.token_per_arc_update s_f !! 0 = Some 0 /\
  LatticeProcessor.toks_bpr_d (Decoder.lattice_processor s_f) !! 0 =
    Some (Token_new (F32.of_Z 0) 0 None).
Proof.
  intros p st0 st s_f.
  assert (H0 : 0 <= 0 < CudaVector.count_d (vector (Decoder.cur_toks st)))
    by (vm_compute; split; [discriminate | reflexivity]).
  assert (H1 : Decoder.StoreDataByPackIdx_upto p 0 st = Ret st)
    by reflexivity.
  assert (H3 : Decoder.StoreDataByPackIdx p st = Ret s_f)
    by (apply returns_result_or; vm_compute; reflexivity).
  assert (H2 : Decoder.StoreDataByPackIdx_upto p (0 + 1) st = Ret s_f)
    by exact H3.
  split; [apply returns_result_or; vm_compute; reflexivity|].
  split; [exact H3|].
  destruct (store_by_pack_second_pass p st st s_f s_f 0 H0 H1 H2 H3)
    as (ts & flag & Hts & Hflag & _ & Hrec & Hset & _).
  assert (Et : ts = mkTokenState 0 0 (2 ^ 63)).
  { assert (Hc : CudaVector.mem_d (vector (Decoder.cur_toks st)) !! 0 =
                 Some (mkTokenState 0 0 (2 ^ 63)))
      by (vm_compute; reflexivity).
    rewrite Hc in Hts. inversion Hts. reflexivity. }
  subst ts.
  assert (Ef : flag = 1).
  { assert (Hc : Decoder.token_per_arc_update st !! 0 = Some 1)
      by (vm_compute; reflexivity).
    change (unpack_idx_from_uint64 (token_pack (mkTokenState 0 0 (2 ^ 63))))
      with 0 in Hflag.
    rewrite Hc in Hflag. inversion Hflag. reflexivity. }
  subst flag.
  split; [exact Hrec|]. split; [vm_compute; reflexivity|].
  destruct (Hset ltac:(discriminate)) as (tok & to_tok & Ht & Hg & Hp & Hu).
  change (unpack_idx_from_uint64 (token_pack (mkTokenState 0 0 (2 ^ 63))))
    with 0 in Ht, Hu.
  split; [rewrite Hu; apply lookup_insert_eq|].
  assert (Eg : to_tok = 0).
  { assert (Hc : LatticeProcessor.GetTokenByExactIdx (Decoder.built p)
                   (Decoder.lattice_processor st) 0 = Ret 0)
      by (vm_compute; reflexivity).
    simpl tok_idx_allocated in Hg. rewrite Hc in Hg. inversion Hg.
    reflexivity. }
  subst to_tok. rewrite Hp, lookup_insert_eq.
  assert (Hc : Decoder.token_per_arc st !! 0 =
               Some (Token_new (F32.of_Z 0) 0 None))
    by (vm_compute; reflexivity).
  rewrite Hc in Ht. inversion Ht. reflexivity.
Defined.

(** ** The two loops that look for a fixed point *)

Lemma update_loop_returns (lattice_beam : float) (fr : Z) (fuel : nat) :
  forall (cnt : Z) (lp : LatticeProcessor.t),
  0 <= cnt ->
  (Z.to_nat (10 - cnt) < fuel)%nat ->
  exists r,
    LatticeProcessor.update_loop fuel lattice_beam fr cnt lp = Some r /\
    forall n lp', r = Ret (n, lp') -> (n <= Z.to_nat (10 - cnt))%nat.
Proof.
  induction fuel as [|fuel IH]; intros cnt lp Hc Hf; [lia|].
  simpl. unfold LatticeProcessor.update_loop_test.
  destruct (cnt <? 10) eqn:E.
  - apply Z.ltb_lt in E. unfold_outcome.
    destruct (LatticeProcessor.UpdateModifiedFlags cnt) as [[m0 m1] m2].
    destruct (load (LatticeProcessor.modified_d lp) m0) as [flag|e];
      simpl; [|eexists; split; [reflexivity | discriminate]].
    destruct (negb (flag =? 0)).
    + destruct (LatticeProcessor.update_pass lattice_beam fr (cnt + 1) lp)
        as [lp1|e]; [|eexists; split; [reflexivity | discriminate]].
      destruct (IH (cnt + 1) lp1 ltac:(lia) ltac:(lia)) as (r & Hr & Hn).
      rewrite Hr. destruct r as [[n lp2]|e].
      * eexists. split; [reflexivity|]. intros n' lp' Heq.
        inversion Heq; subst. specialize (Hn n lp' eq_refl). lia.
      * eexists. split; [reflexivity | discriminate].
    + eexists. split; [reflexivity|]. intros n lp' Heq.
      inversion Heq. lia.
  - eexists. split; [reflexivity|]. intros n lp' Heq. inversion Heq. lia.
Qed.

(** *** A kernel that ends

    The one statement of the kernels that can run for ever is the
    [while] of [_find_or_add_token_arc], which waits for a slot of the
    lookup table to leave the marks [LOOKUP_DEACTIVE] and
    [LOOKUP_READY_PUSH].  A computation ends when it returns or stops on
    a failed assertion or an invalid access: when it is not this wait. *)
Definition no_spin {A : Type} (m : outcome A) : Prop :=
  m <> Trap SpinsForever.

Lemma no_spin_Ret {A : Type} (a : A) : no_spin (Ret a).
Proof. discriminate. Qed.

Lemma no_spin_assert (cond : string) (b : bool) : no_spin (assert cond b).
Proof. unfold assert. destruct b; discriminate. Qed.

Lemma no_spin_load {T : Type} (a : gmap Z T) (i : Z) : no_spin (load a i).
Proof. unfold load. destruct (a !! i); discriminate. Qed.

Lemma no_spin_for_each {S : Type} (body : S -> Z -> outcome S)
    (l : list Z) :
  (forall s i, no_spin (body s i)) -> forall s, no_spin (for_each body l s).
Proof.
  intros Hb. induction l as [|i l IH]; intros s; simpl; [discriminate|].
  destruct (body s i) as [s1|e] eqn:E; [apply IH|].
  intros Hx. injection Hx as ->. exact (Hb s i E).
Qed.

Lemma no_spin_collect {A B : Type} (f : A -> outcome B) (l : list A) :
  (forall x, no_spin (f x)) -> no_spin (collect f l).
Proof.
  intros Hf. induction l as [|x l IH]; simpl; [discriminate|].
  destruct (f x) as [y|e] eqn:E.
  - destruct (collect f l) as [ys|e] eqn:E'; [discriminate|].
    intros Hx. injection Hx as ->. exact (IH eq_refl).
  - intros Hx. injection Hx as ->. exact (Hf x E).
Qed.

Create HintDb nospin.
#[local] Hint Resolve no_spin_Ret no_spin_assert no_spin_load
  no_spin_for_each no_spin_collect : nospin.

(** Case analysis down to the results, each settled by what is known of
    the computation it comes from. *)
Ltac split_matches :=
  repeat match goal with
         | |- context [match ?m with _ => _ end] => destruct m eqn:?
         end.

Ltac spin_leaf :=
  first
    [ solve [auto with nospin]
    | let Hx := fresh "Hx" in
      unfold no_spin; intros Hx;
      first
        [ discriminate Hx
        | injection Hx as Hx; subst;
          match goal with
          | E : ?m = Trap SpinsForever |- _ =>
              let Hn := fresh "Hn" in
              assert (Hn : no_spin m) by auto with nospin;
              exact (Hn E)
          end ] ].

Ltac ends_by_cases := unfold_outcome; split_matches; spin_leaf.

Module NoSpinVector.
Import CudaVector.

Lemma get_ends {T : Type} (v : t T) (i : Z) : no_spin (get v i).
Proof. unfold get. ends_by_cases. Qed.

Lemma set_ends {T : Type} (v : t T) (i : Z) (x : T) : no_spin (set v i x).
Proof. unfold set. ends_by_cases. Qed.

Lemma GetIdxFromAddr_ends {T : Type} (v : t T) (i : Z) :
  no_spin (GetIdxFromAddr v i).
Proof. unfold GetIdxFromAddr. ends_by_cases. Qed.

Lemma clamp_count_ends {T : Type} (b : build) (v : t T) :
  no_spin (clamp_count b v).
Proof. unfold clamp_count. ends_by_cases. Qed.

Lemma PushBack_ends {T : Type} (b : build) (v : t T) (x : T) :
  no_spin (PushBack b v x).
Proof.
  pose proof (@clamp_count_ends T) as Hc.
  unfold PushBack, fetch_add. ends_by_cases.
Qed.

(** A push returns the old value of the counter and leaves a counter
    that is not negative. *)
Lemma PushBack_counter {T : Type} (b : build) (v v' : t T) (x : T) (i : Z) :
  PushBack b v x = Ret (i, v') -> i = count_d v /\ 0 <= count_d v'.
Proof.
  unfold PushBack, fetch_add, clamp_count. unfold_outcome. intros HP.
  assert (H32 : forall z, 0 <= uint32 z)
    by (intros z; unfold uint32; apply Z.mod_pos_bound; lia).
  destruct b.
  - unfold assert in HP. simpl in HP.
    destruct (uint32 (count_d v + 1) <? max_size v); [|discriminate].
    inversion HP. simpl. split; [reflexivity | apply H32].
  - simpl in HP. destruct (max_size v <=? uint32 (count_d v + 1));
      inversion HP; simpl; (split; [reflexivity | apply H32]).
Qed.

Lemma set_counter {T : Type} (v v' : t T) (i : Z) (x : T) :
  set v i x = Ret v' -> count_d v' = count_d v.
Proof.
  unfold set, assert. unfold_outcome.
  destruct (uint32 i <? count_d v); [|discriminate].
  intros Heq. inversion Heq. reflexivity.
Qed.

End NoSpinVector.

#[local] Hint Resolve NoSpinVector.get_ends NoSpinVector.set_ends
  NoSpinVector.GetIdxFromAddr_ends NoSpinVector.clamp_count_ends
  NoSpinVector.PushBack_ends : nospin.

Module NoSpinLattice.
Import LatticeProcessor.

Lemma pool_index_ends (b : build) (lp : t) (i : Z) :
  no_spin (pool_index b lp i).
Proof. unfold pool_index. ends_by_cases. Qed.

Lemma GetTokenByExactIdx_ends (b : build) (lp : t) (i : Z) :
  no_spin (GetTokenByExactIdx b lp i).
Proof. apply pool_index_ends. Qed.

Lemma GetTokenAllocIdx_ends (b : build) (lp : t) (i : Z) :
  no_spin (GetTokenAllocIdx b lp i).
Proof. apply pool_index_ends. Qed.

Lemma SetNextSidx_ends (a : gmap Z Z) (size fr : Z) :
  no_spin (SetNextSidx a size fr).
Proof. unfold SetNextSidx. ends_by_cases. Qed.

Lemma GetActiveToken_ends (lp : t) (fr i : Z) :
  no_spin (GetActiveToken lp fr i).
Proof. unfold GetActiveToken. ends_by_cases. Qed.

Lemma GetActiveArc_ends (lp : t) (fr i : Z) : no_spin (GetActiveArc lp fr i).
Proof. unfold GetActiveArc. ends_by_cases. Qed.

Lemma GetSize_ends (lp : t) (a : gmap Z Z) (fr : Z) :
  no_spin (GetSize lp a fr).
Proof. unfold GetSize. ends_by_cases. Qed.

#[local] Hint Resolve pool_index_ends GetTokenByExactIdx_ends
  GetTokenAllocIdx_ends SetNextSidx_ends GetActiveToken_ends
  GetActiveArc_ends GetSize_ends : nospin.

Lemma explode_ends (lp : t) (fr : Z) (arc : LatLinkCompact) :
  no_spin (explode lp fr arc).
Proof. unfold explode. ends_by_cases. Qed.

#[local] Hint Resolve explode_ends : nospin.

Lemma AddArc_ends (lp : t) (arc : LatLinkCompact) (fr : Z) :
  no_spin (AddArc lp arc fr).
Proof. unfold AddArc. ends_by_cases. Qed.

Lemma extra_cost_of_link_ends (lp : t) (fr : Z) (link : LatLinkCompact) :
  no_spin (extra_cost_of_link lp fr link).
Proof. unfold extra_cost_of_link. ends_by_cases. Qed.

#[local] Hint Resolve AddArc_ends extra_cost_of_link_ends : nospin.

Lemma link_extra_cost_ends (lp : t) (fr tid : Z) :
  no_spin (link_extra_cost lp fr tid).
Proof. unfold link_extra_cost. ends_by_cases. Qed.

#[local] Hint Resolve link_extra_cost_ends : nospin.

Lemma init_token_ends (fr : Z) (lp : t) (tid : Z) :
  no_spin (init_token fr lp tid).
Proof. unfold init_token. ends_by_cases. Qed.

Lemma update_link_ends (beam : float) (fr m0 : Z) (lp : t) (tid : Z) :
  no_spin (update_link beam fr m0 lp tid).
Proof. unfold update_link. ends_by_cases. Qed.

Lemma aggregate_link_ends (merge : bool) (beam : float) (fr : Z) (lp : t)
    (tid : Z) :
  no_spin (aggregate_link merge beam fr lp tid).
Proof. unfold aggregate_link. ends_by_cases. Qed.

#[local] Hint Resolve init_token_ends update_link_ends aggregate_link_ends
  : nospin.

Lemma prune_init_ends (fr : Z) (lp : t) : no_spin (prune_init fr lp).
Proof. unfold prune_init, grid_stride_loop. ends_by_cases. Qed.

Lemma update_pass_ends (beam : float) (fr cnt : Z) (lp : t) :
  no_spin (update_pass beam fr cnt lp).
Proof. unfold update_pass, grid_stride_loop. ends_by_cases. Qed.

Lemma update_loop_test_ends (cnt : Z) (lp : t) :
  no_spin (update_loop_test cnt lp).
Proof. unfold update_loop_test. ends_by_cases. Qed.

Lemma aggregate_pass_ends (merge : bool) (beam : float) (fr c : Z) (lp : t) :
  no_spin (aggregate_pass merge beam fr c lp).
Proof. unfold aggregate_pass, grid_stride_loop. ends_by_cases. Qed.

Lemma update_loop_ends (beam : float) (fr : Z) (fuel : nat) :
  forall (cnt : Z) (lp : t),
    update_loop fuel beam fr cnt lp <> Some (Trap SpinsForever).
Proof.
  induction fuel as [|fuel IH]; intros cnt lp; simpl; [discriminate|].
  pose proof (update_loop_test_ends cnt lp) as Ht.
  destruct (update_loop_test cnt lp) as [[|]|e];
    [| discriminate | intros Hx; injection Hx as ->; exact (Ht eq_refl)].
  pose proof (update_pass_ends beam fr (cnt + 1) lp) as Hp.
  destruct (update_pass beam fr (cnt + 1) lp) as [lp1|e];
    [| intros Hx; injection Hx as ->; exact (Hp eq_refl)].
  specialize (IH (cnt + 1) lp1).
  destruct (update_loop fuel beam fr (cnt + 1) lp1) as [[[n lp2]|e]|];
    [discriminate | exact IH | discriminate].
Qed.

Lemma PruneLatticeForFrame_ends (fuel : nat) (fr : Z) (merge : bool)
    (beam : float) (lp : t) :
  PruneLatticeForFrame fuel fr merge beam lp <> Some (Trap SpinsForever).
Proof.
  unfold PruneLatticeForFrame.
  pose proof (prune_init_ends fr lp) as Hi.
  destruct (prune_init fr lp) as [[c lp1]|e];
    [| intros Hx; injection Hx as ->; exact (Hi eq_refl)].
  pose proof (update_loop_ends beam fr fuel 0 lp1) as Hl.
  destruct (update_loop fuel beam fr 0 lp1) as [[[n lp2]|e]|];
    [| exact Hl | discriminate].
  pose proof (aggregate_pass_ends merge beam fr c lp2) as Ha.
  destruct (aggregate_pass merge beam fr c lp2) as [lp3|e];
    [discriminate | intros Hx; injection Hx as ->; exact (Ha eq_refl)].
Qed.

Lemma CollectToksPerFrame_ends (size fr : Z) (lp : t) :
  no_spin (CollectToksPerFrame size fr lp).
Proof. unfold CollectToksPerFrame. ends_by_cases. Qed.

Lemma CollectArcsPerFrame_ends (size fr : Z) (lp : t) :
  no_spin (CollectArcsPerFrame size fr lp).
Proof. unfold CollectArcsPerFrame. ends_by_cases. Qed.

End NoSpinLattice.

#[local] Hint Resolve NoSpinLattice.GetTokenByExactIdx_ends
  NoSpinLattice.GetTokenAllocIdx_ends NoSpinLattice.CollectToksPerFrame_ends
  NoSpinLattice.CollectArcsPerFrame_ends : nospin.

(** A computation ends with [P] when it returns a result that has [P],
    or stops otherwise than in the wait. *)
Definition ends_with {A : Type} (P : A -> Prop) (m : outcome A) : Prop :=
  match m with
  | Ret a => P a
  | Trap e => e <> SpinsForever
  end.

Lemma ends_with_no_spin {A : Type} (P : A -> Prop) (m : outcome A) :
  ends_with P m -> no_spin m.
Proof.
  destruct m as [a|e]; simpl; [discriminate|].
  intros He Hx. injection Hx as ->. exact (He eq_refl).
Qed.

Lemma ends_with_for_each {S : Type} (P : S -> Prop)
    (body : S -> Z -> outcome S) (l : list Z) :
  (forall s i, P s -> ends_with P (body s i)) ->
  forall s, P s -> ends_with P (for_each body l s).
Proof.
  intros Hb. induction l as [|i l IH]; intros s Hs; simpl; [exact Hs|].
  specialize (Hb s i Hs).
  destruct (body s i) as [s1|e]; simpl in Hb; [apply IH | ]; exact Hb.
Qed.

(** The next computation of the goal is set apart: [step_pure] when it
    is known to end, [step_with] when a lemma tells what it ends with. *)
Tactic Notation "step_pure" "as" simple_intropattern(x) ident(E) :=
  match goal with
  | |- ends_with _ (match ?m with Ret _ => _ | Trap _ => _ end) =>
      let Hn := fresh "Hn" in
      assert (Hn : no_spin m) by auto with nospin;
      destruct m as [x|?] eqn:E;
      [clear Hn | simpl; intros ->; exact (Hn eq_refl)]
  end.

Tactic Notation "step_with" constr(L) "as" simple_intropattern(x) ident(Hm) :=
  pose proof L as Hm;
  match type of Hm with
  | ends_with _ ?m => destruct m as [x|?]; simpl in Hm; [|exact Hm]
  end.

Section NoSpinDecoder.
Context `{DeviceUtils}.
Import Decoder.

(** The memory as a frame finds it: the counter of [cur_toks] is not
    negative and no slot of the lookup table holds the mark
    [LOOKUP_READY_PUSH], which a thread leaves in a slot only between its
    compare-and-swap and its store of the index. *)
Definition quiet (st : t) : Prop :=
  0 <= CudaVector.count_d (vector (cur_toks st)) /\
  forall s, current_tokens_lookup st !! s <> Some LOOKUP_READY_PUSH.

Lemma token_of_ends (p : params) (st : t) (ts : TokenState) :
  no_spin (token_of p st ts).
Proof. unfold token_of. ends_by_cases. Qed.

Lemma IsUpdated_ends (m : TokenMergeVector) (i : Z) :
  no_spin (IsUpdated m i).
Proof. unfold IsUpdated. ends_by_cases. Qed.

#[local] Hint Resolve token_of_ends IsUpdated_ends : nospin.

(** The first block: afterwards the slot of the state is no longer
    inactive. *)
Lemma activate_ends (p : params) (st : t) (s : Z) :
  quiet st ->
  ends_with
    (fun st' =>
       quiet st' /\ current_tokens_lookup st' !! s <> Some LOOKUP_DEACTIVE)
    (activate p st s).
Proof.
  intros [Hc Hl]. unfold activate. unfold_outcome.
  step_pure as idx EL. destruct (idx =? LOOKUP_DEACTIVE) eqn:Ei.
  - step_pure as [i v] EP.
    destruct (NoSpinVector.PushBack_counter _ _ _ _ _ EP) as [-> Hv].
    step_pure as tok_idx ET. step_pure as ts EG. step_pure as v' ES. simpl.
    apply NoSpinVector.set_counter in ES.
    split; [split; [simpl; rewrite ES; exact Hv | simpl]|].
    + intros s'. destruct (decide (s = s')) as [<-|Hne].
      * rewrite lookup_insert_eq. unfold LOOKUP_READY_PUSH.
        intros Hx. inversion Hx. lia.
      * rewrite lookup_insert_ne by exact Hne. apply Hl.
    + rewrite lookup_insert_eq. unfold LOOKUP_DEACTIVE.
      intros Hx. inversion Hx. lia.
  - simpl. split; [split; assumption|].
    apply load_Ret in EL. rewrite EL.
    intros Hx. inversion Hx; subst. discriminate Ei.
Qed.

Lemma push_arc_ends (p : params) (st : t) (arc : LatLinkCompact) :
  quiet st -> ends_with (fun r => quiet (fst r)) (push_arc p st arc).
Proof.
  intros Hq. unfold push_arc. unfold_outcome.
  step_pure as [i v] EP. step_pure as u EA. exact Hq.
Qed.

(** The wait of [_find_or_add_token_arc] is over at once. *)
Lemma find_or_add_ends (p : params) (st : t) (s : Z) (tc ac : float)
    (ts : option Z) (j : Z) (add_arc : bool) (u : Z) (e : bool) :
  quiet st ->
  ends_with (fun r => quiet (fst (fst r)))
    (_find_or_add_token_arc p st s tc ac ts j add_arc u e).
Proof.
  intros Hq. unfold _find_or_add_token_arc. unfold_outcome.
  step_with (activate_ends p st s Hq) as st1 Hq1. destruct Hq1 as [Hq1 Hd].
  step_pure as idx EL. apply load_Ret in EL.
  destruct ((idx =? LOOKUP_DEACTIVE) || (idx =? LOOKUP_READY_PUSH)) eqn:Em.
  { exfalso. apply orb_true_iff in Em.
    destruct Em as [Em|Em]; apply Z.eqb_eq in Em; subst idx.
    - exact (Hd EL).
    - exact (proj2 Hq1 s EL). }
  step_pure as ts1 EG. destruct add_arc; [|exact Hq1].
  destruct ts as [ts_i|]; [|simpl; discriminate].
  step_pure as source ES. step_pure as ti ET. step_pure as ts_id EI.
  match goal with
  | |- context [push_arc p st1 ?arc] =>
      step_with (push_arc_ends p st1 arc Hq1) as [st2 ret] Hq2
  end.
  exact Hq2.
Qed.

(** With the mark in the slot the thread waits. *)
Lemma find_or_add_waits (p : params) (st : t) (s : Z) (tc ac : float)
    (ts : option Z) (j : Z) (add_arc : bool) (u : Z) (e : bool) :
  current_tokens_lookup st !! s = Some LOOKUP_READY_PUSH ->
  _find_or_add_token_arc p st s tc ac ts j add_arc u e = Trap SpinsForever.
Proof.
  intros Hs. apply load_Ret in Hs.
  unfold _find_or_add_token_arc, activate. unfold_outcome.
  rewrite Hs. change (LOOKUP_READY_PUSH =? LOOKUP_DEACTIVE) with false.
  cbv iota. rewrite Hs.
  change (LOOKUP_READY_PUSH =? LOOKUP_READY_PUSH) with true.
  reflexivity.
Qed.

Lemma recombine_ends (st : t) (next_i pk : Z) :
  quiet st -> ends_with (fun r => quiet (snd r)) (recombine st next_i pk).
Proof.
  intros Hq. unfold recombine. unfold_outcome. step_pure as ts E. exact Hq.
Qed.

Lemma store_slot_ends (p : params) (st : t) (tid : Z) :
  quiet st -> ends_with quiet (store_slot p st tid).
Proof.
  intros Hq. unfold store_slot. unfold_outcome.
  step_pure as ts E1. step_pure as u E2. step_pure as updated E3.
  destruct (updated =? 0); [exact Hq|].
  step_pure as cur_tok E4. step_pure as to_tok E5. exact Hq.
Qed.

Lemma StoreDataByPackIdx_ends (p : params) (st : t) :
  quiet st -> ends_with quiet (StoreDataByPackIdx p st).
Proof.
  intros Hq. unfold StoreDataByPackIdx, grid_stride_loop.
  apply (ends_with_for_each quiet); [|exact Hq].
  intros s i Hs. apply store_slot_ends. exact Hs.
Qed.

Lemma find_prev_cutoff_ends (p : params) (st : t) :
  quiet st -> ends_with quiet (_find_prev_cutoff_by_histogram p st).
Proof.
  intros Hq. unfold _find_prev_cutoff_by_histogram. unfold_outcome.
  assert (Hn : no_spin
                 (collect
                    (fun i =>
                       match CudaVector.get (vector (prev_toks st)) i with
                       | Ret ts =>
                           match token_of p st ts with
                           | Ret tok => Ret (cost_ tok)
                           | Trap e => Trap e
                           end
                       | Trap e => Trap e
                       end)
                    (seqZ 0 (CudaVector.Size (vector (prev_toks st)))))).
  { apply no_spin_collect. intros i. ends_by_cases. }
  destruct (collect _ _) as [costs|e]; [exact Hq|].
  simpl. intros ->. exact (Hn eq_refl).
Qed.

Lemma cutoff_arc_ends (p : params) (tok : Token) (start : Z)
    (local : list float) (j : Z) :
  no_spin (cutoff_arc p tok start local j).
Proof. unfold cutoff_arc. ends_by_cases. Qed.

#[local] Hint Resolve cutoff_arc_ends : nospin.

Lemma cutoff_token_ends (p : params) (st : t) (size : Z)
    (local : list float) (i : Z) :
  no_spin (cutoff_token p st size local i).
Proof. unfold cutoff_token. ends_by_cases. Qed.

#[local] Hint Resolve cutoff_token_ends : nospin.

Lemma find_best_cutoff_ends (p : params) (st : t) :
  quiet st -> ends_with quiet (_find_best_cutoff p st).
Proof.
  intros Hq. unfold _find_best_cutoff. unfold_outcome.
  assert (H1 : ends_with quiet
                 (if (max_active p <? CudaVector.Size (vector (prev_toks st)))
                     && (1 <? frame p)
                  then _find_prev_cutoff_by_histogram p st
                  else Ret st)).
  { destruct (_ && _); [apply find_prev_cutoff_ends|]; exact Hq. }
  step_with H1 as st1 Hq1. unfold dispatch.
  step_pure as local EL. exact Hq1.
Qed.

Lemma emit_arc_ends (p : params) (cutoff0 : float) (i : Z) (tok : Token)
    (st : t) (j : Z) :
  quiet st -> ends_with quiet (emit_arc p cutoff0 i tok st j).
Proof.
  intros Hq. unfold emit_arc. unfold_outcome.
  step_pure as ilabel E1. step_pure as ll E2. step_pure as weight E3.
  step_pure as nextstate E4.
  destruct (F32.leb _ cutoff0); [|exact Hq].
  match goal with
  | |- context [_find_or_add_token_arc p st ?s ?tc ?ac ?ts ?j ?a ?u ?e] =>
      step_with (find_or_add_ends p st s tc ac ts j a u e Hq)
        as [[st1 next_i] update_idx] Hq1
  end.
  simpl in Hq1.
  match goal with
  | |- context [recombine st1 ?n ?pk] =>
      step_with (recombine_ends st1 n pk Hq1) as [won st2] Hq2
  end.
  simpl in Hq2. destruct won; exact Hq2.
Qed.

Lemma emit_token_ends (p : params) (cutoff0 : float) (size : Z) (st : t)
    (i : Z) :
  quiet st -> ends_with quiet (emit_token p cutoff0 size st i).
Proof.
  intros Hq. unfold emit_token. unfold_outcome.
  step_pure as ts E1. step_pure as tok E2.
  destruct (histogram_pruned p st size tok); [exact Hq|].
  step_pure as start E3. step_pure as finish E4.
  apply (ends_with_for_each quiet); [|exact Hq].
  intros s j Hs. apply emit_arc_ends. exact Hs.
Qed.

Lemma process_emitting_ends (p : params) (st : t) :
  quiet st -> ends_with quiet (_process_emitting_tokens p st).
Proof.
  intros Hq. unfold _process_emitting_tokens, dispatch. unfold_outcome.
  match goal with
  | |- context [for_each ?body ?l st] =>
      step_with (ends_with_for_each quiet body l
                   (fun s i Hs => emit_token_ends p _ _ s i Hs) st Hq)
        as st1 Hq1
  end.
  apply StoreDataByPackIdx_ends. exact Hq1.
Qed.

Lemma nonemit_arc_ends (p : params) (cutoff0 : float) (m i : Z)
    (tok : Token) (st : t) (j : Z) :
  quiet st -> ends_with quiet (nonemit_arc p cutoff0 m i tok st j).
Proof.
  intros Hq. unfold nonemit_arc. unfold_outcome.
  step_pure as weight E1. step_pure as nextstate E2.
  destruct (F32.leb _ cutoff0); [|exact Hq].
  match goal with
  | |- context [_find_or_add_token_arc p st ?s ?tc ?ac ?ts ?j ?a ?u ?e] =>
      step_with (find_or_add_ends p st s tc ac ts j a u e Hq)
        as [[st1 next_i] update_idx] Hq1
  end.
  simpl in Hq1.
  match goal with
  | |- context [recombine st1 ?n ?pk] =>
      step_with (recombine_ends st1 n pk Hq1) as [won st2] Hq2
  end.
  simpl in Hq2. destruct won; [|exact Hq2].
  step_pure as u E3. exact Hq2.
Qed.

Lemma nonemit_token_ends (p : params) (cutoff0 : float) (m : Z) (st : t)
    (i : Z) :
  quiet st -> ends_with quiet (nonemit_token p cutoff0 m st i).
Proof.
  intros Hq. unfold nonemit_token. unfold_outcome.
  step_pure as ts E1. step_pure as tok E2.
  step_pure as start E3. step_pure as finish E4.
  apply (ends_with_for_each quiet); [|exact Hq].
  intros s j Hs. apply nonemit_arc_ends. exact Hs.
Qed.

Lemma aggregate_updated_ends (size : Z) (tids : list Z) :
  forall st, quiet st -> ends_with quiet (aggregate_updated size tids st).
Proof.
  induction tids as [|tid tids IH]; intros st Hq; simpl; [exact Hq|].
  unfold_outcome. step_pure as updated E.
  destruct (updated =? 0); [apply IH; exact Hq|].
  destruct (size <=? agg_idx st); [exact Hq|]. apply IH. exact Hq.
Qed.

Lemma nonemit_queue_ends (body : t -> Z -> outcome t) (size : Z)
    (js : list Z) :
  (forall s i, quiet s -> ends_with quiet (body s i)) ->
  forall st, quiet st -> ends_with quiet (nonemit_queue body size js st).
Proof.
  intros Hb. induction js as [|j js IH]; intros st Hq; simpl; [exact Hq|].
  unfold_outcome. step_pure as i E.
  destruct (size <=? i); [exact Hq|].
  step_with (Hb (with_ne_idx (ne_idx st + 1) st) i Hq) as st2 Hq2.
  apply IH. exact Hq2.
Qed.

Lemma process_nonemitting_ends (p : params) (cutoff0 : float) (size m : Z)
    (aggregate : bool) (st : t) :
  quiet st ->
  ends_with quiet (_process_nonemitting_tokens p cutoff0 size m aggregate st).
Proof.
  intros Hq. unfold _process_nonemitting_tokens. unfold_outcome.
  step_pure as u E.
  assert (Hbody : forall s i, quiet s ->
                    ends_with quiet (nonemit_token p cutoff0 m s i))
    by (intros s i Hs; apply nonemit_token_ends; exact Hs).
  destruct aggregate.
  - step_with (aggregate_updated_ends size (seqZ 0 size) st Hq) as st1 Hq1.
    match goal with
    | |- context [nonemit_queue ?body size ?js st1] =>
        step_with (nonemit_queue_ends body size js Hbody st1 Hq1) as st2 Hq2
    end.
    apply StoreDataByPackIdx_ends. exact Hq2.
  - unfold dispatch.
    match goal with
    | |- context [for_each ?body ?l st] =>
        step_with (ends_with_for_each quiet body l Hbody st Hq) as st1 Hq1
    end.
    apply StoreDataByPackIdx_ends. exact Hq1.
Qed.

Lemma closure_pass_ends (p : params) (is_init : bool) (cutoff0 : float)
    (cnt m0 m1 : Z) (st : t) :
  quiet st -> ends_with quiet (closure_pass p is_init cutoff0 cnt m0 m1 st).
Proof.
  intros Hq. unfold closure_pass. apply process_nonemitting_ends. exact Hq.
Qed.

Lemma closure_test_ends (m0 cnt : Z) (st : t) :
  no_spin (closure_test m0 cnt st).
Proof. unfold closure_test. ends_by_cases. Qed.

(** What a loop with fuel ends with. *)
Definition loop_ends_with {A : Type} (P : A -> Prop)
    (r : option (outcome (nat * A))) : Prop :=
  match r with
  | Some m => ends_with (fun x => P (snd x)) m
  | None => True
  end.

Lemma closure_loop_ends (p : params) (is_init : bool) (cutoff0 : float)
    (fuel : nat) :
  forall (cnt m0 m1 : Z) (st : t),
    quiet st ->
    loop_ends_with quiet (closure_loop fuel p is_init cutoff0 cnt m0 m1 st).
Proof.
  induction fuel as [|fuel IH]; intros cnt m0 m1 st Hq; simpl; [trivial|].
  pose proof (closure_pass_ends p is_init cutoff0 (cnt + 1) m0 m1 st Hq)
    as Hp.
  destruct (closure_pass p is_init cutoff0 (cnt + 1) m0 m1 st) as [st1|e];
    simpl in Hp; [|exact Hp].
  pose proof (closure_test_ends m1 (cnt + 1) st1) as Ht.
  destruct (closure_test m1 (cnt + 1) st1) as [[|]|e];
    [| exact Hp | simpl; intros ->; exact (Ht eq_refl)].
  specialize (IH (cnt + 1) m1 m0 st1 Hp).
  destruct (closure_loop fuel p is_init cutoff0 (cnt + 1) m1 m0 st1)
    as [[[n st2]|e]|]; exact IH.
Qed.

Lemma reset_visited_ends (st : t) (i : Z) :
  quiet st -> ends_with quiet (reset_visited st i).
Proof.
  intros [Hc Hl]. unfold reset_visited. unfold_outcome.
  step_pure as ts E. split; [exact Hc|]. intros s. simpl.
  destruct (decide (state ts = s)) as [<-|Hne].
  - rewrite lookup_insert_eq. discriminate.
  - rewrite lookup_insert_ne by exact Hne. apply Hl.
Qed.

Lemma process_tokens_begin_ends (p : params) (is_init : bool) (st : t) :
  quiet st ->
  ends_with (fun r => quiet (snd r)) (process_tokens_begin p is_init st).
Proof.
  intros Hq. unfold process_tokens_begin. unfold_outcome.
  destruct is_init; [exact Hq|].
  step_with (find_best_cutoff_ends p st Hq) as s Hs.
  match goal with
  | |- context [_process_emitting_tokens p ?st2] =>
      step_with (process_emitting_ends p st2 Hs) as st3 Hq3
  end.
  exact Hq3.
Qed.

Lemma process_tokens_end_ends (p : params) (st : t) :
  quiet st -> ends_with quiet (process_tokens_end p st).
Proof.
  intros Hq. unfold process_tokens_end, _initialize_visited_states,
    grid_stride_loop. unfold_outcome.
  step_pure as lp1 E1. step_pure as lp2 E2.
  match goal with
  | |- context [for_each reset_visited ?l ?st1] =>
      step_with (ends_with_for_each quiet reset_visited l
                   reset_visited_ends st1 Hq) as st2 Hq2
  end.
  exact Hq2.
Qed.

Lemma process_tokens_ends (fuel : nat) (p : params) (is_init : bool)
    (st : t) :
  quiet st -> loop_ends_with quiet (_process_tokens fuel p is_init st).
Proof.
  intros Hq. unfold _process_tokens.
  pose proof (process_tokens_begin_ends p is_init st Hq) as Hb.
  destruct (process_tokens_begin p is_init st) as [[c st1]|e];
    simpl in Hb; [|exact Hb].
  pose proof (closure_loop_ends p is_init c fuel 0 0 1 st1 Hb) as Hl.
  destruct (closure_loop fuel p is_init c 0 0 1 st1) as [[[n st2]|e]|];
    simpl in Hl; [| exact Hl | trivial].
  pose proof (process_tokens_end_ends p st2 Hl) as He.
  destruct (process_tokens_end p st2) as [st3|e]; exact He.
Qed.

(** [_initialize_all_states] on a table of [numStates] cells, whatever
    they hold, leaves no mark in it. *)
Lemma initialize_all_states_quiet (numStates : Z) (st : t) :
  0 <= CudaVector.count_d (vector (cur_toks st)) ->
  (forall s, current_tokens_lookup st !! s <> None -> 0 <= s < numStates) ->
  quiet (_initialize_all_states numStates st).
Proof.
  intros Hc Hcells. split; [exact Hc|]. simpl.
  assert (Hin : forall s,
            current_tokens_lookup st !! s = Some LOOKUP_READY_PUSH ->
            In s (seqZ 0 numStates)).
  { intros s Hs. apply list_elem_of_In, elem_of_seqZ.
    assert (Hr : 0 <= s < numStates) by (apply Hcells; congruence). lia. }
  revert Hin. generalize (seqZ 0 numStates) as l.
  generalize (current_tokens_lookup st) as lk.
  intros lk l. revert lk.
  induction l as [|i l IH]; intros lk Hin s; simpl.
  - intros Hs. exact (Hin s Hs).
  - apply IH. intros s' Hs'. destruct (decide (i = s')) as [<-|Hne].
    + rewrite lookup_insert_eq in Hs'. discriminate Hs'.
    + rewrite lookup_insert_ne in Hs' by exact Hne.
      destruct (Hin s' Hs') as [Heq|Hl]; [contradiction | exact Hl].
Qed.

Lemma add_initial_token_ends (p : params) (st : t) (start : Z) :
  quiet st -> ends_with quiet (_add_initial_token p st start).
Proof.
  intros Hq. unfold _add_initial_token, add_initial_token_begin.
  unfold_outcome.
  match goal with
  | |- context [_find_or_add_token_arc p ?s0 ?s ?tc ?ac ?ts ?j ?a ?u ?e] =>
      step_with (find_or_add_ends p s0 s tc ac ts j a u e Hq)
        as [[st1 next_i] update_idx] Hq1
  end.
  simpl in Hq1.
  match goal with
  | |- context [recombine ?st2 ?n ?pk] =>
      step_with (recombine_ends st2 n pk Hq1) as [won st3] Hq3
  end.
  apply StoreDataByPackIdx_ends. exact Hq3.
Qed.

Lemma PreProcessTokens_quiet (st : t) :
  quiet st -> quiet (PreProcessTokens st).
Proof. intros [Hc Hl]. split; [simpl; lia | exact Hl]. Qed.

End NoSpinDecoder.

Section Closure.
Context `{DeviceUtils}.

Lemma closure_loop_returns (p : Decoder.params) (is_init : bool)
    (cutoff0 : float) (fuel : nat) :
  forall (cnt m0 m1 : Z) (st : Decoder.t),
  0 <= cnt < 10 ->
  (Z.to_nat (10 - cnt) <= fuel)%nat ->
  exists r,
    Decoder.closure_loop fuel p is_init cutoff0 cnt m0 m1 st = Some r /\
    forall n st', r = Ret (n, st') ->
      (1 <= n <= Z.to_nat (10 - cnt))%nat.
Proof.
  induction fuel as [|fuel IH]; intros cnt m0 m1 st Hc Hf; [lia|].
  simpl.
  destruct (Decoder.closure_pass p is_init cutoff0 (cnt + 1) m0 m1 st)
    as [st1|e]; [|eexists; split; [reflexivity | discriminate]].
  unfold Decoder.closure_test. unfold_outcome.
  destruct (load (Decoder.modified st1) m1) as [flag|e]; simpl;
    [|eexists; split; [reflexivity | discriminate]].
  destruct ((flag =? 1) && (cnt + 1 <? 10)) eqn:E.
  - apply andb_true_iff in E. destruct E as [_ E]. apply Z.ltb_lt in E.
    destruct (IH (cnt + 1) m1 m0 st1 ltac:(lia) ltac:(lia))
      as (r & Hr & Hn).
    rewrite Hr. destruct r as [[n st2]|e].
    + eexists. split; [reflexivity|]. intros n' st' Heq.
      inversion Heq; subst. specialize (Hn n st' eq_refl). lia.
    + eexists. split; [reflexivity | discriminate].
  - eexists. split; [reflexivity|]. intros n st' Heq. inversion Heq. lia.
Qed.


End Closure.


(** ** The cutoff of the first frame *)

(** Inversion of a hypothesis [... = Ret _]: every computation on the way
    returned. *)
Ltac invert_outcome H :=
  lazymatch type of H with
  | Ret _ = Ret _ => inversion H; clear H
  | Trap _ = Ret _ => discriminate H
  | context [match ?m with _ => _ end] =>
      let E := fresh "E" in
      destruct m eqn:E; simpl in H; invert_outcome H
  end.

Lemma SFcompare_swap (a b : float) :
  SFcompare b a = option_map CompOpp (SFcompare a b).
Proof.
  destruct a as [[]|[]| |[] ma ea], b as [[]|[]| |[] mb eb];
    simpl; try reflexivity.
  - rewrite (Z.compare_antisym ea eb).
    destruct (ea ?= eb); simpl; try reflexivity.
    change (PosDef.Pos.compare_cont Eq mb ma) with (Pos.compare mb ma).
    change (PosDef.Pos.compare_cont Eq ma mb) with (Pos.compare ma mb).
    rewrite (Pos.compare_antisym ma mb). reflexivity.
  - rewrite (Z.compare_antisym ea eb).
    destruct (ea ?= eb); simpl; try reflexivity.
    change (PosDef.Pos.compare_cont Eq mb ma) with (Pos.compare mb ma).
    change (PosDef.Pos.compare_cont Eq ma mb) with (Pos.compare ma mb).
    rewrite (Pos.compare_antisym ma mb). reflexivity.
Qed.

Lemma gtb_not_leb (x c : float) : F32.gtb x c = true -> F32.leb x c = false.
Proof.
  unfold F32.gtb, F32.ltb, F32.leb, SFltb, SFleb.
  rewrite (SFcompare_swap x c).
  destruct (SFcompare x c) as [[]|]; simpl; congruence.
Qed.

Section FirstFrame.
Context `{DeviceUtils}.
Import Decoder.

Lemma store_slot_cutoff (p : params) (st st' : t) (tid : Z) :
  store_slot p st tid = Ret st' -> cutoff st' = cutoff st.
Proof.
  unfold store_slot. unfold_outcome. intros HS.
  invert_outcome HS; reflexivity.
Qed.

Lemma store_slots_cutoff (p : params) (tids : list Z) :
  forall st st' : t,
  for_each (store_slot p) tids st = Ret st' -> cutoff st' = cutoff st.
Proof.
  induction tids as [|tid tids IH]; intros st st' HF; simpl in HF.
  - inversion HF. reflexivity.
  - destruct (store_slot p st tid) as [st1|] eqn:E; [|discriminate].
    rewrite (IH _ _ HF). exact (store_slot_cutoff _ _ _ _ E).
Qed.

Lemma activate_cutoff (p : params) (st st' : t) (s : Z) :
  activate p st s = Ret st' -> cutoff st' = cutoff st.
Proof.
  unfold activate, CudaVector.PushBack, CudaVector.set. unfold_outcome.
  intros HS. invert_outcome HS; reflexivity.
Qed.

Lemma add_initial_token_cutoff (p : params) (st st' : t) (start : Z) :
  _add_initial_token p st start = Ret st' -> cutoff st' = F32.of_Z 100.
Proof.
  unfold _add_initial_token, add_initial_token_begin,
    _find_or_add_token_arc, recombine.
  unfold_outcome. intros HS.
  destruct (activate p (_initialize_cutoff st) start) as [st1|] eqn:EA;
    simpl in HS; [|discriminate].
  apply activate_cutoff in EA. simpl in EA.
  destruct (load (current_tokens_lookup st1) start) as [idx|]; simpl in HS;
    [|discriminate].
  destruct ((idx =? LOOKUP_DEACTIVE) || (idx =? LOOKUP_READY_PUSH));
    [discriminate|].
  destruct (CudaVector.get (vector (cur_toks st1)) idx); simpl in HS;
    [|discriminate].
  destruct (load _ idx) as [next_ts|]; simpl in HS; [|discriminate].
  unfold StoreDataByPackIdx, grid_stride_loop in HS.
  apply store_slots_cutoff in HS. rewrite HS. simpl. exact EA.
Qed.

Lemma closure_loop_beam (b : float) (p : params) (cutoff0 : float)
    (fuel : nat) :
  forall (cnt m0 m1 : Z) (st : t),
  closure_loop fuel (with_beam b p) true cutoff0 cnt m0 m1 st =
  closure_loop fuel p true cutoff0 cnt m0 m1 st.
Proof.
  induction fuel as [|fuel IH]; intros cnt m0 m1 st; [reflexivity|].
  simpl.
  change (closure_pass (with_beam b p) true cutoff0 (cnt + 1) m0 m1 st)
    with (closure_pass p true cutoff0 (cnt + 1) m0 m1 st).
  destruct (closure_pass p true cutoff0 (cnt + 1) m0 m1 st); [|reflexivity].
  destruct (closure_test m1 (cnt + 1) a) as [[]|]; try reflexivity.
  rewrite IH. reflexivity.
Qed.

Lemma process_tokens_beam (b : float) (p : params) (fuel : nat) (st : t) :
  _process_tokens fuel (with_beam b p) true st =
  _process_tokens fuel p true st.
Proof.
  unfold _process_tokens.
  change (process_tokens_begin (with_beam b p) true st)
    with (process_tokens_begin p true st).
  destruct (process_tokens_begin p true st) as [[c st1]|]; [|reflexivity].
  rewrite closure_loop_beam.
  destruct (closure_loop fuel p true c 0 0 1 st1) as [[[n st2]|]|];
    reflexivity.
Qed.

Lemma process_tokens_cutoff (fuel : nat) (p : params) (is_init : bool)
    (st st' : t) (n : nat) :
  _process_tokens fuel p is_init st = Some (Ret (n, st')) ->
  cutoff st' = F32.INFINITY.
Proof.
  unfold _process_tokens, process_tokens_end. unfold_outcome. intros HS.
  destruct (process_tokens_begin p is_init st) as [[c st1]|];
    [|discriminate].
  destruct (closure_loop fuel p is_init c 0 0 1 st1) as [[[k st2]|]|];
    try discriminate.
  destruct (LatticeProcessor.CollectToksPerFrame _ _ _) as [lp1|];
    simpl in HS; [|discriminate].
  destruct (LatticeProcessor.CollectArcsPerFrame _ _ _) as [lp2|];
    simpl in HS; [|discriminate].
  destruct (_initialize_visited_states _) as [st3|]; simpl in HS;
    [|discriminate].
  inversion HS. reflexivity.
Qed.


End FirstFrame.


(** ** The ceilings of a frame *)

Section Ceilings.
Context `{DeviceUtils}.
Import Decoder.

(** C5 (as amended).  In the code built without [__DEBUG__], the push of
    an arc whose index within the frame is below [max_lat_arc_per_frame]
    returns this index and stores the arc.  The push of an arc whose index
    within the frame has reached [max_lat_arc_per_frame] (the 5th arc of a
    frame when the ceiling is 4) fails the assertion
    [ret < params->max_lat_arc_per_frame] of [_find_or_add_token_arc],
    which ends the kernel; the failure names this condition and is the
    same at every frame.  [PushBack] itself never fails: it returns an
    index whatever the size of the vector. *)
Theorem arc_ceiling_is_an_assertion
    (p : params) (st : t) (arc : LatLinkCompact) :
  built p = Release ->
  (lat_arcs_count st - num_arcs_till_last st < max_lat_arc_per_frame p ->
   exists st',
     push_arc p st arc =
       Ret (st', lat_arcs_count st - num_arcs_till_last st) /\
     LatticeProcessor.arcs_bpr_d (lattice_processor st')
       !! lat_arcs_count st = Some arc) /\
  (max_lat_arc_per_frame p <= lat_arcs_count st - num_arcs_till_last st ->
   push_arc p st arc =
     Trap (AssertFailed "ret < params->max_lat_arc_per_frame") /\
   forall f, push_arc (with_frame f p) st arc =
     Trap (AssertFailed "ret < params->max_lat_arc_per_frame")) /\
  (forall (T : Type) (v : CudaVector.t T) (x : T),
     exists v', CudaVector.PushBack Release v x =
       Ret (CudaVector.count_d v, v')).
Proof.
  intros Hb. unfold push_arc. simpl. rewrite Hb.
  destruct (CudaVectorFacts.PushBack_release (lat_arcs_sub_vec st) arc)
    as (v' & Hpush & Hmem & _).
  rewrite Hpush. unfold_outcome. simpl. split; [|split].
  - intros Hlt. apply Z.ltb_lt in Hlt. unfold assert. rewrite Hlt.
    eexists. split; [reflexivity|]. simpl. rewrite Hmem. simpl.
    apply lookup_insert_eq.
  - intros Hge. apply Z.ltb_ge in Hge. unfold assert. rewrite Hge.
    split; [reflexivity|]. intros f. reflexivity.
  - intros T v x.
    destruct (CudaVectorFacts.PushBack_release v x) as (v1 & H1 & _).
    exists v1. exact H1.
Qed.

End Ceilings.

(** The theorem with the ceiling 4 after four arcs of the frame, and the
    run of the frame 1 on [Examples.fan_graph], whose start state has five
    arcs: with the ceiling 4 the kernel ends on the assertion, with the
    ceiling 5 it returns. *)
Lemma arc_ceiling_is_an_assertion_witness :
  let p := Examples.fan_graph Release 1 100 4 in
  let st := Decoder.with_lat_arcs_count 4 (Examples.fresh p 8 F32.zero) in
  let arc := mkLatLinkCompact 0 0 0 1 F32.zero 4 in
  let p0 := Examples.fan_graph Release 0 100 4 in
  let st1 := Decoder.PreProcessTokens
               (Examples.after_init p0 (Examples.fresh p0 8 F32.zero)) in
  Decoder.push_arc p st arc =
    Trap (AssertFailed "ret < params->max_lat_arc_per_frame") /\
  Decoder._process_tokens 11 p false st1 =
    Some (Trap (AssertFailed "ret < params->max_lat_arc_per_frame")) /\
  ended (Decoder._process_tokens 11 (Examples.fan_graph Release 1 100 5)
           false st1) = true.
Proof.
  intros p st arc p0 st1.
  assert (Hb : Decoder.built p = Release) by reflexivity.
  assert (Hge : Decoder.max_lat_arc_per_frame p <=
                Decoder.lat_arcs_count st - Decoder.num_arcs_till_last st)
    by (vm_compute; discriminate).
  destruct (arc_ceiling_is_an_assertion p st arc Hb) as (_ & Htrap & _).
  split; [exact (proj1 (Htrap Hge))|].
  split; [|vm_compute; reflexivity].
  assert (Hr : match Decoder._process_tokens 11 p false st1 with
               | Some (Trap (AssertFailed c)) =>
                   String.eqb c "ret < params->max_lat_arc_per_frame"
               | _ => false
               end = true) by (vm_compute; reflexivity).
  destruct (Decoder._process_tokens 11 p false st1) as [[|[c| | |]]|];
    try discriminate Hr.
  apply String.eqb_eq in Hr. subst c. reflexivity.
Defined.

(** C5 (as stated) fails: five pushes onto a vector of four cells, built
    without [__DEBUG__], all return an index; the fifth returns the index
    3 and the size of the vector stays 3. *)
Lemma push_beyond_capacity_counterexample :
  exists v,
    CudaVector.push_all Release (CudaVector.mk 0 4 ∅) [10; 11; 12; 13; 14] =
      Ret ([0; 1; 2; 3; 3], v) /\
    CudaVector.count_d v = 3 /\
    CudaVector.mem_d v !! 3 = Some 14.
Proof.
  eexists. split; [vm_compute; reflexivity|].
  split; vm_compute; reflexivity.
Qed.

(** ** One token state for a state *)

Section OneTokenState.
Context `{DeviceUtils}.
Import Activation.

Abbreviation lookup_of st := (Decoder.current_tokens_lookup st).
Abbreviation cur_vector st := (vector (Decoder.cur_toks st)).

Lemma pool_insert_cases (l : list thread) (k k' : nat) (th th' : thread) :
  <[k := th]> l !! k' = Some th' ->
  (k' = k /\ th' = th) \/ (k' <> k /\ l !! k' = Some th').
Proof.
  intros Hl. destruct (decide (k' = k)) as [->|Hne].
  - left. split; [reflexivity|].
    destruct (decide (k < length l)%nat) as [Hlt|Hge].
    + rewrite list_lookup_insert_eq in Hl by exact Hlt. congruence.
    + rewrite list_insert_ge in Hl by lia.
      apply lookup_lt_Some in Hl. lia.
  - right. split; [exact Hne|].
    rewrite list_lookup_insert_ne in Hl by congruence. exact Hl.
Qed.

Lemma pool_insert_self (l : list thread) (k : nat) (th th' : thread) :
  l !! k = Some th -> <[k := th']> l !! k = Some th'.
Proof.
  intros Hk. apply list_lookup_insert_eq. apply lookup_lt_Some in Hk. exact Hk.
Qed.

Section SomeThread.
Context {A : Type} (f : thread -> option A).
Context (pl : list thread) (k : nat) (th th' : thread).
Hypothesis Hk : pl !! k = Some th.

Lemma some_thread_insert (x : A) :
  some_thread f (<[k := th']> pl) x ->
  f th' = Some x \/ some_thread f pl x.
Proof using Hk.
  intros (k' & th0 & Hk' & Hf). apply pool_insert_cases in Hk'.
  destruct Hk' as [[-> ->]|[_ Hk']]; [left; exact Hf|].
  right. exists k', th0. split; assumption.
Qed.

Lemma some_thread_insert_ne (x : A) :
  some_thread f (<[k := th']> pl) x ->
  f th' = Some x \/
  exists k' th0, k' <> k /\ pl !! k' = Some th0 /\ f th0 = Some x.
Proof using Hk.
  intros (k' & th0 & Hk' & Hf). apply pool_insert_cases in Hk'.
  destruct Hk' as [[-> ->]|[Hne Hk']]; [left; exact Hf|].
  right. exists k', th0. repeat split; assumption.
Qed.

Lemma some_thread_self (x : A) :
  f th' = Some x -> some_thread f (<[k := th']> pl) x.
Proof using Hk.
  intros Hf. exists k, th'. split; [|exact Hf].
  eapply pool_insert_self, Hk.
Qed.

Lemma some_thread_other (x : A) :
  some_thread f pl x -> f th <> Some x ->
  some_thread f (<[k := th']> pl) x.
Proof using Hk.
  intros (k' & th0 & Hk' & Hf) Hne. exists k', th0. split; [|exact Hf].
  rewrite list_lookup_insert_ne; [exact Hk'|].
  intros <-. rewrite Hk in Hk'. inversion Hk'; subst. contradiction.
Qed.

Lemma some_thread_keep (x : A) :
  f th' = f th ->
  some_thread f (<[k := th']> pl) x <-> some_thread f pl x.
Proof using Hk.
  intros Heq. split.
  - intros Hs. destruct (some_thread_insert _ Hs) as [Hf|Hs']; [|exact Hs'].
    exists k, th. split; [exact Hk | congruence].
  - intros Hs. destruct (f th) as [y|] eqn:Ef.
    + destruct Hs as (k' & th0 & Hk' & Hf).
      destruct (decide (k' = k)) as [->|Hne].
      * rewrite Hk in Hk'. inversion Hk'; subst th0.
        apply some_thread_self. congruence.
      * exists k', th0. split; [|exact Hf].
        rewrite list_lookup_insert_ne by congruence. exact Hk'.
    + apply some_thread_other; [exact Hs | congruence].
Qed.

End SomeThread.

Lemma thread_ok_quiet (lk : gmap Z Z) (th : thread) :
  claims th = None -> (forall s i, th <> AtAlloc s i /\ th <> Found s i) ->
  thread_ok lk th.
Proof.
  intros Hc Hn. split.
  - intros s Hs. congruence.
  - intros s i [->| ->]; destruct (Hn s i); contradiction.
Qed.

Lemma thread_ok_claims (lk : gmap Z Z) (th th' : thread) :
  claims th' = claims th ->
  (forall s i, th' <> AtAlloc s i /\ th' <> Found s i) ->
  thread_ok lk th -> thread_ok lk th'.
Proof.
  intros Hc Hn [Hr _]. split.
  - intros s Hs. apply Hr. congruence.
  - intros s i [->| ->]; destruct (Hn s i); contradiction.
Qed.

(** A step that neither claims nor gives up a state and leaves the lookup
    table and the log as they are. *)
Lemma protocol_keep (pl : list thread) (lk : gmap Z Z) (log : list Z)
    (k : nat) (th th' : thread) :
  protocol pl lk log ->
  pl !! k = Some th ->
  claims th' = claims th ->
  adding th = None -> adding th' = None ->
  thread_ok lk th' ->
  protocol (<[k := th']> pl) lk log.
Proof.
  intros [P1 P2 P3 P4 P5 P6 P7] Hk Hc Ha Ha' Hok.
  assert (Hadd : forall s, some_thread adding (<[k := th']> pl) s <->
                           some_thread adding pl s).
  { intros s. apply (some_thread_keep adding pl k th th' Hk). congruence. }
  constructor.
  - exact P1.
  - intros k' th0 Hk'. apply pool_insert_cases in Hk'.
    destruct Hk' as [[-> ->]|[_ Hk']]; [exact Hok | eauto].
  - intros k1 k2 th1 th2 s Hk1 Hk2 Hc1 Hc2.
    apply pool_insert_cases in Hk1, Hk2.
    destruct Hk1 as [[-> ->]|[Hn1 Hk1]], Hk2 as [[-> ->]|[Hn2 Hk2]].
    + reflexivity.
    + rewrite Hc in Hc1. exfalso. apply Hn2. symmetry. eauto.
    + rewrite Hc in Hc2. exfalso. apply Hn1. eauto.
    + eauto.
  - exact P4.
  - intros s Hs. destruct (P5 s Hs) as [Hv Hno]. split; [exact Hv|].
    rewrite Hadd. exact Hno.
  - intros s v Hv Hne. rewrite Hadd. eauto.
  - exact P7.
Qed.

(** The compare-and-swap of the thread [k] finds the slot inactive. *)
Lemma protocol_claim (pl : list thread) (lk : gmap Z Z) (log : list Z)
    (k : nat) (s : Z) :
  protocol pl lk log ->
  pl !! k = Some (AtCAS s) ->
  lk !! s = Some LOOKUP_DEACTIVE ->
  protocol (<[k := AtAdd s]> pl) (<[s := LOOKUP_READY_PUSH]> lk) log.
Proof.
  intros [P1 P2 P3 P4 P5 P6 P7] Hk Hs.
  assert (Hfree : forall k' th', pl !! k' = Some th' -> claims th' <> Some s).
  { intros k' th' Hk' Hc. destruct (P2 _ _ Hk') as [Hr _].
    specialize (Hr _ Hc). rewrite Hs in Hr. discriminate Hr. }
  constructor.
  - intros s' v Hv. destruct (decide (s' = s)) as [->|Hne].
    + rewrite lookup_insert_eq in Hv. inversion Hv. auto.
    + rewrite lookup_insert_ne in Hv by congruence. eauto.
  - intros k' th' Hk'. apply pool_insert_cases in Hk'.
    destruct Hk' as [[-> ->]|[Hn Hk']].
    + split.
      * intros s' Hc. inversion Hc; subst. apply lookup_insert_eq.
      * intros s' i [Heq|Heq]; discriminate Heq.
    + destruct (P2 _ _ Hk') as [Hr Hi]. split.
      * intros s' Hc. rewrite lookup_insert_ne; [eauto|].
        intros <-. exact (Hfree _ _ Hk' Hc).
      * intros s' i Hth. destruct (Hi s' i Hth) as [Hv Hpos].
        split; [|exact Hpos]. rewrite lookup_insert_ne; [exact Hv|].
        intros <-. rewrite Hs in Hv. inversion Hv.
        unfold LOOKUP_DEACTIVE in *. lia.
  - intros k1 k2 th1 th2 s' Hk1 Hk2 Hc1 Hc2.
    apply pool_insert_cases in Hk1, Hk2.
    destruct Hk1 as [[-> ->]|[Hn1 Hk1]], Hk2 as [[-> ->]|[Hn2 Hk2]].
    + reflexivity.
    + inversion Hc1; subst. destruct (Hfree _ _ Hk2 Hc2).
    + inversion Hc2; subst. destruct (Hfree _ _ Hk1 Hc1).
    + eauto.
  - exact P4.
  - intros s' Hin. destruct (P5 s' Hin) as [(v & Hv & Hne) Hno].
    assert (Hss : s' <> s).
    { intros ->. rewrite Hs in Hv. inversion Hv. congruence. }
    split.
    + exists v. rewrite lookup_insert_ne by congruence. split; assumption.
    + intros Hadd. apply (some_thread_insert adding _ _ _ _ Hk) in Hadd.
      destruct Hadd as [Heq|Hadd]; [inversion Heq; congruence | auto].
  - intros s' v Hv Hne. destruct (decide (s' = s)) as [->|Hss].
    + right. apply (some_thread_self adding _ _ _ _ Hk). reflexivity.
    + rewrite lookup_insert_ne in Hv by congruence.
      destruct (P6 _ _ Hv Hne) as [Hin|Hadd]; [left; exact Hin|].
      right. apply (some_thread_other adding _ _ _ _ Hk); [exact Hadd|].
      discriminate.
  - rewrite map_size_insert_Some by eauto. exact P7.
Qed.

(** The thread [k] goes into [PushBack]. *)
Lemma protocol_add (pl : list thread) (lk : gmap Z Z) (log : list Z)
    (k : nat) (s i : Z) :
  protocol pl lk log ->
  pl !! k = Some (AtAdd s) ->
  protocol (<[k := AtClamp s i]> pl) lk (s :: log).
Proof.
  intros [P1 P2 P3 P4 P5 P6 P7] Hk.
  assert (Hs : lk !! s = Some LOOKUP_READY_PUSH).
  { destruct (P2 _ _ Hk) as [Hr _]. apply Hr. reflexivity. }
  assert (Hgone : forall s', some_thread adding (<[k := AtClamp s i]> pl) s' ->
                    some_thread adding pl s' /\ s' <> s).
  { intros s' Hadd. apply (some_thread_insert_ne adding _ _ _ _ Hk) in Hadd.
    destruct Hadd as [Heq|(k' & th' & Hne & Hk' & Hf)]; [discriminate Heq|].
    split; [exists k', th'; split; assumption|]. intros ->.
    destruct th'; try discriminate Hf. inversion Hf; subst.
    apply Hne. eapply P3; eauto. }
  constructor.
  - exact P1.
  - intros k' th' Hk'. apply pool_insert_cases in Hk'.
    destruct Hk' as [[-> ->]|[_ Hk']]; [|eauto].
    split.
    + intros s' Hc. inversion Hc; subst. exact Hs.
    + intros s' i' [Heq|Heq]; discriminate Heq.
  - intros k1 k2 th1 th2 s' Hk1 Hk2 Hc1 Hc2.
    apply pool_insert_cases in Hk1, Hk2.
    destruct Hk1 as [[-> ->]|[Hn1 Hk1]], Hk2 as [[-> ->]|[Hn2 Hk2]].
    + reflexivity.
    + inversion Hc1; subst. exfalso. apply Hn2. symmetry. eapply P3; eauto.
    + inversion Hc2; subst. exfalso. apply Hn1. eapply P3; eauto.
    + eauto.
  - constructor; [|exact P4]. intros Hin. apply list_elem_of_In in Hin.
    destruct (P5 s Hin) as [_ Hno]. apply Hno.
    exists k, (AtAdd s). split; [exact Hk | reflexivity].
  - intros s' [<-|Hin].
    + split.
      * exists LOOKUP_READY_PUSH. split; [exact Hs | discriminate].
      * intros Hadd. destruct (Hgone _ Hadd) as [_ Hne]. congruence.
    + destruct (P5 s' Hin) as [Hv Hno]. split; [exact Hv|].
      intros Hadd. destruct (Hgone _ Hadd) as [Hold _]. auto.
  - intros s' v Hv Hne. destruct (decide (s' = s)) as [->|Hss].
    + left. left. reflexivity.
    + destruct (P6 _ _ Hv Hne) as [Hin|Hadd]; [left; right; exact Hin|].
      right. apply (some_thread_other adding _ _ _ _ Hk); [exact Hadd|].
      simpl. congruence.
  - exact P7.
Qed.

(** The thread [k] records the index it has got. *)
Lemma protocol_record (pl : list thread) (lk : gmap Z Z) (log : list Z)
    (k : nat) (s i : Z) :
  protocol pl lk log ->
  pl !! k = Some (AtRecord s i) ->
  0 <= i ->
  protocol (<[k := AtAlloc s i]> pl) (<[s := i]> lk) log.
Proof.
  intros [P1 P2 P3 P4 P5 P6 P7] Hk Hi.
  assert (Hs : lk !! s = Some LOOKUP_READY_PUSH).
  { destruct (P2 _ _ Hk) as [Hr _]. apply Hr. reflexivity. }
  assert (Hfree : forall k' th', k' <> k -> pl !! k' = Some th' ->
                    claims th' <> Some s).
  { intros k' th' Hne Hk' Hc. apply Hne. eapply P3; eauto. }
  constructor.
  - intros s' v Hv. destruct (decide (s' = s)) as [->|Hne].
    + rewrite lookup_insert_eq in Hv. inversion Hv. subst. auto.
    + rewrite lookup_insert_ne in Hv by congruence. eauto.
  - intros k' th' Hk'. apply pool_insert_cases in Hk'.
    destruct Hk' as [[-> ->]|[Hn Hk']].
    + split.
      * intros s' Hc. discriminate Hc.
      * intros s' i' [Heq|Heq]; inversion Heq; subst.
        split; [apply lookup_insert_eq | exact Hi].
    + destruct (P2 _ _ Hk') as [Hr Hidx]. split.
      * intros s' Hc. rewrite lookup_insert_ne; [eauto|].
        intros <-. exact (Hfree _ _ Hn Hk' Hc).
      * intros s' i' Hth. destruct (Hidx s' i' Hth) as [Hv Hpos].
        split; [|exact Hpos]. rewrite lookup_insert_ne; [exact Hv|].
        intros <-. rewrite Hs in Hv. inversion Hv.
        unfold LOOKUP_READY_PUSH in *. lia.
  - intros k1 k2 th1 th2 s' Hk1 Hk2 Hc1 Hc2.
    apply pool_insert_cases in Hk1, Hk2.
    destruct Hk1 as [[-> ->]|[Hn1 Hk1]]; [discriminate Hc1|].
    destruct Hk2 as [[-> ->]|[Hn2 Hk2]]; [discriminate Hc2|]. eauto.
  - exact P4.
  - intros s' Hin. destruct (P5 s' Hin) as [(v & Hv & Hne) Hno]. split.
    + destruct (decide (s' = s)) as [->|Hss].
      * exists i. rewrite lookup_insert_eq. split; [reflexivity|].
        unfold LOOKUP_DEACTIVE. lia.
      * exists v. rewrite lookup_insert_ne by congruence. split; assumption.
    + intros Hadd. apply (some_thread_insert adding _ _ _ _ Hk) in Hadd.
      destruct Hadd as [Heq|Hadd]; [discriminate Heq | auto].
  - intros s' v Hv Hne.
    assert (Hold : In s' log \/ some_thread adding pl s').
    { destruct (decide (s' = s)) as [->|Hss].
      - apply (P6 _ _ Hs). discriminate.
      - rewrite lookup_insert_ne in Hv by congruence. eauto. }
    destruct Hold as [Hin|Hadd]; [left; exact Hin|].
    right. apply (some_thread_other adding _ _ _ _ Hk); [exact Hadd|].
    discriminate.
  - rewrite map_size_insert_Some by eauto. exact P7.
Qed.

(** The log is no longer than the lookup table. *)
Lemma log_bound (pl : list thread) (lk : gmap Z Z) (log : list Z) :
  protocol pl lk log -> Z.of_nat (length log) < 2 ^ 32.
Proof.
  intros [P1 P2 P3 P4 P5 P6 P7].
  assert (Hsub : log ⊆+ (map_to_list lk).*1).
  { apply NoDup_submseteq; [exact P4|]. intros s Hs.
    apply list_elem_of_In in Hs. destruct (P5 s Hs) as [(v & Hv & _) _].
    apply list_elem_of_fmap. exists (s, v). split; [reflexivity|].
    apply elem_of_map_to_list. exact Hv. }
  apply submseteq_length in Hsub.
  rewrite length_fmap, length_map_to_list in Hsub. lia.
Qed.

Lemma index_claims (th : thread) (s j : Z) :
  index_of th = Some (s, j) -> claims th = Some s.
Proof. destruct th; intros Hi; inversion Hi; reflexivity. Qed.

Lemma pending_index (th : thread) (x : Z * Z) :
  pending_of th = Some x -> index_of th = Some x.
Proof. destruct th; intros Hi; inversion Hi; reflexivity. Qed.

(** A state has one index. *)
Lemma owns_index_unique (pl : list thread) (lk : gmap Z Z) (log : list Z)
    (s j j' : Z) :
  protocol pl lk log -> owns pl lk s j -> owns pl lk s j' -> j = j'.
Proof.
  intros HP H1 H2.
  assert (Hmixed : forall a b, some_thread index_of pl (s, a) ->
                     lk !! s = Some b /\ 0 <= b -> False).
  { intros a b (k & th & Hk & Hi) [Hv Hpos].
    destruct (pr_threads _ _ _ HP _ _ Hk) as [Hr _].
    rewrite (Hr _ (index_claims _ _ _ Hi)) in Hv. inversion Hv.
    unfold LOOKUP_READY_PUSH in *. lia. }
  destruct H1 as [H1|H1], H2 as [H2|H2].
  - destruct H1 as (k1 & th1 & Hk1 & Hi1), H2 as (k2 & th2 & Hk2 & Hi2).
    assert (k1 = k2)
      by (eapply (pr_claim _ _ _ HP); eauto using index_claims).
    subst k2. rewrite Hk1 in Hk2. inversion Hk2; subst th2.
    rewrite Hi1 in Hi2. inversion Hi2. reflexivity.
  - destruct (Hmixed _ _ H1 H2).
  - destruct (Hmixed _ _ H2 H1).
  - destruct H1 as [H1 _], H2 as [H2 _]. rewrite H1 in H2.
    inversion H2. reflexivity.
Qed.

Lemma ownership_same (pl pl' : list thread) (lk lk' : gmap Z Z) (n : Z)
    (v : CudaVector.t TokenState) :
  (forall s j, owns pl' lk' s j <-> owns pl lk s j) ->
  (forall x, some_thread pending_of pl' x <-> some_thread pending_of pl x) ->
  (forall x, some_thread clamp_of pl x -> some_thread clamp_of pl' x) ->
  ownership pl lk n v -> ownership pl' lk' n v.
Proof.
  intros Ho Hp Hc [O1 O2 O3 O4 O5 O6 O7]. constructor.
  - exact O1.
  - exact O2.
  - destruct O3 as [O3|[x O3]]; [left; exact O3 | right; eauto].
  - intros s j Hs. apply Ho in Hs. eauto.
  - intros s s' j Hs Hs'. apply Ho in Hs, Hs'. eauto.
  - intros j Hj Hc'. destruct (O6 j Hj Hc') as [s Hs]. exists s.
    apply Ho. exact Hs.
  - intros s j Hs Hc'. apply Ho in Hs.
    destruct (O7 s j Hs Hc') as [Hpe|Hcell]; [left; apply Hp; exact Hpe|].
    right. exact Hcell.
Qed.

Lemma owns_keep (pl : list thread) (lk : gmap Z Z) (k : nat)
    (th th' : thread) (s j : Z) :
  pl !! k = Some th -> index_of th' = index_of th ->
  owns (<[k := th']> pl) lk s j <-> owns pl lk s j.
Proof.
  intros Hk Hi. unfold owns.
  rewrite (some_thread_keep index_of pl k th th' Hk (s, j) Hi). reflexivity.
Qed.

(** A step of a thread that is not within [PushBack] and leaves the memory
    as it is. *)
Lemma ownership_move (pl : list thread) (lk : gmap Z Z) (n : Z)
    (v : CudaVector.t TokenState) (k : nat) (th th' : thread) :
  pl !! k = Some th ->
  index_of th' = index_of th ->
  pending_of th' = pending_of th ->
  clamp_of th' = clamp_of th ->
  ownership pl lk n v -> ownership (<[k := th']> pl) lk n v.
Proof.
  intros Hk Hi Hp Hc. apply ownership_same.
  - intros s j. apply owns_keep with (th := th); assumption.
  - intros x. apply (some_thread_keep pending_of pl k th th' Hk x Hp).
  - intros x. apply (some_thread_keep clamp_of pl k th th' Hk x Hc).
Qed.

(** The slot of a state goes from one negative value to another. *)
Lemma ownership_claim (pl : list thread) (lk : gmap Z Z) (n : Z)
    (v : CudaVector.t TokenState) (k : nat) (s : Z) :
  pl !! k = Some (AtCAS s) ->
  lk !! s = Some LOOKUP_DEACTIVE ->
  ownership pl lk n v ->
  ownership (<[k := AtAdd s]> pl) (<[s := LOOKUP_READY_PUSH]> lk) n v.
Proof.
  intros Hk Hs. apply ownership_same.
  - intros s' j. unfold owns.
    rewrite (some_thread_keep index_of pl k _ (AtAdd s) Hk (s', j) eq_refl).
    destruct (decide (s' = s)) as [->|Hne].
    + rewrite lookup_insert_eq, Hs.
      unfold LOOKUP_READY_PUSH, LOOKUP_DEACTIVE.
      split; (intros [Ht|[Hv Hpos]]; [left; exact Ht|]);
        inversion Hv; lia.
    + rewrite lookup_insert_ne by congruence. reflexivity.
  - intros x. apply (some_thread_keep pending_of pl k _ (AtAdd s) Hk x eq_refl).
  - intros x. apply (some_thread_keep clamp_of pl k _ (AtAdd s) Hk x eq_refl).
Qed.

(** The index of a state goes from its thread to the lookup table. *)
Lemma ownership_record (pl : list thread) (lk : gmap Z Z) (log : list Z)
    (n : Z) (v : CudaVector.t TokenState) (k : nat) (s i : Z) :
  protocol pl lk log ->
  pl !! k = Some (AtRecord s i) ->
  0 <= i ->
  ownership pl lk n v ->
  ownership (<[k := AtAlloc s i]> pl) (<[s := i]> lk) n v.
Proof.
  intros HP Hk Hi.
  assert (Hs : lk !! s = Some LOOKUP_READY_PUSH).
  { destruct (pr_threads _ _ _ HP _ _ Hk) as [Hr _]. apply Hr. reflexivity. }
  apply ownership_same.
  - intros s' j. split.
    + intros [Ht|[Hv Hpos]].
      * apply (some_thread_insert index_of _ _ _ _ Hk) in Ht.
        destruct Ht as [Heq|Ht]; [discriminate Heq | left; exact Ht].
      * destruct (decide (s' = s)) as [->|Hne].
        -- rewrite lookup_insert_eq in Hv. inversion Hv; subst j.
           left. exists k, (AtRecord s i). split; [exact Hk | reflexivity].
        -- rewrite lookup_insert_ne in Hv by congruence. right. auto.
    + intros [(k' & th0 & Hk' & Hi0)|[Hv Hpos]].
      * destruct (decide (k' = k)) as [->|Hne].
        -- rewrite Hk in Hk'. inversion Hk'; subst th0.
           inversion Hi0; subst. right.
           split; [apply lookup_insert_eq | exact Hi].
        -- left. exists k', th0. split; [|exact Hi0].
           rewrite list_lookup_insert_ne by congruence. exact Hk'.
      * right. split; [|exact Hpos]. rewrite lookup_insert_ne; [exact Hv|].
        intros <-. rewrite Hs in Hv. inversion Hv.
        unfold LOOKUP_READY_PUSH in *. lia.
  - intros x. apply (some_thread_keep pending_of pl k _ (AtAlloc s i) Hk x eq_refl).
  - intros x. apply (some_thread_keep clamp_of pl k _ (AtAlloc s i) Hk x eq_refl).
Qed.

(** The [atomicAdd] of the thread [k]. *)
Lemma ownership_add (pl : list thread) (lk : gmap Z Z) (log : list Z)
    (v : CudaVector.t TokenState) (k : nat) (s : Z) :
  protocol pl lk log ->
  pl !! k = Some (AtAdd s) ->
  Z.of_nat (length (s :: log)) < 2 ^ 32 ->
  ownership pl lk (Z.of_nat (length log)) v ->
  ownership (<[k := AtClamp s (CudaVector.fetch_add v).1]> pl) lk
    (Z.of_nat (length (s :: log))) (CudaVector.fetch_add v).2.
Proof.
  intros HP Hk Hlen [O1 O2 O3 O4 O5 O6 O7].
  set (c := CudaVector.count_d v) in *.
  change ((CudaVector.fetch_add v).1) with c.
  assert (Hcount : CudaVector.count_d (CudaVector.fetch_add v).2 = c + 1).
  { simpl. apply CudaVectorFacts.uint32_small.
    simpl length in Hlen. lia. }
  assert (Hcap : CudaVector.max_size (CudaVector.fetch_add v).2 =
                 CudaVector.max_size v) by reflexivity.
  assert (Hmem : CudaVector.mem_d (CudaVector.fetch_add v).2 =
                 CudaVector.mem_d v) by reflexivity.
  assert (Hn : Z.of_nat (length (s :: log)) = Z.of_nat (length log) + 1)
    by (simpl length; lia).
  assert (Howns : forall s' j, owns (<[k := AtClamp s c]> pl) lk s' j <->
                    owns pl lk s' j \/ (s' = s /\ j = c)).
  { intros s' j. split.
    - intros [Ht|Hl]; [|left; right; exact Hl].
      apply (some_thread_insert index_of _ _ _ _ Hk) in Ht.
      destruct Ht as [Heq|Ht]; [inversion Heq; auto | left; left; exact Ht].
    - intros [[Ht|Hl]|[-> ->]].
      + left. apply (some_thread_other index_of _ _ _ _ Hk); [exact Ht|].
        discriminate.
      + right. exact Hl.
      + left. apply (some_thread_self index_of _ _ _ _ Hk). reflexivity. }
  rewrite Hn. constructor; rewrite ?Hcount, ?Hcap, ?Hmem.
  - exact O1.
  - lia.
  - right. exists (s, c).
    apply (some_thread_self clamp_of _ _ _ _ Hk). reflexivity.
  - intros s' j Hs. apply Howns in Hs. destruct Hs as [Hs|[-> ->]].
    + destruct (O4 _ _ Hs) as [Hr Hd]. lia.
    + lia.
  - intros s1 s2 j H1 H2 Hj. apply Howns in H1, H2.
    destruct H1 as [H1|[-> ->]], H2 as [H2|[-> Hc2]].
    + eauto.
    + subst j. destruct (O4 _ _ H1) as [_ Hd]. lia.
    + destruct (O4 _ _ H2) as [_ Hd]. lia.
    + reflexivity.
  - intros j Hj Hc'. destruct (decide (j = c)) as [->|Hne].
    + exists s. apply Howns. right. auto.
    + destruct (O6 j ltac:(lia) Hc') as [s' Hs']. exists s'.
      apply Howns. left. exact Hs'.
  - intros s' j Hs Hc'. apply Howns in Hs. destruct Hs as [Hs|[-> ->]].
    + destruct (O7 _ _ Hs Hc') as [Hpe|Hcell]; [|right; exact Hcell].
      left. apply (some_thread_other pending_of _ _ _ _ Hk); [exact Hpe|].
      discriminate.
    + left. apply (some_thread_self pending_of _ _ _ _ Hk). reflexivity.
Qed.

(** The test of the counter by the thread [k]. *)
Lemma ownership_clamp (b : build) (pl : list thread) (lk : gmap Z Z) (n : Z)
    (v v' : CudaVector.t TokenState) (k : nat) (s i : Z) :
  pl !! k = Some (AtClamp s i) ->
  CudaVector.clamp_count b v = Ret v' ->
  ownership pl lk n v ->
  ownership (<[k := AtStore s i]> pl) lk n v'.
Proof.
  intros Hk Hclamp [O1 O2 O3 O4 O5 O6 O7].
  assert (Hv' : CudaVector.max_size v' = CudaVector.max_size v /\
                CudaVector.mem_d v' = CudaVector.mem_d v /\
                CudaVector.count_d v' <= CudaVector.max_size v - 1 /\
                0 <= CudaVector.count_d v' <= CudaVector.count_d v /\
                (CudaVector.count_d v' = CudaVector.count_d v \/
                 CudaVector.count_d v' = CudaVector.max_size v - 1)).
  { unfold CudaVector.clamp_count in Hclamp. destruct b.
    - unfold_outcome. unfold assert in Hclamp.
      destruct (CudaVector.count_d v <? CudaVector.max_size v) eqn:E;
        simpl in Hclamp; [|discriminate].
      apply Z.ltb_lt in E. inversion Hclamp; subst v'.
      repeat split; lia || auto.
    - destruct (CudaVector.max_size v <=? CudaVector.count_d v) eqn:E;
        inversion Hclamp; subst v'; simpl.
      + apply Z.leb_le in E.
        rewrite CudaVectorFacts.uint32_small by lia.
        repeat split; lia || auto.
      + apply Z.leb_gt in E. repeat split; lia || auto. }
  destruct Hv' as (Hcap & Hmem & Hle & Hcnt & Hcases).
  assert (Howns : forall s' j, owns (<[k := AtStore s i]> pl) lk s' j <->
                               owns pl lk s' j).
  { intros s' j. apply owns_keep with (th := AtClamp s i);
      [exact Hk | reflexivity]. }
  assert (Hpend : forall x, some_thread pending_of (<[k := AtStore s i]> pl) x
                            <-> some_thread pending_of pl x).
  { intros x.
    apply (some_thread_keep pending_of pl k _ (AtStore s i) Hk x eq_refl). }
  constructor; rewrite ?Hcap, ?Hmem.
  - exact O1.
  - lia.
  - left. exact Hle.
  - intros s' j Hs. apply Howns in Hs. destruct (O4 _ _ Hs) as [Hr Hd].
    split; [exact Hr|]. lia.
  - intros s1 s2 j H1 H2. apply Howns in H1, H2. eauto.
  - intros j Hj Hc'. destruct (O6 j ltac:(lia) Hc') as [s' Hs'].
    exists s'. apply Howns. exact Hs'.
  - intros s' j Hs Hc'. apply Howns in Hs. rewrite Hpend. eauto.
Qed.

(** The store of the thread [k]. *)
Lemma ownership_store (pl : list thread) (lk : gmap Z Z) (log : list Z)
    (n : Z) (v : CudaVector.t TokenState) (k : nat) (s i : Z)
    (x : TokenState) :
  protocol pl lk log ->
  pl !! k = Some (AtStore s i) ->
  state x = s ->
  ownership pl lk n v ->
  ownership (<[k := AtRecord s i]> pl) lk n (CudaVector.store i x v).
Proof.
  intros HP Hk Hx HO. pose proof HO as [O1 O2 O3 O4 O5 O6 O7].
  assert (Hmine : owns pl lk s i).
  { left. exists k, (AtStore s i). split; [exact Hk | reflexivity]. }
  assert (Howns : forall s' j, owns (<[k := AtRecord s i]> pl) lk s' j <->
                               owns pl lk s' j).
  { intros s' j. apply owns_keep with (th := AtStore s i);
      [exact Hk | reflexivity]. }
  constructor; simpl.
  - exact O1.
  - exact O2.
  - destruct O3 as [O3|[y O3]]; [left; exact O3|]. right. exists y.
    apply (some_thread_keep clamp_of pl k _ (AtRecord s i) Hk y eq_refl).
    exact O3.
  - intros s' j Hs. apply Howns in Hs. eauto.
  - intros s1 s2 j H1 H2. apply Howns in H1, H2. eauto.
  - intros j Hj Hc'. destruct (O6 j Hj Hc') as [s' Hs'].
    exists s'. apply Howns. exact Hs'.
  - intros s' j Hs Hc'. apply Howns in Hs.
    destruct (decide (s' = s)) as [->|Hne].
    + rewrite (owns_index_unique _ _ _ _ _ _ HP Hs Hmine).
      right. exists x. split; [apply lookup_insert_eq | exact Hx].
    + assert (Hj : j <> i).
      { intros ->. apply Hne. exact (O5 _ _ _ Hs Hmine Hc'). }
      rewrite lookup_insert_ne by congruence.
      destruct (O7 _ _ Hs Hc') as [Hpe|Hcell]; [|right; exact Hcell].
      left. apply (some_thread_other pending_of _ _ _ _ Hk); [exact Hpe|].
      simpl. congruence.
Qed.

(** A store that keeps the state of every token state. *)
Lemma ownership_cells (pl : list thread) (lk : gmap Z Z) (n : Z)
    (v v' : CudaVector.t TokenState) :
  CudaVector.count_d v' = CudaVector.count_d v ->
  CudaVector.max_size v' = CudaVector.max_size v ->
  (forall j a, CudaVector.mem_d v !! j = Some a ->
     exists a', CudaVector.mem_d v' !! j = Some a' /\ state a' = state a) ->
  ownership pl lk n v -> ownership pl lk n v'.
Proof.
  intros Hc Hm Hcells [O1 O2 O3 O4 O5 O6 O7].
  constructor; rewrite ?Hc, ?Hm; try assumption.
  intros s j Hs Hj. destruct (O7 _ _ Hs Hj) as [Hpe|(a & Ha & Hst)];
    [left; exact Hpe|].
  right. destruct (Hcells _ _ Ha) as (a' & Ha' & Hst').
  exists a'. split; [exact Ha' | congruence].
Qed.

Lemma frame_start_invariant (sys : system) :
  frame_start sys -> invariant sys.
Proof.
  intros (Hc & Hm & Hsz & Hl & Hp & Hlog).
  assert (Hno : forall {A : Type} (f : thread -> option A) x,
            (forall s, f (AtTest s) = None) ->
            ~ some_thread f (pool sys) x).
  { intros A f x Hf (k & th & Hk & Hx). destruct (Hp _ _ Hk) as [s ->].
    rewrite Hf in Hx. discriminate Hx. }
  assert (Hnone : forall s j, ~ owns (pool sys) (lookup_of (memory sys)) s j).
  { intros s j [Ht|[Hv Hpos]].
    - exact (Hno _ index_of _ (fun _ => eq_refl) Ht).
    - apply Hl in Hv. unfold LOOKUP_DEACTIVE in Hv. lia. }
  split.
  - constructor.
    + intros s v Hv. left. eauto.
    + intros k th Hk. destruct (Hp _ _ Hk) as [s ->].
      apply thread_ok_quiet; [reflexivity|]. intros s' i. split; discriminate.
    + intros k1 k2 th1 th2 s Hk1 _ Hc1. destruct (Hp _ _ Hk1) as [s1 ->].
      discriminate Hc1.
    + rewrite Hlog. constructor.
    + rewrite Hlog. intros s [].
    + intros s v Hv Hne. destruct (Hne (Hl _ _ Hv)).
    + exact Hsz.
  - rewrite Hlog. constructor; rewrite ?Hc.
    + exact Hm.
    + simpl. lia.
    + left. lia.
    + intros s j Hs. destruct (Hnone _ _ Hs).
    + intros s s' j Hs. destruct (Hnone _ _ Hs).
    + intros j Hj. lia.
    + intros s j Hs. destruct (Hnone _ _ Hs).
Qed.

(** Every step of every thread keeps the invariant. *)
Lemma sched_step_invariant (p : Decoder.params) (sys sys' : system)
    (item : nat * Z) :
  invariant sys -> sched_step p sys item = Ret sys' -> invariant sys'.
Proof.
  intros [HP HO] HS. unfold sched_step in HS.
  destruct (pool sys !! item.1) as [th|] eqn:Hk;
    [|inversion HS; subst; split; assumption].
  assert (Hquiet : forall th',
            claims th = None -> adding th' = None -> claims th' = None ->
            index_of th' = None -> pending_of th' = None ->
            clamp_of th' = None ->
            thread_ok (lookup_of (memory sys)) th' ->
            invariant (mkSystem (<[item.1 := th']> (pool sys)) (memory sys)
                         (pushes sys))).
  { intros th' Hc Ha' Hc' Hi' Hp' Hcl' Hok.
    assert (Ha : adding th = None) by (destruct th; discriminate || reflexivity).
    assert (Hi : index_of th = None) by (destruct th; discriminate || reflexivity).
    assert (Hpe : pending_of th = None)
      by (destruct th; discriminate || reflexivity).
    assert (Hcl : clamp_of th = None)
      by (destruct th; discriminate || reflexivity).
    split; simpl.
    - apply protocol_keep with (th := th); congruence || assumption.
    - apply ownership_move with (th := th); congruence || assumption. }
  destruct th as [s|s|s|s i|s i|s i|s i|s|s i]; simpl in HS; unfold_outcome.
  - (* the read of the slot *)
    destruct (load _ s) as [idx|] eqn:HL; simpl in HS; [|discriminate].
    inversion HS; subst sys'.
    apply Hquiet; try (destruct (idx =? LOOKUP_DEACTIVE); reflexivity).
    apply thread_ok_quiet; destruct (idx =? LOOKUP_DEACTIVE);
      try reflexivity; intros s' i; split; discriminate.
  - (* the compare-and-swap *)
    destruct (load _ s) as [idx|] eqn:HL; simpl in HS; [|discriminate].
    apply load_Ret in HL.
    destruct (idx =? LOOKUP_DEACTIVE) eqn:E; inversion HS; subst sys'.
    + apply Z.eqb_eq in E. subst idx. split; simpl.
      * exact (protocol_claim _ _ _ _ _ HP Hk HL).
      * exact (ownership_claim _ _ _ _ _ _ Hk HL HO).
    + apply Hquiet; try reflexivity.
      apply thread_ok_quiet; [reflexivity|]. intros s' i. split; discriminate.
  - (* atomicAdd *)
    inversion HS; subst sys'. simpl.
    pose proof (protocol_add _ _ _ _ _
                  (CudaVector.count_d (cur_vector (memory sys))) HP Hk) as HP'.
    split; simpl.
    + exact HP'.
    + exact (ownership_add _ _ _ _ _ _ HP Hk (log_bound _ _ _ HP') HO).
  - (* the test of the counter *)
    destruct (CudaVector.clamp_count _ _) as [v|] eqn:HC; simpl in HS;
      [|discriminate].
    inversion HS; subst sys'. split; simpl.
    + apply protocol_keep with (th := AtClamp s i); try reflexivity;
        try assumption.
      apply (thread_ok_claims _ (AtClamp s i));
        [reflexivity | intros s' i'; split; discriminate|].
      exact (pr_threads _ _ _ HP _ _ Hk).
    + exact (ownership_clamp _ _ _ _ _ _ _ _ _ Hk HC HO).
  - (* the store *)
    inversion HS; subst sys'. split; simpl.
    + apply protocol_keep with (th := AtStore s i); try reflexivity;
        try assumption.
      apply (thread_ok_claims _ (AtStore s i));
        [reflexivity | intros s' i'; split; discriminate|].
      exact (pr_threads _ _ _ HP _ _ Hk).
    + exact (ownership_store _ _ _ _ _ _ _ _ (Decoder.TokenState_new s)
               HP Hk eq_refl HO).
  - (* the index goes to the lookup table *)
    inversion HS; subst sys'.
    assert (Hi : 0 <= i).
    { destruct (ow_range _ _ _ _ HO s i) as [Hr _]; [|lia].
      left. exists item.1, (AtRecord s i). split; [exact Hk | reflexivity]. }
    split; simpl.
    + exact (protocol_record _ _ _ _ _ _ HP Hk Hi).
    + exact (ownership_record _ _ _ _ _ _ _ _ HP Hk Hi HO).
  - (* tok_idx_allocated *)
    destruct (LatticeProcessor.GetTokenAllocIdx _ _ _) as [tok_idx|];
      simpl in HS; [|discriminate].
    destruct (CudaVector.get _ _) as [ts|] eqn:HG; simpl in HS; [|discriminate].
    destruct (CudaVector.set _ _ _) as [v|] eqn:HV; simpl in HS; [|discriminate].
    inversion HS; subst sys'.
    assert (Hinv : invariant (mkSystem (<[item.1 := AtSpin s]> (pool sys))
                                (memory sys) (pushes sys))).
    { apply Hquiet; try reflexivity.
      apply thread_ok_quiet; [reflexivity|]. intros s' i'. split; discriminate. }
    destruct Hinv as [HP' HO']. split; simpl; [exact HP'|].
    simpl in HO'. revert HO'.
    unfold CudaVector.get, CudaVector.set in *. unfold_outcome.
    destruct (assert _ _) as [[]|]; simpl in *; [|discriminate].
    apply load_Ret in HG. inversion HV; subst v. clear HV.
    apply ownership_cells; [reflexivity | reflexivity|].
    intros j a Ha. simpl. destruct (decide (j = uint32 i)) as [->|Hne].
    + rewrite lookup_insert_eq. eexists. split; [reflexivity|].
      rewrite HG in Ha. inversion Ha. reflexivity.
    + rewrite lookup_insert_ne by congruence. eauto.
  - (* the loop *)
    destruct (load _ s) as [idx|] eqn:HL; simpl in HS; [|discriminate].
    apply load_Ret in HL. inversion HS; subst sys'.
    destruct ((idx =? LOOKUP_DEACTIVE) || (idx =? LOOKUP_READY_PUSH)) eqn:E.
    + apply Hquiet; try reflexivity.
      apply thread_ok_quiet; [reflexivity|]. intros s' i. split; discriminate.
    + apply Hquiet; try reflexivity.
      apply orb_false_iff in E. destruct E as [E1 E2].
      apply Z.eqb_neq in E1, E2. split; [discriminate|].
      intros s' i [Heq|Heq]; inversion Heq; subst.
      split; [exact HL|].
      destruct (pr_lookup _ _ _ HP _ _ HL) as [?|[?|?]];
        congruence || assumption.
  - inversion HS; subst sys'. apply Hquiet; try reflexivity.
    apply thread_ok_quiet; [reflexivity|]. intros s' i'. split; discriminate.
Qed.

Lemma run_invariant (p : Decoder.params) (sched : list (nat * Z))
    (sys sys' : system) :
  invariant sys -> run p sched sys = Ret sys' -> invariant sys'.
Proof.
  revert sys. induction sched as [|item rest IH]; intros sys Hinv HR.
  - inversion HR; subst. exact Hinv.
  - simpl in HR. unfold_outcome.
    destruct (sched_step p sys item) as [sys1|] eqn:HS; simpl in HR;
      [|discriminate].
    exact (IH _ (sched_step_invariant _ _ _ _ Hinv HS) HR).
Qed.

(** C4.  Threads enter [_find_or_add_token_arc] at the start of a frame,
    where [cur_toks] is empty and every slot of the lookup table is
    inactive, and take their steps (the read of the slot, the
    compare-and-swap, the [atomicAdd], the test of the counter and the
    store of [PushBack], the store of the index, the store of
    [tok_idx_allocated], a trip of the [while] loop) in any order, each
    thread entering the function again as often as the schedule has it.
    Whenever the schedule stops: no state went into [PushBack] twice; a
    thread that has left the loop with the index [i] for the state [s]
    found the index that the one push for [s] recorded in the lookup
    table, and the cell [i], when it is not the last cell of the vector,
    holds a token state of [s]; and once no thread is within [PushBack]
    the cells of [cur_toks] below its size hold at most one token state
    for a state. *)
Theorem one_token_state_per_state (p : Decoder.params)
    (sched : list (nat * Z)) (sys sys' : system) :
  frame_start sys ->
  run p sched sys = Ret sys' ->
  NoDup (pushes sys') /\
  (forall k s i, pool sys' !! k = Some (Found s i) ->
     In s (pushes sys') /\
     lookup_of (memory sys') !! s = Some i /\ 0 <= i /\
     (i < CudaVector.max_size (cur_vector (memory sys')) - 1 ->
      exists a, CudaVector.mem_d (cur_vector (memory sys')) !! i = Some a /\
                state a = s)) /\
  (no_push_under_way (pool sys') ->
   forall i j a b, holds (memory sys') i a -> holds (memory sys') j b ->
     state a = state b -> i = j).
Proof.
  intros Hstart HR.
  destruct (run_invariant _ _ _ _ (frame_start_invariant _ Hstart) HR)
    as [HP HO].
  assert (Hclaimed : forall s j,
            some_thread pending_of (pool sys') (s, j) ->
            lookup_of (memory sys') !! s = Some LOOKUP_READY_PUSH).
  { intros s j (k & th & Hk & Hpe).
    destruct (pr_threads _ _ _ HP _ _ Hk) as [Hr _]. apply Hr.
    exact (index_claims _ _ _ (pending_index _ _ Hpe)). }
  split; [exact (pr_nodup _ _ _ HP)|]. split.
  - intros k s i Hk.
    destruct (pr_threads _ _ _ HP _ _ Hk) as [_ Hidx].
    destruct (Hidx s i (or_intror eq_refl)) as [Hv Hi].
    split; [|split; [exact Hv|split; [exact Hi|]]].
    + destruct (pr_pushed _ _ _ HP s i Hv) as [Hin|(k' & th' & Hk' & Ha)].
      * unfold LOOKUP_DEACTIVE. lia.
      * exact Hin.
      * destruct (pr_threads _ _ _ HP _ _ Hk') as [Hr _].
        destruct th'; try discriminate Ha. inversion Ha; subst.
        rewrite (Hr s eq_refl) in Hv. inversion Hv.
        unfold LOOKUP_READY_PUSH in *. lia.
    + intros Hlt.
      destruct (ow_cells _ _ _ _ HO s i (or_intror (conj Hv Hi)) Hlt)
        as [Hpe|Hcell]; [|exact Hcell].
      rewrite (Hclaimed _ _ Hpe) in Hv. inversion Hv.
      unfold LOOKUP_READY_PUSH in *. lia.
  - intros Hquiet.
    assert (Hnone : forall {A : Type} (f : thread -> option A) x,
              (forall th y, f th = Some y -> pending_of th <> None) ->
              ~ some_thread f (pool sys') x).
    { intros A f x Hf (k & th & Hk & Hx). exact (Hf _ _ Hx (Hquiet _ _ Hk)). }
    assert (Hcount : CudaVector.count_d (cur_vector (memory sys')) <=
                     CudaVector.max_size (cur_vector (memory sys')) - 1).
    { destruct (ow_quiet _ _ _ _ HO) as [Hle|[x Hx]]; [exact Hle|].
      exfalso. apply (Hnone _ clamp_of x); [|exact Hx].
      intros th y Hy. destruct th; discriminate. }
    assert (Hcell : forall i a, holds (memory sys') i a ->
              owns (pool sys') (lookup_of (memory sys')) (state a) i).
    { intros i a [Hi Ha].
      destruct (ow_handed _ _ _ _ HO i Hi ltac:(lia)) as [s Hs].
      destruct (ow_cells _ _ _ _ HO s i Hs ltac:(lia))
        as [Hpe|(a' & Ha' & Hst)].
      - exfalso. apply (Hnone _ pending_of (s, i)); [|exact Hpe].
        intros th y Hy. congruence.
      - rewrite Ha in Ha'. inversion Ha'; subst a'. rewrite Hst. exact Hs. }
    intros i j a b Hi Hj Hab. apply Hcell in Hi, Hj. rewrite Hab in Hi.
    exact (owns_index_unique _ _ _ _ _ _ HP Hi Hj).
Qed.

End OneTokenState.

(** The theorem for three threads in the memory that [Examples.fresh] sets
    up: two of them look for the state 2 of [Examples.recombination_graph]
    and the third for the state 1.  The thread 0 wins the compare-and-swap
    for the state 2 and the thread 1 waits; the pushes of the threads 0
    and 2 overlap.  In the end the threads 0 and 1 hold the index 0 and
    the thread 2 the index 1, and [cur_toks] holds one token state for
    each of the two states. *)
Lemma one_token_state_per_state_witness :
  let p := Examples.recombination_graph Release 0 100 16 in
  let sched : list (nat * Z) :=
    map (fun k => (k, 0))
      [0; 1; 2; 0; 1; 2; 0; 2; 2; 0; 2; 0; 1; 0; 2; 1; 0; 2; 0; 2]%nat in
  let sys :=
    Activation.mkSystem
      [Activation.AtTest 2; Activation.AtTest 2; Activation.AtTest 1]
      (Examples.fresh p 8 (F32.of_Z 0)) [] in
  let sys' := result_or sys (Activation.run p sched sys) in
  Activation.frame_start sys /\
  Activation.run p sched sys = Ret sys' /\
  Activation.pool sys' =
    [Activation.Found 2 0; Activation.Found 2 0; Activation.Found 1 1] /\
  Activation.pushes sys' = [1; 2] /\
  CudaVector.count_d (vector (Decoder.cur_toks (Activation.memory sys')))
    = 2 /\
  (forall i j a b,
     Activation.holds (Activation.memory sys') i a ->
     Activation.holds (Activation.memory sys') j b ->
     state a = state b -> i = j).
Proof.
  intros p sched sys sys'.
  assert (Hstart : Activation.frame_start sys).
  { assert (Hl : Decoder.current_tokens_lookup (Activation.memory sys) =
                 Examples.cells [(0, -1); (1, -1); (2, -1)])
      by (vm_compute; reflexivity).
    split; [reflexivity|]. split; [vm_compute; split; discriminate|].
    split; [rewrite Hl; vm_compute; reflexivity|].
    split; [|split; [|reflexivity]].
    - intros s v. rewrite Hl. unfold Examples.cells. simpl.
      rewrite !lookup_insert_Some, lookup_empty. unfold LOOKUP_DEACTIVE.
      intuition congruence.
    - intros k th Hk.
      destruct k as [|[|[|k]]]; simpl in Hk; inversion Hk; eauto. }
  assert (HR : Activation.run p sched sys = Ret sys')
    by (apply returns_result_or; vm_compute; reflexivity).
  assert (Hpool : Activation.pool sys' =
            [Activation.Found 2 0; Activation.Found 2 0;
             Activation.Found 1 1]) by (vm_compute; reflexivity).
  split; [exact Hstart|]. split; [exact HR|]. split; [exact Hpool|].
  split; [vm_compute; reflexivity|]. split; [vm_compute; reflexivity|].
  destruct (one_token_state_per_state p sched sys sys' Hstart HR)
    as (_ & _ & Hunique).
  apply Hunique. intros k th Hk. rewrite Hpool in Hk.
  destruct k as [|[|[|k]]]; simpl in Hk; inversion Hk; reflexivity.
Defined.

(** ** The histogram pruning of the frame 1 *)

Section HistogramSkip.
Context `{DeviceUtils}.
Import Decoder.

(** C3.  At the frame 1 with more token states in [prev_toks] than
    [max_active], [_find_best_cutoff] does not compute [cutoff_prev]: the
    cell keeps what it held.  Yet a token of [prev_toks] whose cost is
    above that value is skipped by the token loop of [_find_best_cutoff]
    and by the token loop of [_process_emitting_tokens]: their test reads
    [size > max_active && cost > cutoff_prev] and not the frame. *)
Theorem histogram_skip_at_frame_1 (p : params) (st : t) :
  frame p = 1 ->
  max_active p < CudaVector.Size (vector (prev_toks st)) ->
  (forall st', _find_best_cutoff p st = Ret st' ->
     cutoff_prev st' = cutoff_prev st) /\
  (forall i ts tok local cutoff0,
     CudaVector.get (vector (prev_toks st)) i = Ret ts ->
     token_of p st ts = Ret tok ->
     F32.gtb (cost_ tok) (cutoff_prev st) = true ->
     cutoff_token p st (CudaVector.Size (vector (prev_toks st))) local i =
       Ret local /\
     emit_token p cutoff0 (CudaVector.Size (vector (prev_toks st))) st i =
       Ret st).
Proof.
  intros Hf Hsize. split.
  - intros st' HF. unfold _find_best_cutoff in HF. rewrite Hf in HF.
    rewrite andb_false_r in HF. unfold_outcome. simpl in HF.
    destruct (for_each _ _ _) as [local|]; simpl in HF; [|discriminate].
    inversion HF. reflexivity.
  - intros i ts tok local cutoff0 Hts Htok Hgt.
    assert (Hp : histogram_pruned p st
                   (CudaVector.Size (vector (prev_toks st))) tok = true).
    { unfold histogram_pruned. rewrite Hgt.
      apply Z.ltb_lt in Hsize. rewrite Hsize. reflexivity. }
    unfold cutoff_token, emit_token. rewrite Hts. unfold_outcome. simpl.
    rewrite Htok. simpl. rewrite Hp. split; reflexivity.
Qed.

End HistogramSkip.

(** The theorem for the frame 1 of [Examples.recombination_graph] with
    [max_active] 0, after the kernels of [InitDecoding] ran on a memory
    whose cell [cutoff_prev] holds -1: the one token of the frame 0, of
    cost 0, is skipped, [_find_best_cutoff] leaves the cutoff at +infinity,
    no token state is pushed, and [_process_tokens] ends on the assertion
    [size] of [_process_nonemitting_tokens].  Had the cell held +infinity
    the cutoff would be 2.125. *)
Lemma histogram_skip_at_frame_1_witness :
  let p0 := Examples.recombination_graph Release 0 0 16 in
  let p := Examples.recombination_graph Release 1 0 16 in
  let memory junk :=
    Decoder.PreProcessTokens
      (Examples.after_init p0 (Examples.fresh p0 8 junk)) in
  let st := memory (F32.of_Z (-1)) in
  let cutoff_after s :=
    match Decoder._find_best_cutoff p s with
    | Ret s' => Some (Decoder.cutoff s')
    | Trap _ => None
    end in
  CudaVector.Size (vector (Decoder.prev_toks st)) = 1 /\
  Decoder.cutoff_prev st = F32.of_Z (-1) /\
  Decoder.emit_token p (F32.of_Z 100) 1 st 0 = Ret st /\
  cutoff_after st = Some F32.INFINITY /\
  cutoff_after (memory F32.INFINITY) = Some (F32.make 17 (-3)) /\
  Decoder._process_tokens 11 p false st = Some (Trap (AssertFailed "size")).
Proof.
  intros p0 p memory st cutoff_after.
  assert (Hsize : CudaVector.Size (vector (Decoder.prev_toks st)) = 1)
    by (vm_compute; reflexivity).
  assert (Hmax : Decoder.max_active p <
                 CudaVector.Size (vector (Decoder.prev_toks st)))
    by (rewrite Hsize; vm_compute; reflexivity).
  set (ts := result_or (@Decoder.TokenState_new Examples.utils 0)
               (CudaVector.get (vector (Decoder.prev_toks st)) 0)).
  assert (Hts : CudaVector.get (vector (Decoder.prev_toks st)) 0 = Ret ts)
    by (apply returns_result_or; vm_compute; reflexivity).
  set (tok := result_or (Token_new F32.zero 0 None) (Decoder.token_of p st ts)).
  assert (Htok : Decoder.token_of p st ts = Ret tok)
    by (apply returns_result_or; vm_compute; reflexivity).
  assert (Hgt : F32.gtb (cost_ tok) (Decoder.cutoff_prev st) = true)
    by (vm_compute; reflexivity).
  destruct (histogram_skip_at_frame_1 p st eq_refl Hmax) as [_ Hskip].
  destruct (Hskip 0 ts tok [] (F32.of_Z 100) Hts Htok Hgt) as [_ Hemit].
  rewrite Hsize in Hemit.
  split; [exact Hsize|]. split; [vm_compute; reflexivity|].
  split; [exact Hemit|].
  split; [vm_compute; reflexivity|]. split; [vm_compute; reflexivity|].
  assert (Hr : match Decoder._process_tokens 11 p false st with
               | Some (Trap (AssertFailed c)) => String.eqb c "size"
               | _ => false
               end = true) by (vm_compute; reflexivity).
  destruct (Decoder._process_tokens 11 p false st) as [[|[c| | |]]|];
    try discriminate Hr.
  apply String.eqb_eq in Hr. subst c. reflexivity.
Defined.

(** * Further properties of the code *)

(** * Further properties of the code *)

(** ** The device side of a vector *)

Section VectorPushes.
Import CudaVector CudaVectorFacts.
Context {T : Type}.

(** [operator[]] at an index below the counter. *)
Lemma get_below (v : t T) (i : Z) :
  0 <= i < count_d v -> count_d v <= 2 ^ 32 ->
  get v i = load (mem_d v) i.
Proof.
  intros Hi Hc. unfold get. rewrite uint32_small by lia.
  unfold assert. destruct (i <? count_d v) eqn:E; [reflexivity|].
  apply Z.ltb_ge in E. lia.
Qed.

(** A push with room behind it, whatever the build. *)
Lemma PushBack_room (b : build) (v : t T) (x : T) :
  0 <= count_d v -> count_d v + 1 < max_size v -> max_size v <= 2 ^ 32 ->
  PushBack b v x =
    Ret (count_d v,
         store (count_d v) x (with_count (count_d v + 1) v)).
Proof.
  intros H0 H1 H2. unfold PushBack, fetch_add, clamp_count.
  rewrite (uint32_small (count_d v + 1)) by lia. destruct b; simpl.
  - unfold assert. destruct (count_d v + 1 <? max_size v) eqn:E;
      [reflexivity|]. apply Z.ltb_ge in E. lia.
  - destruct (max_size v <=? count_d v + 1) eqn:E; [|reflexivity].
    apply Z.leb_le in E. lia.
Qed.

(** X1.  Pushes and reads.  Pushes one after the other onto a vector that
    has room for them and one cell more return the indices from the size of
    the vector on, in either build; afterwards the size has grown by their
    number, [operator[]] finds each value at the index its push returned,
    and the elements that were there are read as before. *)
Theorem push_all_then_read (b : build) (vals : list T) (v : t T) :
  0 <= count_d v ->
  count_d v + Z.of_nat (length vals) < max_size v ->
  max_size v <= 2 ^ 32 ->
  exists v',
    push_all b v vals = Ret (seqZ (count_d v) (Z.of_nat (length vals)), v') /\
    Size v' = Size v + Z.of_nat (length vals) /\
    max_size v' = max_size v /\
    (forall (k : nat) (x : T), vals !! k = Some x ->
       get v' (count_d v + Z.of_nat k) = Ret x) /\
    (forall i, 0 <= i < count_d v -> get v' i = get v i).
Proof.
  revert v. induction vals as [|x vals IH]; intros v H0 H1 H2.
  - exists v. simpl in *. split; [reflexivity|]. split; [unfold Size; lia|].
    split; [reflexivity|]. split; [intros k y Hk; discriminate Hk|].
    intros i _. reflexivity.
  - simpl length in *.
    set (v1 := store (count_d v) x (with_count (count_d v + 1) v)).
    assert (Hc1 : count_d v1 = count_d v + 1) by reflexivity.
    assert (Hm1 : max_size v1 = max_size v) by reflexivity.
    destruct (IH v1 ltac:(lia) ltac:(lia) ltac:(lia))
      as (v' & Hpush & Hsize & Hmax & Hnew & Hold).
    exists v'. split.
    { simpl. rewrite PushBack_room by lia. fold v1. unfold_outcome. simpl.
      rewrite Hpush. simpl.
      replace (Z.of_nat (S (length vals))) with (Z.succ (Z.of_nat (length vals)))
        by lia.
      rewrite (seqZ_cons (count_d v)) by lia. rewrite Z.pred_succ.
      replace (Z.succ (count_d v)) with (count_d v + 1) by lia. reflexivity. }
    split; [unfold Size in *; lia|]. split; [congruence|]. split.
    + intros [|k] y Hk; simpl in Hk.
      * inversion Hk; subst y. rewrite Z.add_0_r.
        rewrite (Hold (count_d v)) by lia.
        rewrite get_below by lia. unfold v1. simpl.
        apply load_Ret, lookup_insert_eq.
      * rewrite <- (Hnew k y Hk). f_equal. lia.
    + intros i Hi. rewrite (Hold i) by lia.
      rewrite !get_below by lia. unfold v1. simpl.
      unfold load. rewrite lookup_insert_ne by lia. reflexivity.
Qed.

(** X2.  The last cell.  On the device a vector of [max_size] cells holds
    [max_size - 1] elements at most.  With [max_size - 1] elements in it, a
    push built with [__DEBUG__] fails its assertion; a push built without
    stores the value in the last cell and returns the index of this cell,
    but the size stays [max_size - 1], so that [operator[]] refuses the
    index that the push returned.  On the host the same push is accepted:
    its assertion comes before the increment, the size becomes [max_size]
    and the value can be read. *)
Theorem last_cell_of_a_vector (v : t T) (x : T) :
  count_d v = max_size v - 1 ->
  1 <= max_size v < 2 ^ 32 ->
  PushBack Debug v x = Trap (AssertFailed "*count_d < max_size") /\
  (exists v',
     PushBack Release v x = Ret (max_size v - 1, v') /\
     Size v' = max_size v - 1 /\
     mem_d v' !! (max_size v - 1) = Some x /\
     get v' (max_size v - 1) = Trap (AssertFailed "idx < *count_d")) /\
  (exists v',
     PushBack_host v x = Ret (max_size v - 1, v') /\
     Size v' = max_size v /\
     get v' (max_size v - 1) = Ret x).
Proof.
  intros Hc Hm. split; [|split].
  - unfold PushBack, fetch_add, clamp_count. simpl.
    rewrite Hc. replace (max_size v - 1 + 1) with (max_size v) by lia.
    rewrite uint32_small by lia. unfold assert.
    rewrite Z.ltb_irrefl. reflexivity.
  - destruct (PushBack_release v x) as (v' & Hp & Hmem & Hmax & Hcnt).
    rewrite Hc in *. replace (max_size v - 1 + 1) with (max_size v) in Hcnt
      by lia.
    rewrite (uint32_small (max_size v)) in Hcnt by lia.
    rewrite Z.leb_refl, uint32_small in Hcnt by lia.
    exists v'. split; [exact Hp|]. split; [exact Hcnt|].
    split; [rewrite Hmem; apply lookup_insert_eq|].
    unfold get. rewrite uint32_small by lia. rewrite Hcnt.
    unfold assert. rewrite Z.ltb_irrefl. reflexivity.
  - unfold PushBack_host, assert. rewrite Hc.
    destruct (max_size v - 1 <? max_size v) eqn:E;
      [|apply Z.ltb_ge in E; lia].
    simpl. eexists. split; [reflexivity|].
    replace (max_size v - 1 + 1) with (max_size v) by lia.
    split; [unfold Size; simpl; apply uint32_small; lia|].
    unfold get. simpl. rewrite !uint32_small by lia.
    unfold assert. destruct (max_size v - 1 <? max_size v) eqn:E';
      [|apply Z.ltb_ge in E'; lia].
    simpl. apply load_Ret, lookup_insert_eq.
Qed.

End VectorPushes.

(** The theorem for three pushes onto a vector of eight cells that holds
    one element. *)
Lemma push_all_then_read_witness :
  let v := CudaVector.mk 1 8 (Examples.cells [(0, 10)]) in
  exists v',
    CudaVector.push_all Release v [11; 12; 13] = Ret ([1; 2; 3], v') /\
    CudaVector.get v' 3 = Ret 13 /\
    CudaVector.get v' 0 = Ret 10.
Proof.
  intros v.
  destruct (push_all_then_read Release [11; 12; 13] v)
    as (v' & Hp & _ & _ & Hnew & Hold);
    [simpl; lia | simpl; lia | simpl; lia|].
  exists v'. split; [exact Hp|]. split.
  - exact (Hnew 2%nat 13 eq_refl).
  - rewrite (Hold 0) by (simpl; lia). vm_compute. reflexivity.
Defined.

(** The theorem for a vector of four cells that holds three elements. *)
Lemma last_cell_of_a_vector_witness :
  let v := CudaVector.mk 3 4 (Examples.cells [(0, 10); (1, 11); (2, 12)]) in
  CudaVector.PushBack Debug v 13 =
    Trap (AssertFailed "*count_d < max_size") /\
  exists v',
    CudaVector.PushBack_host v 13 = Ret (3, v') /\
    CudaVector.get v' 3 = Ret 13.
Proof.
  intros v.
  destruct (last_cell_of_a_vector v 13 eq_refl ltac:(simpl; lia))
    as (Hd & _ & v' & Hh & _ & Hg).
  split; [exact Hd|]. exists v'. split; [exact Hh | exact Hg].
Defined.

(** ** The frames of the lattice *)

Section LatticeFrames.
Import LatticeProcessor LatticeProcessorHost.

(** X3.  The three flags of back-pruning.  For every count of trips the
    three pointers of [UpdateModifiedFlags] are three different cells of
    [modified_d], and a trip later they have moved by one: the flag that was
    [modified1], which a trip clears, is the [modified0] of the next trip,
    which that trip raises; the old [modified0], which the test of the loop
    reads, is then [modified2]. *)
Theorem modified_flags_rotate (cnt : Z) :
  0 <= cnt ->
  let '(m0, m1, m2) := UpdateModifiedFlags cnt in
  let '(n0, n1, n2) := UpdateModifiedFlags (cnt + 1) in
  (0 <= m0 < 3 /\ 0 <= m1 < 3 /\ 0 <= m2 < 3) /\
  (m0 <> m1 /\ m1 <> m2 /\ m0 <> m2) /\
  n0 = m1 /\ n1 = m2 /\ n2 = m0.
Proof.
  intros Hc. unfold UpdateModifiedFlags.
  replace (cnt + 1 + 1) with (cnt + 2) by lia.
  replace (cnt + 1 + 2) with (cnt + 3) by lia.
  assert (H3 : (cnt + 3) mod 3 = cnt mod 3).
  { replace (cnt + 3) with (cnt + 1 * 3) by lia. apply Z.mod_add. lia. }
  rewrite H3.
  pose proof (Z.mod_pos_bound cnt 3 ltac:(lia)).
  pose proof (Z.mod_pos_bound (cnt + 1) 3 ltac:(lia)).
  pose proof (Z.mod_pos_bound (cnt + 2) 3 ltac:(lia)).
  pose proof (Z.div_mod cnt 3 ltac:(lia)).
  pose proof (Z.div_mod (cnt + 1) 3 ltac:(lia)).
  pose proof (Z.div_mod (cnt + 2) 3 ltac:(lia)).
  repeat split; lia.
Qed.

Lemma memset0_lookup (n : Z) (a : gmap Z Z) (i : Z) :
  memset0 n a !! i = if (0 <=? i) && (i <? n) then Some 0 else a !! i.
Proof.
  unfold memset0.
  assert (Hnat : forall k : nat,
            foldl (fun m j => <[j := 0]> m) a (seqZ 0 (Z.of_nat k)) !! i =
            if (0 <=? i) && (i <? Z.of_nat k) then Some 0 else a !! i).
  { induction k as [|k IH].
    - rewrite seqZ_nil by lia. cbn [foldl].
      destruct (0 <=? i) eqn:E1; [|reflexivity].
      destruct (i <? Z.of_nat 0) eqn:E2; [|reflexivity].
      apply Z.leb_le in E1. apply Z.ltb_lt in E2. lia.
    - rewrite seqZ_S, foldl_app. cbn [foldl]. rewrite Z.add_0_l.
      destruct (decide (i = Z.of_nat k)) as [->|Hne].
      + rewrite lookup_insert_eq.
        destruct (0 <=? Z.of_nat k) eqn:E1; [|apply Z.leb_gt in E1; lia].
        destruct (Z.of_nat k <? Z.of_nat (S k)) eqn:E2;
          [reflexivity | apply Z.ltb_ge in E2; lia].
      + rewrite lookup_insert_ne by congruence. rewrite IH.
        destruct (0 <=? i) eqn:E1; [|reflexivity]. cbn [andb].
        destruct (i <? Z.of_nat k) eqn:E2, (i <? Z.of_nat (S k)) eqn:E3;
          try reflexivity.
        * apply Z.ltb_lt in E2. apply Z.ltb_ge in E3. lia.
        * apply Z.ltb_ge in E2. apply Z.ltb_lt in E3. lia. }
  destruct (Z.le_gt_cases n 0) as [Hn|Hn].
  - rewrite seqZ_nil by lia. simpl.
    destruct (0 <=? i) eqn:E1, (i <? n) eqn:E2; try reflexivity.
    apply Z.leb_le in E1. apply Z.ltb_lt in E2. lia.
  - rewrite <- (Z2Nat.id n) at 1 2 by lia. apply Hnat.
Qed.

(** X4.  The tokens of a frame.  [CollectToksPerFrame] for the frame [fr]
    returns whatever the number of the tokens is, also when they do not fit
    into the pool: its assertion reads the start index of the frame 0.
    Afterwards the next frame starts where this one ends, [toks_num_used]
    has grown by the size, and [GetSize] returns the size of the frame when
    it lies between 0 and [arcs_buf_before_pr_size], the bound it has for
    tokens and arcs alike, and fails its assertion otherwise. *)
Theorem collect_toks_then_size (size fr s0 f0 : Z) (lp : t) :
  0 <= fr ->
  toks_bpr_fr_sidx_d lp !! fr = Some s0 ->
  toks_bpr_fr_sidx_d lp !! 0 = Some f0 ->
  f0 < toks_buf_before_pr_size lp ->
  exists lp',
    CollectToksPerFrame size fr lp = Ret lp' /\
    toks_bpr_fr_sidx_d lp' = <[fr + 1 := s0 + size]> (toks_bpr_fr_sidx_d lp) /\
    toks_num_used lp' = toks_num_used lp + size /\
    toks_bpr_d lp' = toks_bpr_d lp /\
    GetSize lp' (toks_bpr_fr_sidx_d lp') fr =
      if (0 <=? size) && (size <=? arcs_buf_before_pr_size lp)
      then Ret size
      else Trap (AssertFailed "size >= 0 && size <= arcs_buf_before_pr_size").
Proof.
  intros Hfr Hs Hf Hlt.
  unfold CollectToksPerFrame, SetNextSidx, assert.
  destruct (0 <=? fr) eqn:E; [|apply Z.leb_gt in E; lia].
  unfold_outcome. simpl. apply load_Ret in Hs. rewrite Hs. simpl.
  assert (Hf' : load (<[fr + 1 := s0 + size]> (toks_bpr_fr_sidx_d lp)) 0 =
                Ret f0).
  { apply load_Ret. rewrite lookup_insert_ne by lia. exact Hf. }
  rewrite Hf'. apply Z.ltb_lt in Hlt. rewrite Hlt. simpl.
  eexists. split; [reflexivity|]. simpl.
  split; [reflexivity|]. split; [reflexivity|]. split; [reflexivity|].
  unfold GetSize. unfold_outcome. simpl.
  assert (H1 : load (<[fr + 1 := s0 + size]> (toks_bpr_fr_sidx_d lp))
                 (fr + 1) = Ret (s0 + size))
    by (apply load_Ret, lookup_insert_eq).
  assert (H2 : load (<[fr + 1 := s0 + size]> (toks_bpr_fr_sidx_d lp)) fr =
               Ret s0).
  { apply load_Ret. rewrite lookup_insert_ne by lia.
    apply load_Ret. exact Hs. }
  rewrite H1, H2. simpl. replace (s0 + size - s0) with size by lia.
  unfold assert. destruct ((0 <=? size) && (size <=? _)); reflexivity.
Qed.


End LatticeFrames.

(** The theorem for the fifth trip: the flags are the cells 1, 2 and 0,
    and a trip later the cells 2, 0 and 1. *)
Lemma modified_flags_rotate_witness :
  LatticeProcessor.UpdateModifiedFlags 4 = (1, 2, 0) /\
  LatticeProcessor.UpdateModifiedFlags 5 = (2, 0, 1).
Proof.
  pose proof (modified_flags_rotate 4 ltac:(lia)) as H.
  destruct (LatticeProcessor.UpdateModifiedFlags 4) as [[m0 m1] m2] eqn:E4.
  destruct (LatticeProcessor.UpdateModifiedFlags (4 + 1)) as [[n0 n1] n2]
    eqn:E5.
  vm_compute in E4. inversion E4; subst m0 m1 m2.
  destruct H as (_ & _ & H0 & H1 & H2).
  split; [reflexivity|].
  change 5 with (4 + 1). rewrite E5, H0, H1, H2. reflexivity.
Defined.

(** The theorem for [Examples.two_branches], whose frame 2 starts at the
    cell 3: five tokens are collected for the frame. *)
Lemma collect_toks_then_size_witness :
  let lp := Examples.two_branches in
  exists lp',
    LatticeProcessor.CollectToksPerFrame 5 2 lp = Ret lp' /\
    LatticeProcessor.toks_num_used lp' = 8 /\
    LatticeProcessor.GetSize lp' (LatticeProcessor.toks_bpr_fr_sidx_d lp') 2 =
      Ret 5.
Proof.
  intros lp.
  destruct (collect_toks_then_size 5 2 3 0 lp)
    as (lp' & HC & _ & Hu & _ & HG);
    [lia | reflexivity | reflexivity | simpl; lia |].
  exists lp'. split; [exact HC|]. split; [exact Hu | exact HG].
Defined.


(** ** The end of a frame *)

Section FrameEnd.
Context `{DeviceUtils}.
Import Decoder.

Lemma reset_visited_for_each (l : list Z) (st st' : t) :
  for_each reset_visited l st = Ret st' ->
  st' = with_current_tokens_lookup (current_tokens_lookup st') st /\
  (forall i, In i l ->
     exists ts, CudaVector.get (vector (cur_toks st)) i = Ret ts /\
                current_tokens_lookup st' !! state ts = Some LOOKUP_DEACTIVE) /\
  (forall s,
     (forall i ts, In i l -> CudaVector.get (vector (cur_toks st)) i = Ret ts ->
        state ts <> s) ->
     current_tokens_lookup st' !! s = current_tokens_lookup st !! s) /\
  (forall s, current_tokens_lookup st !! s = Some LOOKUP_DEACTIVE ->
     current_tokens_lookup st' !! s = Some LOOKUP_DEACTIVE) /\
  (forall s v, current_tokens_lookup st' !! s = Some v ->
     v = LOOKUP_DEACTIVE \/ current_tokens_lookup st !! s = Some v).
Proof.
  revert st. induction l as [|i l IH]; intros st HF; simpl in HF.
  - inversion HF; subst st'. split; [destruct st; reflexivity|].
    split; [intros i []|]. split; [reflexivity|].
    split; [intros s Hs; exact Hs | intros s v Hv; right; exact Hv].
  - unfold reset_visited at 1 in HF. unfold_outcome.
    destruct (CudaVector.get (vector (cur_toks st)) i) as [ts|] eqn:Hts;
      simpl in HF; [|discriminate].
    destruct (IH _ HF) as (Heq & Hin & Hout & Hkeep & Hval). simpl in *.
    split; [rewrite Heq at 1; destruct st; reflexivity|].
    split; [|split; [|split]].
    + intros j [<-|Hj]; [|exact (Hin j Hj)].
      exists ts. split; [exact Hts|]. apply Hkeep, lookup_insert_eq.
    + intros s Hs. rewrite Hout.
      * apply lookup_insert_ne. apply (Hs i ts); [left; reflexivity|exact Hts].
      * intros j ts' Hj Hts'. apply (Hs j ts'); [right; exact Hj | exact Hts'].
    + intros s Hs. apply Hkeep.
      destruct (decide (s = state ts)) as [->|Hne].
      * apply lookup_insert_eq.
      * rewrite lookup_insert_ne by congruence. exact Hs.
    + intros s v Hv. destruct (Hval s v Hv) as [->|Hv']; [left; reflexivity|].
      destruct (decide (s = state ts)) as [->|Hne].
      * rewrite lookup_insert_eq in Hv'. inversion Hv'. left. reflexivity.
      * rewrite lookup_insert_ne in Hv' by congruence. right. exact Hv'.
Qed.

(** X6.  The end of a frame.  When [_process_tokens] returns, [cur_toks] is
    as the closure left it, the counters [pe_idx] and [fb_idx] of the two
    dispatchers are 0 and [num_arcs_till_last] and [arcs_bpr_used_d] are the
    size of the arc vector.  The slot of the lookup table of every state
    with a token state in [cur_toks] is inactive, and the other slots are as
    the closure left them: if before no slot but those of the states of
    [cur_toks] was active, every slot is inactive now, which is how the next
    frame has to find the table. *)
Theorem frame_end_resets_the_lookup_table (fuel : nat) (p : params)
    (is_init : bool) (st st' : t) (n : nat) :
  _process_tokens fuel p is_init st = Some (Ret (n, st')) ->
  exists cutoff0 st1 st2,
    process_tokens_begin p is_init st = Ret (cutoff0, st1) /\
    closure_loop fuel p is_init cutoff0 0 0 1 st1 = Some (Ret (n, st2)) /\
    cur_toks st' = cur_toks st2 /\
    pe_idx st' = 0 /\ fb_idx st' = 0 /\
    lat_arcs_count st' = lat_arcs_count st2 /\
    num_arcs_till_last st' = lat_arcs_count st2 /\
    LatticeProcessor.arcs_bpr_used_d (lattice_processor st') =
      lat_arcs_count st2 /\
    (forall i, 0 <= i < CudaVector.Size (vector (cur_toks st2)) ->
       exists ts, CudaVector.get (vector (cur_toks st2)) i = Ret ts /\
         current_tokens_lookup st' !! state ts = Some LOOKUP_DEACTIVE) /\
    (forall s,
       (forall i ts, 0 <= i < CudaVector.Size (vector (cur_toks st2)) ->
          CudaVector.get (vector (cur_toks st2)) i = Ret ts ->
          state ts <> s) ->
       current_tokens_lookup st' !! s = current_tokens_lookup st2 !! s) /\
    ((forall s v, current_tokens_lookup st2 !! s = Some v ->
        v <> LOOKUP_DEACTIVE ->
        exists i ts, 0 <= i < CudaVector.Size (vector (cur_toks st2)) /\
          CudaVector.get (vector (cur_toks st2)) i = Ret ts /\
          state ts = s) ->
     forall s v, current_tokens_lookup st' !! s = Some v ->
       v = LOOKUP_DEACTIVE).
Proof.
  unfold _process_tokens. intros HS.
  destruct (process_tokens_begin p is_init st) as [[c st1]|] eqn:HB;
    [|discriminate].
  destruct (closure_loop fuel p is_init c 0 0 1 st1) as [[[k st2]|]|] eqn:HC;
    try discriminate.
  destruct (process_tokens_end p st2) as [st3|] eqn:HE; [|discriminate].
  inversion HS; subst k st3. clear HS.
  exists c, st1, st2. split; [reflexivity|]. split; [exact HC|].
  unfold process_tokens_end in HE. unfold_outcome.
  destruct (LatticeProcessor.CollectToksPerFrame _ _ _) as [lp1|];
    simpl in HE; [|discriminate].
  destruct (LatticeProcessor.CollectArcsPerFrame _ _ _) as [lp2|] eqn:HA;
    simpl in HE; [|discriminate].
  destruct (_initialize_visited_states _) as [st3|] eqn:HV; simpl in HE;
    [|discriminate].
  inversion HE; subst st'. clear HE. simpl.
  unfold _initialize_visited_states, grid_stride_loop in HV. simpl in HV.
  destruct (reset_visited_for_each _ _ _ HV)
    as (Heq & Hin & Hout & Hkeep & Hval).
  simpl in Hin, Hout, Hkeep, Hval.
  assert (Hused : LatticeProcessor.arcs_bpr_used_d lp2 = lat_arcs_count st2).
  { unfold LatticeProcessor.CollectArcsPerFrame in HA. unfold_outcome.
    destruct (LatticeProcessor.SetNextSidx _ _ _); simpl in HA;
      [|discriminate].
    inversion HA. reflexivity. }
  assert (Hrange : forall i,
            In i (seqZ 0 (CudaVector.Size (vector (cur_toks st2)))) <->
            0 <= i < CudaVector.Size (vector (cur_toks st2))).
  { intros i. rewrite <- list_elem_of_In, elem_of_seqZ. lia. }
  rewrite Heq. simpl.
  split; [reflexivity|]. split; [reflexivity|]. split; [reflexivity|].
  split; [reflexivity|]. split; [reflexivity|]. split; [exact Hused|].
  split; [|split].
  - intros i Hi. apply Hin, Hrange. exact Hi.
  - intros s Hs. apply Hout. intros i ts Hi. apply Hs, Hrange. exact Hi.
  - intros Hall s v Hv.
    destruct (Hval s v Hv) as [->|Hv0]; [reflexivity|].
    destruct (decide (v = LOOKUP_DEACTIVE)) as [->|Hne]; [reflexivity|].
    destruct (Hall s v Hv0 Hne) as (i & ts & Hi & Hts & Hst).
    destruct (Hin i (proj2 (Hrange i) Hi)) as (ts' & Hts' & Hd).
    rewrite Hts in Hts'. inversion Hts'; subst ts'.
    rewrite Hst in Hd. rewrite Hd in Hv. inversion Hv. reflexivity.
Qed.

(** X7.  A frame without tokens.  When the emitting arcs leave [cur_toks]
    empty, the first trip of the non-emitting closure fails the assertion
    [size] of [_process_nonemitting_tokens]: [_process_tokens] does not
    return. *)
Theorem empty_frame_fails_the_assertion (fuel : nat) (p : params)
    (is_init : bool) (st st1 : t) (cutoff0 : float) :
  process_tokens_begin p is_init st = Ret (cutoff0, st1) ->
  CudaVector.Size (vector (cur_toks st1)) = 0 ->
  _process_tokens (S fuel) p is_init st = Some (Trap (AssertFailed "size")).
Proof.
  intros HB Hsize. unfold _process_tokens. rewrite HB.
  cbn [closure_loop]. unfold closure_pass.
  change (CudaVector.Size
            (vector (cur_toks (with_agg_idx 0 (with_ne_idx 0 st1)))))
    with (CudaVector.Size (vector (cur_toks st1))).
  assert (Hs : CudaVector.Size (vector (cur_toks st1)) = 0) by exact Hsize.
  unfold _process_nonemitting_tokens.
  replace (CudaVector.Size (vector (cur_toks st1))) with 0.
  reflexivity.
Qed.

(** X8.  The cell of an arc.  Take a memory where the start index of the
    arcs of the frame and [arcs_bpr_used_d] are both [num_arcs_till_last].
    Then the value that [_find_or_add_token_arc] puts into [update_idx] for
    an arc it pushes is the index of the arc within its frame:
    [GetActiveArc] finds the arc under it, as long as the arc lies within
    [arcs_buf_before_pr_size]; the push leaves the three values alone; and
    the end of the frame hands the agreement on to the next frame. *)
Theorem arc_cell_of_a_frame (p : params) (st : t) :
  LatticeProcessor.arcs_bpr_fr_sidx_d (lattice_processor st) !! frame p =
    Some (num_arcs_till_last st) ->
  LatticeProcessor.arcs_bpr_used_d (lattice_processor st) =
    num_arcs_till_last st ->
  (forall arc st' ret,
     push_arc p st arc = Ret (st', ret) ->
     lat_arcs_count st <
       LatticeProcessor.arcs_buf_before_pr_size (lattice_processor st) ->
     ret = lat_arcs_count st - num_arcs_till_last st /\
     ret < max_lat_arc_per_frame p /\
     LatticeProcessor.GetActiveArc (lattice_processor st') (frame p) ret =
       Ret (lat_arcs_count st) /\
     LatticeProcessor.arcs_bpr_d (lattice_processor st')
       !! lat_arcs_count st = Some arc /\
     LatticeProcessor.arcs_bpr_fr_sidx_d (lattice_processor st') !! frame p =
       Some (num_arcs_till_last st') /\
     LatticeProcessor.arcs_bpr_used_d (lattice_processor st') =
       num_arcs_till_last st') /\
  (forall st2, process_tokens_end p st = Ret st2 ->
     LatticeProcessor.arcs_bpr_fr_sidx_d (lattice_processor st2)
       !! (frame p + 1) = Some (num_arcs_till_last st2) /\
     LatticeProcessor.arcs_bpr_used_d (lattice_processor st2) =
       num_arcs_till_last st2 /\
     num_arcs_till_last st2 = lat_arcs_count st).
Proof.
  intros Hsidx Hused. split.
  - intros arc st' ret HP Hroom. unfold push_arc in HP. unfold_outcome.
    destruct (CudaVector.PushBack _ _ _) as [[pushed v]|] eqn:HPB;
      simpl in HP; [|discriminate].
    assert (Hpushed : pushed = lat_arcs_count st /\
                      CudaVector.mem_d v !! lat_arcs_count st = Some arc).
    { unfold CudaVector.PushBack, CudaVector.fetch_add in HPB.
      unfold_outcome. simpl in HPB.
      destruct (CudaVector.clamp_count _ _) as [v2|] eqn:HC; simpl in HPB;
        [|discriminate].
      inversion HPB; subst pushed v. split; [reflexivity|]. simpl.
      apply lookup_insert_eq. }
    destruct Hpushed as [-> Hcell].
    unfold assert in HP.
    destruct (lat_arcs_count st - num_arcs_till_last st <?
              max_lat_arc_per_frame p) eqn:E; simpl in HP; [|discriminate].
    apply Z.ltb_lt in E. inversion HP; subst st' ret. clear HP. simpl.
    split; [reflexivity|]. split; [exact E|].
    split; [|split; [exact Hcell|split; [exact Hsidx | exact Hused]]].
    unfold LatticeProcessor.GetActiveArc. simpl.
    apply load_Ret in Hsidx. rewrite Hsidx. unfold_outcome. simpl.
    replace (num_arcs_till_last st +
             (lat_arcs_count st - num_arcs_till_last st))
      with (lat_arcs_count st) by lia.
    unfold assert. apply Z.ltb_lt in Hroom. rewrite Hroom. reflexivity.
  - intros st2 HE. unfold process_tokens_end in HE. unfold_outcome.
    destruct (LatticeProcessor.CollectToksPerFrame _ _ _) as [lp1|] eqn:HT;
      simpl in HE; [|discriminate].
    destruct (LatticeProcessor.CollectArcsPerFrame _ _ _) as [lp2|] eqn:HA;
      simpl in HE; [|discriminate].
    destruct (_initialize_visited_states _) as [st3|] eqn:HV; simpl in HE;
      [|discriminate].
    inversion HE; subst st2. clear HE. simpl.
    unfold _initialize_visited_states, grid_stride_loop in HV.
    destruct (reset_visited_for_each _ _ _ HV) as (Heq & _).
    rewrite Heq. simpl.
    assert (Hsame : LatticeProcessor.arcs_bpr_fr_sidx_d lp1 =
                    LatticeProcessor.arcs_bpr_fr_sidx_d (lattice_processor st)
                    /\ LatticeProcessor.arcs_bpr_used_d lp1 =
                    LatticeProcessor.arcs_bpr_used_d (lattice_processor st)).
    { unfold LatticeProcessor.CollectToksPerFrame in HT. unfold_outcome.
      destruct (LatticeProcessor.SetNextSidx _ _ _); simpl in HT;
        [|discriminate].
      destruct (load _ 0); simpl in HT; [|discriminate].
      destruct (assert _ _) as [[]|]; simpl in HT; [|discriminate].
      inversion HT. split; reflexivity. }
    destruct Hsame as [Hs1 Hs2].
    unfold LatticeProcessor.CollectArcsPerFrame,
      LatticeProcessor.SetNextSidx in HA. unfold_outcome.
    destruct (assert _ _) as [[]|]; simpl in HA; [|discriminate].
    rewrite Hs1, Hs2 in HA. simpl in HA.
    apply load_Ret in Hsidx. rewrite Hsidx in HA. simpl in HA.
    inversion HA; subst lp2. simpl.
    split; [|split; reflexivity].
    rewrite lookup_insert_eq. f_equal. unfold CudaVector.Size. simpl. lia.
Qed.

End FrameEnd.

(** The theorem for the kernels of [InitDecoding] on
    [Examples.recombination_graph]: [_process_tokens] returns, and
    afterwards the two counters are 0 and the slot of the start state is
    inactive. *)
Lemma frame_end_resets_the_lookup_table_witness :
  let p := Examples.recombination_graph Release 0 100 16 in
  let st := Examples.fresh p 8 (F32.of_Z 0) in
  let st1 := result_or st (Decoder._add_initial_token p st 0) in
  let r := Decoder._process_tokens 11 p true st1 in
  ended r = true /\
  match r with
  | Some (Ret (_, st')) =>
      Decoder.pe_idx st' = 0 /\ Decoder.fb_idx st' = 0 /\
      Decoder.num_arcs_till_last st' = Decoder.lat_arcs_count st'
  | _ => False
  end.
Proof.
  intros p st st1 r.
  assert (HE : ended r = true) by (vm_compute; reflexivity).
  split; [exact HE|].
  destruct r as [[[n st2]|]|] eqn:Er; try discriminate HE.
  destruct (frame_end_resets_the_lookup_table 11 p true st1 st2 n Er)
    as (c & s1 & s2 & _ & _ & _ & Hpe & Hfb & Hcount & Hlast & _).
  split; [exact Hpe|]. split; [exact Hfb|]. congruence.
Defined.

(** The theorem for the frame 1 of [Examples.recombination_graph] with
    [max_active] 0, on a memory whose cell [cutoff_prev] held -1: the one
    token of the frame 0 is skipped and the frame stays empty. *)
Lemma empty_frame_fails_the_assertion_witness :
  let p0 := Examples.recombination_graph Release 0 0 16 in
  let p := Examples.recombination_graph Release 1 0 16 in
  let st := Decoder.PreProcessTokens
              (Examples.after_init p0 (Examples.fresh p0 8 (F32.of_Z (-1)))) in
  returns (Decoder.process_tokens_begin p false st) = true /\
  Decoder._process_tokens 11 p false st = Some (Trap (AssertFailed "size")).
Proof.
  intros p0 p st.
  assert (HR : returns (Decoder.process_tokens_begin p false st) = true)
    by (vm_compute; reflexivity).
  split; [exact HR|].
  pose proof (returns_result_or (F32.zero, st) _ HR) as HB.
  destruct (result_or (F32.zero, st) (Decoder.process_tokens_begin p false st))
    as [c st1] eqn:Eres.
  apply (empty_frame_fails_the_assertion 10 p false st st1 c HB).
  change st1 with (snd (c, st1)). rewrite <- Eres. vm_compute. reflexivity.
Defined.

(** The theorem for the frame 1 of [Examples.recombination_graph] after
    the kernels of [InitDecoding]: the first arc that is pushed has the
    index 0 within the frame. *)
Lemma arc_cell_of_a_frame_witness :
  let p0 := Examples.recombination_graph Release 0 100 16 in
  let p := Examples.recombination_graph Release 1 100 16 in
  let st := Decoder.PreProcessTokens
              (Examples.after_init p0 (Examples.fresh p0 8 (F32.of_Z 0))) in
  let arc := mkLatLinkCompact 0 0 0 1 (F32.of_Z 0) 0 in
  let r := result_or (st, 1) (Decoder.push_arc p st arc) in
  Decoder.push_arc p st arc = Ret r /\
  snd r = 0 /\
  LatticeProcessor.GetActiveArc (Decoder.lattice_processor (fst r)) 1 (snd r) =
    Ret (Decoder.lat_arcs_count st).
Proof.
  intros p0 p st arc r.
  assert (HP : Decoder.push_arc p st arc = Ret r)
    by (apply returns_result_or; vm_compute; reflexivity).
  split; [exact HP|]. clearbody r. destruct r as [st' ret].
  assert (H1 : LatticeProcessor.arcs_bpr_fr_sidx_d
                 (Decoder.lattice_processor st) !! Decoder.frame p =
               Some (Decoder.num_arcs_till_last st))
    by (vm_compute; reflexivity).
  assert (H2 : LatticeProcessor.arcs_bpr_used_d (Decoder.lattice_processor st)
               = Decoder.num_arcs_till_last st)
    by (vm_compute; reflexivity).
  assert (H3 : Decoder.lat_arcs_count st <
               LatticeProcessor.arcs_buf_before_pr_size
                 (Decoder.lattice_processor st))
    by (vm_compute; reflexivity).
  destruct (arc_cell_of_a_frame p st H1 H2) as [Hpush _].
  destruct (Hpush arc st' ret HP H3) as (Hret & _ & HG & _).
  split; [|exact HG].
  simpl. rewrite Hret. vm_compute. reflexivity.
Defined.

(** ** Back-pruning over the frames *)

Section PruneFrames.
Import LatticeProcessor LatticeProcessorFacts LatticeProcessorHost.

(** Two states of the processor with the same output arena. *)
Definition same_arena (a b : t) : Prop :=
  arcs_apr_d a = arcs_apr_d b /\
  arcs_apr_used_d a = arcs_apr_used_d b /\
  arcs_apr_fr_size_d a = arcs_apr_fr_size_d b /\
  arcs_buf_before_pr_size a = arcs_buf_before_pr_size b.

Lemma same_arena_trans (a b c : t) :
  same_arena a b -> same_arena b c -> same_arena a c.
Proof.
  unfold same_arena. intros (A1 & A2 & A3 & A4) (B1 & B2 & B3 & B4).
  repeat split; congruence.
Qed.

Lemma for_each_keeps {S : Type} (R : S -> S -> Prop)
    (body : S -> Z -> outcome S) (l : list Z) :
  (forall s, R s s) ->
  (forall a b c, R a b -> R b c -> R a c) ->
  (forall s i s', body s i = Ret s' -> R s s') ->
  forall s s', for_each body l s = Ret s' -> R s s'.
Proof.
  intros Hrefl Htrans Hbody. induction l as [|i l IH]; intros s s' HF;
    simpl in HF.
  - inversion HF. apply Hrefl.
  - destruct (body s i) as [s1|] eqn:E; [|discriminate].
    exact (Htrans _ _ _ (Hbody _ _ _ E) (IH _ _ HF)).
Qed.

Lemma init_token_arena (fr : Z) (lp : t) (tid : Z) (lp' : t) :
  init_token fr lp tid = Ret lp' -> same_arena lp lp'.
Proof.
  unfold init_token. unfold_outcome. intros HI.
  destruct (GetActiveToken lp (fr - 1) tid); simpl in HI; [|discriminate].
  destruct (load _ _); simpl in HI; [|discriminate].
  inversion HI. repeat split.
Qed.

Lemma update_link_arena (beam : float) (fr m0 : Z) (lp : t) (tid : Z)
    (lp' : t) :
  update_link beam fr m0 lp tid = Ret lp' -> same_arena lp lp'.
Proof.
  unfold update_link. unfold_outcome. intros HU.
  destruct (link_extra_cost lp fr tid) as [[[link tok_i] x]|]; simpl in HU;
    [|discriminate].
  destruct (not_pruned beam x); [|inversion HU; repeat split].
  destruct (load (toks_bpr_d lp) tok_i) as [tok|]; simpl in HU;
    [|discriminate].
  destruct (F32.ltb _ _); [|inversion HU; repeat split].
  simpl in HU. destruct (load _ m0) as [flag|]; simpl in HU; [|discriminate].
  destruct (flag =? 0); inversion HU; repeat split.
Qed.

Lemma same_arena_refl (a : t) : same_arena a a.
Proof. repeat split. Qed.

Lemma prune_init_arena (fr : Z) (lp lp1 : t) (prev_cidx : Z) :
  prune_init fr lp = Ret (prev_cidx, lp1) ->
  prev_cidx = arcs_apr_used_d lp /\ same_arena lp lp1.
Proof.
  unfold prune_init. unfold_outcome. intros HI.
  destruct (GetSize _ _ _) as [size|]; simpl in HI; [|discriminate].
  destruct (grid_stride_loop _ _ _) as [lp0|] eqn:E; simpl in HI;
    [|discriminate].
  assert (Ha : same_arena lp lp0).
  { unfold grid_stride_loop in E.
    exact (for_each_keeps same_arena _ _ same_arena_refl same_arena_trans
             (init_token_arena fr) _ _ E). }
  inversion HI; subst. destruct Ha as (A1 & A2 & A3 & A4).
  split; [symmetry; exact A2|]. repeat split; assumption.
Qed.

Lemma update_pass_arena (beam : float) (fr cnt : Z) (lp lp' : t) :
  update_pass beam fr cnt lp = Ret lp' -> same_arena lp lp'.
Proof.
  unfold update_pass. unfold_outcome.
  destruct (UpdateModifiedFlags cnt) as [[m0 m1] m2]. intros HU.
  destruct (GetSize _ _ _) as [size|]; simpl in HU; [|discriminate].
  unfold grid_stride_loop in HU.
  pose proof (for_each_keeps same_arena _ _ same_arena_refl same_arena_trans
                (update_link_arena beam fr m0) _ _ HU)
    as (A1 & A2 & A3 & A4).
  repeat split; assumption.
Qed.

Lemma update_loop_arena (beam : float) (fr : Z) (fuel : nat) :
  forall cnt lp n lp',
  update_loop fuel beam fr cnt lp = Some (Ret (n, lp')) -> same_arena lp lp'.
Proof.
  induction fuel as [|fuel IH]; intros cnt lp n lp' HL; simpl in HL;
    [discriminate|].
  destruct (update_loop_test cnt lp) as [[|]|]; try discriminate.
  - destruct (update_pass beam fr (cnt + 1) lp) as [lp1|] eqn:EP;
      [|discriminate].
    destruct (update_loop fuel beam fr (cnt + 1) lp1) as [[[k lp2]|]|] eqn:EL;
      try discriminate.
    inversion HL; subst.
    exact (same_arena_trans _ _ _ (update_pass_arena _ _ _ _ _ EP)
             (IH _ _ _ _ EL)).
  - inversion HL. apply same_arena_refl.
Qed.

(** One frame of back-pruning with [merge]: the size that it records for
    the frame is the number of arcs it has added to the arena. *)
Lemma PruneLatticeForFrame_size (fuel : nat) (fr : Z) (beam : float)
    (lp lp' : t) (n : nat) :
  PruneLatticeForFrame fuel fr true beam lp = Some (Ret (n, lp')) ->
  arcs_apr_fr_size_d lp' =
    <[fr := arcs_apr_used_d lp' - arcs_apr_used_d lp]>
      (arcs_apr_fr_size_d lp) /\
  arcs_apr_used_d lp <= arcs_apr_used_d lp' /\
  arcs_buf_before_pr_size lp' = arcs_buf_before_pr_size lp.
Proof.
  unfold PruneLatticeForFrame. intros HP.
  destruct (prune_init fr lp) as [[prev_cidx lp1]|] eqn:EI; [|discriminate].
  destruct (update_loop fuel beam fr 0 lp1) as [[[k lp2]|]|] eqn:EL;
    try discriminate.
  destruct (aggregate_pass true beam fr prev_cidx lp2) as [lp3|] eqn:EA;
    [|discriminate].
  inversion HP; subst n lp3. clear HP.
  destruct (prune_init_arena _ _ _ _ EI) as [-> (A1 & A2 & A3 & A4)].
  destruct (update_loop_arena _ _ _ _ _ _ _ EL) as (B1 & B2 & B3 & B4).
  unfold aggregate_pass in EA. unfold_outcome.
  destruct (GetSize _ _ _) as [size|]; simpl in EA; [|discriminate].
  destruct (grid_stride_loop _ _ _) as [lp4|] eqn:EG; simpl in EA;
    [|discriminate].
  unfold grid_stride_loop in EG.
  destruct (aggregate_for_each _ _ _ _ _ EG)
    as (links & _ & Hsame & Hused & _).
  inversion EA; subst lp'. simpl.
  assert (Hfs : arcs_apr_fr_size_d lp4 = arcs_apr_fr_size_d lp2).
  { clear -EG. revert lp2 EG.
    induction (seqZ 0 size) as [|i l IH]; intros lp2 EG; simpl in EG.
    - inversion EG. reflexivity.
    - destruct (aggregate_link true beam fr lp2 i) as [lpa|] eqn:E;
        [|discriminate].
      rewrite (IH _ EG). unfold aggregate_link in E. unfold_outcome.
      destruct (link_extra_cost lp2 fr i) as [[[link tok_i] x]|];
        simpl in E; [|discriminate].
      destruct (not_pruned beam x); [|inversion E; reflexivity].
      unfold AddArc in E. unfold_outcome.
      destruct (assert _ _) as [[]|]; simpl in E; [|discriminate].
      destruct (explode _ _ _); simpl in E; [|discriminate].
      inversion E. reflexivity. }
  rewrite Hfs, <- B3, <- A3.
  split; [f_equal; lia|]. split; [lia|].
  destruct Hsame as (_ & _ & _ & _ & _ & S6 & _). congruence.
Qed.

Lemma frame_sizes_app (m : gmap Z Z) (l1 l2 : list Z) :
  frame_sizes m (l1 ++ l2) = frame_sizes m l1 + frame_sizes m l2.
Proof.
  induction l1 as [|f l1 IH]; simpl; [reflexivity|]. rewrite IH. lia.
Qed.

Lemma frame_sizes_reverse (m : gmap Z Z) (l : list Z) :
  frame_sizes m (reverse l) = frame_sizes m l.
Proof.
  induction l as [|f l IH]; [reflexivity|].
  rewrite reverse_cons, frame_sizes_app, IH. simpl. lia.
Qed.

Lemma prune_frames_sizes (fuel : nat) (beam : float) (frames : list Z) :
  forall lp lp' : t,
  NoDup frames ->
  prune_frames fuel frames beam lp = Some (Ret lp') ->
  arcs_apr_used_d lp' =
    arcs_apr_used_d lp + frame_sizes (arcs_apr_fr_size_d lp') frames /\
  (forall g, ~ In g frames ->
     arcs_apr_fr_size_d lp' !! g = arcs_apr_fr_size_d lp !! g) /\
  (forall f, In f frames ->
     exists k, 0 <= k /\ arcs_apr_fr_size_d lp' !! f = Some k) /\
  arcs_buf_before_pr_size lp' = arcs_buf_before_pr_size lp.
Proof.
  induction frames as [|f rest IH]; intros lp lp' Hnd HP; simpl in HP.
  - inversion HP; subst. simpl. split; [lia|]. split; [reflexivity|].
    split; [intros f []|reflexivity].
  - destruct (PruneLatticeForFrame fuel f true beam lp) as [[[n lp1]|]|] eqn:E;
      try discriminate.
    destruct (PruneLatticeForFrame_size _ _ _ _ _ _ E) as (Hfs & Hle & Hbuf).
    apply NoDup_cons in Hnd. destruct Hnd as [Hnotin Hnd].
    destruct (IH _ _ Hnd HP) as (Hused & Hout & Hin & Hbuf').
    assert (Hf : arcs_apr_fr_size_d lp' !! f =
                 Some (arcs_apr_used_d lp1 - arcs_apr_used_d lp)).
    { rewrite Hout by (rewrite <- list_elem_of_In; exact Hnotin).
      rewrite Hfs. apply lookup_insert_eq. }
    split; [simpl; rewrite Hf; simpl; lia|]. split; [|split].
    + intros g Hg. rewrite Hout by (intros Hi; apply Hg; right; exact Hi).
      rewrite Hfs. apply lookup_insert_ne. intros ->. apply Hg. left.
      reflexivity.
    + intros g [<-|Hg]; [|exact (Hin g Hg)].
      eexists. split; [|exact Hf]. lia.
    + congruence.
Qed.

(** X9.  The arena after back-pruning.  [PruneActiveTokens] leaves the
    memory alone at the frame 0.  At a later frame it starts the output
    arena anew; when it returns, the sizes it has recorded for the frames 1
    to [frame] are not negative and add up to the number of arcs in the
    arena, which is below a quarter of [arcs_buf_before_pr_size], and the
    sizes of the other frames are as they were. *)
Theorem pruned_arcs_by_frame (fuel : nat) (fr : Z) (beam : float)
    (lp lp' : t) :
  PruneActiveTokens fuel fr beam lp = Some (Ret lp') ->
  (fr = 0 -> lp' = lp) /\
  (fr <> 0 ->
     arcs_apr_used_d lp' =
       frame_sizes (arcs_apr_fr_size_d lp') (seqZ 1 fr) /\
     (forall f, 1 <= f <= fr ->
        exists k, 0 <= k /\ arcs_apr_fr_size_d lp' !! f = Some k) /\
     (forall g, ~ 1 <= g <= fr ->
        arcs_apr_fr_size_d lp' !! g = arcs_apr_fr_size_d lp !! g) /\
     4 * arcs_apr_used_d lp' < arcs_buf_before_pr_size lp).
Proof.
  unfold PruneActiveTokens. intros HP. split.
  - intros ->. simpl in HP. inversion HP. reflexivity.
  - intros Hne. destruct (fr =? 0) eqn:E; [apply Z.eqb_eq in E; lia|].
    destruct (prune_frames _ _ _ _) as [[lp1|]|] eqn:EP; try discriminate.
    unfold_outcome. unfold assert, below_estimated_prune_ratio in HP.
    destruct (4 * arcs_apr_used_d lp1 <? arcs_buf_before_pr_size lp1) eqn:EA;
      simpl in HP; [|discriminate].
    inversion HP; subst lp1. clear HP. apply Z.ltb_lt in EA.
    assert (Hnd : NoDup (reverse (seqZ 1 fr)))
      by (rewrite reverse_Permutation; apply NoDup_seqZ).
    destruct (prune_frames_sizes _ _ _ _ _ Hnd EP)
      as (Hused & Hout & Hin & Hbuf).
    simpl in Hused, Hout, Hbuf. rewrite frame_sizes_reverse in Hused.
    assert (Hrange : forall f, In f (reverse (seqZ 1 fr)) <-> 1 <= f <= fr).
    { intros f. rewrite <- list_elem_of_In, elem_of_reverse, elem_of_seqZ.
      lia. }
    split; [lia|]. split; [|split].
    + intros f Hf. apply Hin, Hrange. exact Hf.
    + intros g Hg. apply Hout. rewrite Hrange. exact Hg.
    + lia.
Qed.

(** *** The extra costs when the update loop stops *)

Lemma modified_flags_rotate_aux (c : Z) :
  0 <= c ->
  (c + 1) mod 3 <> c mod 3 /\ (c + 2) mod 3 <> (c + 1) mod 3.
Proof.
  intros Hc.
  pose proof (Z.mod_pos_bound c 3 ltac:(lia)).
  pose proof (Z.mod_pos_bound (c + 1) 3 ltac:(lia)).
  pose proof (Z.mod_pos_bound (c + 2) 3 ltac:(lia)).
  pose proof (Z.div_mod c 3 ltac:(lia)).
  pose proof (Z.div_mod (c + 1) 3 ltac:(lia)).
  pose proof (Z.div_mod (c + 2) 3 ltac:(lia)).
  split; lia.
Qed.

(** No link of the frame would lower an extra cost. *)
Definition settled (beam : float) (fr size : Z) (lp : t) : Prop :=
  forall tid, 0 <= tid < size ->
    exists link tok_i x tok,
      link_extra_cost lp fr tid = Ret (link, tok_i, x) /\
      toks_bpr_d lp !! tok_i = Some tok /\
      (not_pruned beam x = true ->
       F32.ltb (debug_clamp beam x) (extra_cost tok) = false).

Lemma update_link_flag (beam : float) (fr m0 : Z) (lp lp' : t) (tid : Z) :
  update_link beam fr m0 lp tid = Ret lp' ->
  (forall m, m <> m0 -> modified_d lp' !! m = modified_d lp !! m) /\
  (forall f, modified_d lp !! m0 = Some f -> f <> 0 ->
     modified_d lp' !! m0 = Some f) /\
  (modified_d lp !! m0 = Some 0 -> modified_d lp' !! m0 = Some 0 ->
     lp' = lp /\
     exists link tok_i x tok,
       link_extra_cost lp fr tid = Ret (link, tok_i, x) /\
       toks_bpr_d lp !! tok_i = Some tok /\
       (not_pruned beam x = true ->
        F32.ltb (debug_clamp beam x) (extra_cost tok) = false)) /\
  (modified_d lp !! m0 = Some 0 ->
     modified_d lp' !! m0 = Some 0 \/ modified_d lp' !! m0 = Some 1) /\
  arcs_bpr_fr_sidx_d lp' = arcs_bpr_fr_sidx_d lp /\
  arcs_buf_before_pr_size lp' = arcs_buf_before_pr_size lp.
Proof.
  unfold update_link. unfold_outcome. intros HU.
  destruct (link_extra_cost lp fr tid) as [[[link tok_i] x]|] eqn:EL;
    simpl in HU; [|discriminate].
  destruct (link_extra_cost_Ret _ _ _ _ _ _ EL) as (link_i & _ & _ & HE).
  destruct (extra_cost_of_link_Ret _ _ _ _ _ HE)
    as (next_i & next_tok & tok & w & _ & _ & _ & Htok & _ & _).
  assert (Hsame : lp' = lp ->
            (not_pruned beam x = true ->
             F32.ltb (debug_clamp beam x) (extra_cost tok) = false) ->
            (forall m, m <> m0 -> modified_d lp' !! m = modified_d lp !! m) /\
            (forall f, modified_d lp !! m0 = Some f -> f <> 0 ->
               modified_d lp' !! m0 = Some f) /\
            (modified_d lp !! m0 = Some 0 -> modified_d lp' !! m0 = Some 0 ->
               lp' = lp /\
               exists link0 tok_i0 x0 tok0,
                 Ret (link, tok_i, x) = Ret (link0, tok_i0, x0) /\
                 toks_bpr_d lp !! tok_i0 = Some tok0 /\
                 (not_pruned beam x0 = true ->
                  F32.ltb (debug_clamp beam x0) (extra_cost tok0) = false)) /\
            (modified_d lp !! m0 = Some 0 ->
               modified_d lp' !! m0 = Some 0 \/
               modified_d lp' !! m0 = Some 1) /\
            arcs_bpr_fr_sidx_d lp' = arcs_bpr_fr_sidx_d lp /\
            arcs_buf_before_pr_size lp' = arcs_buf_before_pr_size lp).
  { intros -> Hx. split; [reflexivity|]. split; [intros f Hf _; exact Hf|].
    split; [|split; [intros H0; left; exact H0 | split; reflexivity]].
    intros _ _. split; [reflexivity|]. exists link, tok_i, x, tok.
    split; [reflexivity|]. split; [exact Htok | exact Hx]. }
  destruct (not_pruned beam x) eqn:EN;
    [|inversion HU; subst lp'; apply Hsame; [reflexivity | discriminate]].
  apply load_Ret in Htok. rewrite Htok in HU. simpl in HU.
  destruct (F32.ltb (debug_clamp beam x) (extra_cost tok)) eqn:ELT;
    [|inversion HU; subst lp'; apply Hsame; [reflexivity | intros _; reflexivity]].
  simpl in HU. destruct (load _ m0) as [flag|] eqn:EF; simpl in HU;
    [|discriminate].
  apply load_Ret in EF. simpl in EF.
  destruct (flag =? 0) eqn:E0; inversion HU; subst lp'; simpl.
  - apply Z.eqb_eq in E0. subst flag.
    split; [intros m Hm; apply lookup_insert_ne; congruence|].
    split; [intros f Hf Hne; rewrite EF in Hf; inversion Hf; congruence|].
    split; [intros _ H1; rewrite lookup_insert_eq in H1; discriminate H1|].
    split; [intros _; right; apply lookup_insert_eq|]. split; reflexivity.
  - apply Z.eqb_neq in E0.
    split; [reflexivity|]. split; [intros f Hf _; exact Hf|].
    split; [intros H0; rewrite EF in H0; inversion H0; congruence|].
    split; [intros H0; rewrite EF in H0; inversion H0; congruence|].
    split; reflexivity.
Qed.

Lemma links_flag_stays (beam : float) (fr m0 : Z) (tids : list Z) :
  forall lp lp' f,
  for_each (update_link beam fr m0) tids lp = Ret lp' ->
  modified_d lp !! m0 = Some f -> f <> 0 ->
  modified_d lp' !! m0 = Some f.
Proof.
  induction tids as [|tid tids IH]; intros lp lp' f HF Hf Hne; simpl in HF.
  - inversion HF; subst. exact Hf.
  - destruct (update_link beam fr m0 lp tid) as [lp1|] eqn:E; [|discriminate].
    destruct (update_link_flag _ _ _ _ _ _ E) as (_ & Hstay & _).
    exact (IH _ _ _ HF (Hstay _ Hf Hne) Hne).
Qed.

Lemma links_pass (beam : float) (fr m0 : Z) (tids : list Z) :
  forall lp lp',
  for_each (update_link beam fr m0) tids lp = Ret lp' ->
  (forall m, m <> m0 -> modified_d lp' !! m = modified_d lp !! m) /\
  arcs_bpr_fr_sidx_d lp' = arcs_bpr_fr_sidx_d lp /\
  arcs_buf_before_pr_size lp' = arcs_buf_before_pr_size lp /\
  (modified_d lp !! m0 = Some 0 ->
     modified_d lp' !! m0 = Some 0 \/ modified_d lp' !! m0 = Some 1) /\
  (modified_d lp !! m0 = Some 0 -> modified_d lp' !! m0 = Some 0 ->
     lp' = lp /\
     forall tid, In tid tids ->
       exists link tok_i x tok,
         link_extra_cost lp fr tid = Ret (link, tok_i, x) /\
         toks_bpr_d lp !! tok_i = Some tok /\
         (not_pruned beam x = true ->
          F32.ltb (debug_clamp beam x) (extra_cost tok) = false)).
Proof.
  induction tids as [|tid tids IH]; intros lp lp' HF; simpl in HF.
  - inversion HF; subst. split; [reflexivity|]. split; [reflexivity|].
    split; [reflexivity|]. split; [intros H0; left; exact H0|].
    intros _ _. split; [reflexivity | intros tid []].
  - destruct (update_link beam fr m0 lp tid) as [lp1|] eqn:E; [|discriminate].
    destruct (update_link_flag _ _ _ _ _ _ E)
      as (Hoth & Hstay & Hquiet & Hcases & Hs & Hb).
    destruct (IH _ _ HF) as (Hoth' & Hs' & Hb' & Hcases' & Hquiet').
    split; [intros m Hm; rewrite Hoth', Hoth by exact Hm; reflexivity|].
    split; [congruence|]. split; [congruence|]. split.
    + intros H0. destruct (Hcases H0) as [H1|H1].
      * exact (Hcases' H1).
      * right. exact (links_flag_stays _ _ _ _ _ _ _ HF H1 ltac:(lia)).
    + intros H0 H0'. destruct (Hcases H0) as [H1|H1].
      * destruct (Hquiet H0 H1) as [-> Hlink].
        destruct (Hquiet' H0 H0') as [-> Hrest].
        split; [reflexivity|]. intros t [<-|Ht]; [exact Hlink|].
        exact (Hrest t Ht).
      * rewrite (links_flag_stays _ _ _ _ _ _ _ HF H1 ltac:(lia)) in H0'.
        discriminate H0'.
Qed.

Lemma update_pass_settles (beam : float) (fr c : Z) (lp lp' : t) :
  update_pass beam fr c lp = Ret lp' ->
  0 <= c ->
  modified_d lp !! (c mod 3) = Some 0 ->
  exists size,
    GetSize lp' (arcs_bpr_fr_sidx_d lp') fr = Ret size /\
    modified_d lp' !! ((c + 1) mod 3) = Some 0 /\
    (modified_d lp' !! (c mod 3) = Some 0 -> settled beam fr size lp').
Proof.
  unfold update_pass. unfold UpdateModifiedFlags. unfold_outcome.
  intros HU Hc H0.
  set (lp1 := with_modified (<[(c + 1) mod 3 := 0]> (modified_d lp)) lp) in *.
  destruct (GetSize lp1 (arcs_bpr_fr_sidx_d lp1) fr) as [size|] eqn:EG;
    simpl in HU; [|discriminate].
  unfold grid_stride_loop in HU.
  destruct (links_pass _ _ _ _ _ _ HU) as (Hoth & Hs & Hb & _ & Hquiet).
  assert (Hne : (c + 1) mod 3 <> c mod 3).
  { pose proof (modified_flags_rotate_aux c Hc). lia. }
  assert (H01 : modified_d lp1 !! (c mod 3) = Some 0).
  { unfold lp1. simpl. rewrite lookup_insert_ne by exact Hne. exact H0. }
  exists size. split.
  { unfold GetSize in *. rewrite Hs, Hb. exact EG. }
  split.
  { rewrite Hoth by exact Hne. unfold lp1. simpl. apply lookup_insert_eq. }
  intros H0'. destruct (Hquiet H01 H0') as [-> Hlinks].
  intros tid Htid. apply Hlinks.
  apply list_elem_of_In, elem_of_seqZ. lia.
Qed.

Lemma update_loop_settles (beam : float) (fr : Z) (fuel : nat) :
  forall cnt lp n lp',
  0 <= cnt ->
  update_loop fuel beam fr cnt lp = Some (Ret (n, lp')) ->
  modified_d lp !! ((cnt + 1) mod 3) = Some 0 ->
  (modified_d lp !! (cnt mod 3) = Some 0 ->
   exists size, GetSize lp (arcs_bpr_fr_sidx_d lp) fr = Ret size /\
                settled beam fr size lp) ->
  cnt + Z.of_nat n < 10 ->
  exists size, GetSize lp' (arcs_bpr_fr_sidx_d lp') fr = Ret size /\
               settled beam fr size lp'.
Proof.
  induction fuel as [|fuel IH]; intros cnt lp n lp' Hc HL Hnext Hcur Hn;
    simpl in HL; [discriminate|].
  unfold update_loop_test, UpdateModifiedFlags in HL. unfold_outcome.
  destruct (cnt <? 10) eqn:E10.
  - destruct (load (modified_d lp) (cnt mod 3)) as [flag|] eqn:EF;
      simpl in HL; [|discriminate].
    apply load_Ret in EF.
    destruct (flag =? 0) eqn:E0; simpl in HL.
    + inversion HL; subst n lp'. apply Hcur.
      apply Z.eqb_eq in E0. subst flag. exact EF.
    + destruct (update_pass beam fr (cnt + 1) lp) as [lp1|] eqn:EP;
        [|discriminate].
      destruct (update_loop fuel beam fr (cnt + 1) lp1) as [[[k lp2]|]|] eqn:EL;
        try discriminate.
      inversion HL; subst n lp2. clear HL.
      destruct (update_pass_settles _ _ _ _ _ EP ltac:(lia) Hnext)
        as (size & HG & Hnext' & Hset).
      apply (IH (cnt + 1) lp1 k lp' ltac:(lia) EL).
      * replace (cnt + 1 + 1) with (cnt + 1 + 1) by lia. exact Hnext'.
      * intros H0. exists size. split; [exact HG | exact (Hset H0)].
      * lia.
  - apply Z.ltb_ge in E10. inversion HL; subst n lp'. simpl in Hn. lia.
Qed.

Lemma aggregate_links_same (merge : bool) (beam : float) (fr : Z)
    (tids : list Z) :
  forall lp lp',
  for_each (aggregate_link merge beam fr) tids lp = Ret lp' ->
  same_lattice lp lp'.
Proof.
  apply for_each_keeps.
  - apply same_lattice_refl.
  - apply same_lattice_trans.
  - intros lp tid lp' HA. unfold aggregate_link in HA. unfold_outcome.
    destruct (link_extra_cost lp fr tid) as [[[link tok_i] x]|];
      simpl in HA; [|discriminate].
    destruct (not_pruned beam x);
      [|inversion HA; apply same_lattice_refl].
    destruct merge; [|inversion HA; apply same_lattice_refl].
    destruct (AddArc_Ret _ _ _ _ HA) as (e & _ & ->). repeat split.
Qed.

(** X10.  The extra costs after the update loop.  When back-pruning of a
    frame returns and its update loop has made fewer than 10 trips, the
    extra costs have settled: for every link of the frame that passes the
    test against the beam, the extra cost of its previous token is not above
    the extra cost of the link (taken as [lattice_beam / 2] when it is below
    -1).  After 10 trips the loop stops whether they have settled or not. *)
Theorem extra_costs_settle (fuel : nat) (fr : Z) (merge : bool)
    (beam : float) (lp lp' : t) (n : nat) :
  PruneLatticeForFrame fuel fr merge beam lp = Some (Ret (n, lp')) ->
  (n < 10)%nat ->
  exists size,
    GetSize lp' (arcs_bpr_fr_sidx_d lp') fr = Ret size /\
    forall tid, 0 <= tid < size ->
      exists link tok_i x tok,
        link_extra_cost lp' fr tid = Ret (link, tok_i, x) /\
        toks_bpr_d lp' !! tok_i = Some tok /\
        (not_pruned beam x = true ->
         F32.ltb (debug_clamp beam x) (extra_cost tok) = false).
Proof.
  unfold PruneLatticeForFrame. intros HP Hn.
  destruct (prune_init fr lp) as [[prev_cidx lp1]|] eqn:EI; [|discriminate].
  destruct (update_loop fuel beam fr 0 lp1) as [[[k lp2]|]|] eqn:EL;
    try discriminate.
  destruct (aggregate_pass merge beam fr prev_cidx lp2) as [lp3|] eqn:EA;
    [|discriminate].
  inversion HP; subst k lp3. clear HP.
  assert (Hflags : modified_d lp1 !! 1 = Some 0 /\
                   modified_d lp1 !! 0 = Some 1).
  { unfold prune_init in EI. unfold_outcome.
    destruct (GetSize _ _ _); simpl in EI; [|discriminate].
    destruct (grid_stride_loop _ _ _); simpl in EI; [|discriminate].
    inversion EI. simpl. split.
    - rewrite lookup_insert_ne by (vm_compute; discriminate).
      apply lookup_insert_eq.
    - rewrite lookup_insert_ne by (vm_compute; discriminate).
      rewrite lookup_insert_ne by (vm_compute; discriminate).
      apply lookup_insert_eq. }
  destruct Hflags as [H1 H0].
  destruct (update_loop_settles _ _ _ 0 lp1 n lp2 ltac:(lia) EL H1)
    as (size & HG & Hset).
  { intros H0'. change (0 mod 3) with 0 in H0'. rewrite H0 in H0'.
    discriminate H0'. }
  { lia. }
  unfold aggregate_pass in EA. rewrite HG in EA. unfold_outcome.
  simpl in EA.
  destruct (grid_stride_loop _ _ _) as [lp4|] eqn:EG; simpl in EA;
    [|discriminate].
  unfold grid_stride_loop in EG.
  pose proof (aggregate_links_same _ _ _ _ _ _ EG) as Hsame.
  assert (Hsame' : same_lattice lp2 lp').
  { destruct merge; inversion EA; subst lp'; [|exact Hsame].
    destruct Hsame as (?&?&?&?&?&?&?&?&?). repeat split; assumption. }
  exists size. split.
  { destruct Hsame' as (_&_&_&_&S5&S6&_). unfold GetSize in *.
    rewrite <- S5, <- S6. exact HG. }
  intros tid Htid. destruct (Hset tid Htid) as (link & tok_i & x & tok & HL & HT & HX).
  exists link, tok_i, x, tok.
  rewrite <- (link_extra_cost_same lp2 lp' fr tid Hsame').
  destruct Hsame' as (S1 & _). rewrite <- S1. auto.
Qed.

End PruneFrames.

(** The theorem for back-pruning at the frame 1 of
    [Examples.two_branches]: one arc is left, which is the size of the
    frame 1. *)
Lemma pruned_arcs_by_frame_witness :
  let lp := Examples.two_branches in
  let lp' :=
    match LatticeProcessor.PruneActiveTokens 11 1 (F32.of_Z 1) lp with
    | Some (Ret l) => l
    | _ => lp
    end in
  LatticeProcessor.PruneActiveTokens 11 1 (F32.of_Z 1) lp = Some (Ret lp') /\
  LatticeProcessor.arcs_apr_used_d lp' =
    LatticeProcessorHost.frame_sizes
      (LatticeProcessor.arcs_apr_fr_size_d lp') [1] /\
  4 * LatticeProcessor.arcs_apr_used_d lp' < 64.
Proof.
  intros lp lp'.
  assert (HP : LatticeProcessor.PruneActiveTokens 11 1 (F32.of_Z 1) lp =
               Some (Ret lp')) by (vm_compute; reflexivity).
  split; [exact HP|].
  destruct (pruned_arcs_by_frame 11 1 (F32.of_Z 1) lp lp' HP) as [_ Hne].
  destruct (Hne ltac:(lia)) as (Hsum & _ & _ & Hq).
  split; [exact Hsum | exact Hq].
Defined.

(** The theorem for back-pruning of the frame 1 of
    [Examples.two_branches], which makes two trips: the first link of the
    frame is within the beam and does not lower the extra cost of its
    previous token. *)
Lemma extra_costs_settle_witness :
  let lp := Examples.two_branches in
  let beam := F32.of_Z 1 in
  let r := LatticeProcessor.PruneLatticeForFrame 11 1 true beam lp in
  let lp' := match r with Some (Ret (_, l)) => l | _ => lp end in
  r = Some (Ret (2%nat, lp')) /\
  exists link tok_i x tok,
    LatticeProcessor.link_extra_cost lp' 1 0 = Ret (link, tok_i, x) /\
    LatticeProcessor.toks_bpr_d lp' !! tok_i = Some tok /\
    (LatticeProcessor.not_pruned beam x = true ->
     F32.ltb (LatticeProcessor.debug_clamp beam x) (extra_cost tok) = false).
Proof.
  intros lp beam r lp'.
  assert (Hr : r = Some (Ret (2%nat, lp'))) by (vm_compute; reflexivity).
  split; [exact Hr|].
  destruct (extra_costs_settle 11 1 true beam lp lp' 2 Hr ltac:(lia))
    as (size & HG & Hall).
  assert (Hsize : LatticeProcessor.GetSize lp'
                    (LatticeProcessor.arcs_bpr_fr_sidx_d lp') 1 = Ret 3)
    by (vm_compute; reflexivity).
  rewrite Hsize in HG. inversion HG; subst size.
  apply (Hall 0). lia.
Defined.

(** ** The order of the costs *)

Section FloatOrder.

(** The comparison of two finite numbers of the same sign, as
    [SFcompare] makes it: by the exponents, then by the mantissas. *)
Definition lex (e1 : Z) (m1 : positive) (e2 : Z) (m2 : positive)
    : comparison :=
  match Z.compare e1 e2 with
  | Lt => Lt
  | Gt => Gt
  | Eq => Pos.compare m1 m2
  end.

Lemma lex_Lt (e1 : Z) (m1 : positive) (e2 : Z) (m2 : positive) :
  lex e1 m1 e2 m2 = Lt <-> e1 < e2 \/ (e1 = e2 /\ (m1 < m2)%positive).
Proof.
  unfold lex. destruct (Z.compare_spec e1 e2) as [->|Hlt|Hgt].
  - rewrite Pos.compare_lt_iff. split; [auto|]. intros [?|[_ ?]]; [lia|auto].
  - split; [auto | reflexivity].
  - split; [discriminate|]. intros [?|[? _]]; lia.
Qed.

Lemma lex_Gt (e1 : Z) (m1 : positive) (e2 : Z) (m2 : positive) :
  lex e1 m1 e2 m2 = Gt <-> e2 < e1 \/ (e1 = e2 /\ (m2 < m1)%positive).
Proof.
  unfold lex. destruct (Z.compare_spec e1 e2) as [->|Hlt|Hgt].
  - rewrite Pos.compare_gt_iff. split; [auto|]. intros [?|[_ ?]]; [lia|auto].
  - split; [discriminate|]. intros [?|[? _]]; lia.
  - split; [auto | reflexivity].
Qed.

Lemma SFltb_finite (s1 s2 : bool) (m1 m2 : positive) (e1 e2 : Z) :
  SFltb (S754_finite s1 m1 e1) (S754_finite s2 m2 e2) =
  match s1, s2 with
  | true, false => true
  | false, true => false
  | false, false =>
      match lex e1 m1 e2 m2 with Lt => true | _ => false end
  | true, true =>
      match lex e1 m1 e2 m2 with Gt => true | _ => false end
  end.
Proof.
  unfold SFltb, SFcompare, lex.
  change (PosDef.Pos.compare_cont Eq m1 m2) with (Pos.compare m1 m2).
  destruct s1, s2; try reflexivity;
    destruct (e1 ?= e2); try reflexivity;
    destruct (m1 ?= m2)%positive; reflexivity.
Qed.

Lemma lex_cases (e1 : Z) (m1 : positive) (e2 : Z) (m2 : positive) :
  (lex e1 m1 e2 m2 = Lt /\ (e1 < e2 \/ (e1 = e2 /\ (m1 < m2)%positive))) \/
  (lex e1 m1 e2 m2 = Gt /\ (e2 < e1 \/ (e1 = e2 /\ (m2 < m1)%positive))) \/
  (lex e1 m1 e2 m2 = Eq /\ e1 = e2 /\ m1 = m2).
Proof.
  destruct (lex e1 m1 e2 m2) eqn:E.
  - right. right. split; [reflexivity|]. unfold lex in E.
    destruct (Z.compare_spec e1 e2); try discriminate.
    apply Pos.compare_eq in E. auto.
  - left. split; [reflexivity|]. apply lex_Lt. exact E.
  - right. left. split; [reflexivity|]. apply lex_Gt. exact E.
Qed.

Ltac lex_solve :=
  repeat match goal with
  | |- context [lex ?e1 ?m1 ?e2 ?m2] =>
      let H := fresh in
      destruct (lex_cases e1 m1 e2 m2) as [[-> H]|[[-> H]|[-> H]]]
  | H : context [lex ?e1 ?m1 ?e2 ?m2] |- _ =>
      let H' := fresh in
      destruct (lex_cases e1 m1 e2 m2) as [[-> H']|[[-> H']|[-> H']]]
  end;
  try discriminate; try reflexivity; try lia; auto.

Lemma ltb_irrefl (a : float) : F32.ltb a a = false.
Proof.
  unfold F32.ltb. destruct a as [[]|[]| |[] m e]; try reflexivity;
    rewrite SFltb_finite; lex_solve.
Qed.

Lemma ltb_trans (a b c : float) :
  F32.ltb a b = true -> F32.ltb b c = true -> F32.ltb a c = true.
Proof.
  unfold F32.ltb.
  destruct a as [[]|[]| |[] ma ea], b as [[]|[]| |[] mb eb],
    c as [[]|[]| |[] mc ec];
    try (intros; discriminate); try (intros; reflexivity);
    rewrite ?SFltb_finite; try (intros; discriminate);
    try (intros; reflexivity); intros H1 H2.
  all: destruct (lex_cases ea ma eb mb) as [[E1 Ha]|[[E1 Ha]|[E1 Ha]]];
    rewrite E1 in H1; try discriminate;
    destruct (lex_cases eb mb ec mc) as [[E2 Hb]|[[E2 Hb]|[E2 Hb]]];
    rewrite E2 in H2; try discriminate;
    destruct (lex_cases ea ma ec mc) as [[E Hc]|[[E Hc]|[E Hc]]];
    rewrite E; try reflexivity; exfalso; lia.
Qed.

(** A number that is below another is below or above every number
    between. *)
Lemma ltb_cotrans (a b c : float) :
  F32.ltb a c = true -> F32.isnan b = false ->
  F32.ltb a b = true \/ F32.ltb b c = true.
Proof.
  unfold F32.ltb, F32.isnan.
  destruct a as [[]|[]| |[] ma ea], b as [[]|[]| |[] mb eb],
    c as [[]|[]| |[] mc ec];
    try (intros; discriminate); try (intros; left; reflexivity);
    try (intros; right; reflexivity);
    rewrite ?SFltb_finite; try (intros; discriminate);
    try (intros; left; reflexivity); try (intros; right; reflexivity);
    intros H1 _.
  all: destruct (lex_cases ea ma eb mb) as [[-> Ha]|[[-> Ha]|[-> Ha]]];
    destruct (lex_cases eb mb ec mc) as [[-> Hb]|[[-> Hb]|[-> Hb]]];
    auto; exfalso;
    destruct (lex_cases ea ma ec mc) as [[E Hc]|[[E Hc]|[E Hc]]];
    rewrite E in H1; try discriminate; lia.
Qed.

End FloatOrder.

(** ** The cutoff of the emitting arcs *)

Section BestCutoff.
Context `{DeviceUtils}.
Import Decoder.

(** The costs that [_find_best_cutoff] takes into the cutoff: the cost,
    with the beam, of an emitting arc of a token of [prev_toks] that the
    dispatcher hands out from [fb] on and that the histogram does not
    skip. *)
Definition candidate (p : params) (st : t) (fb : Z) (c : float) : Prop :=
  exists i ts tok start finish j ilabel ll weight,
    let size := CudaVector.Size (vector (prev_toks st)) in
    (fb <= i < size) /\
    CudaVector.get (vector (prev_toks st)) i = Ret ts /\
    token_of p st ts = Ret tok /\
    histogram_pruned p st size tok = false /\
    load (e_offsets p) (state ts) = Ret start /\
    load (e_offsets p) (state ts + 1) = Ret finish /\
    (start <= j < finish) /\
    load (arc_ilabels p) j = Ret ilabel /\
    load (loglikelihoods p) ilabel = Ret ll /\
    load (arc_weights p) j = Ret weight /\
    c = F32.add (F32.add (F32.add (cost_ tok) weight) (F32.neg ll)) (beam p).

(** What holds of the local cutoffs of the threads of a group: none is
    not a number, and each is [INFINITY] or one of the costs [C]. *)
Definition lanes_ok (C : float -> Prop) (local : list float) : Prop :=
  forall r l, local !! r = Some l ->
    F32.isnan l = false /\ (l = F32.INFINITY \/ C l).

(** Some thread of the group holds a local cutoff that is not above
    [c]. *)
Definition covered (local : list float) (c : float) : Prop :=
  exists r l, local !! r = Some l /\ F32.ltb c l = false.

Lemma ltb_not_nan (a b : float) : F32.ltb a b = true -> F32.isnan a = false.
Proof. destruct a; try reflexivity. discriminate. Qed.

Lemma lane_update (C : float -> Prop) (local : list float) (r : nat)
    (c : float) :
  let local' :=
    match local !! r with
    | Some l => if F32.ltb c l then <[r := c]> local else local
    | None => local
    end in
  lanes_ok C local -> C c ->
  length local' = length local /\
  lanes_ok C local' /\
  (forall c0, covered local c0 -> covered local' c0) /\
  ((r < length local)%nat -> covered local' c).
Proof.
  intros local' Hok Hc. subst local'.
  destruct (local !! r) as [l|] eqn:El.
  - destruct (F32.ltb c l) eqn:Elt.
    + split; [apply length_insert|]. split; [|split].
      * intros r' l' Hl'. destruct (decide (r = r')) as [<-|Hne].
        -- rewrite list_lookup_insert_eq in Hl'
             by (apply lookup_lt_Some in El; exact El).
           inversion Hl'; subst l'. split; [|right; exact Hc].
           exact (ltb_not_nan _ _ Elt).
        -- rewrite list_lookup_insert_ne in Hl' by exact Hne.
           exact (Hok _ _ Hl').
      * intros c0 (r0 & l0 & Hl0 & Hc0).
        destruct (decide (r = r0)) as [<-|Hne].
        -- exists r, c. split.
           ++ apply list_lookup_insert_eq. apply lookup_lt_Some in El. exact El.
           ++ rewrite El in Hl0. inversion Hl0; subst l0.
              destruct (F32.ltb c0 c) eqn:E0; [|reflexivity].
              rewrite (ltb_trans _ _ _ E0 Elt) in Hc0. discriminate.
        -- exists r0, l0. split; [|exact Hc0].
           rewrite list_lookup_insert_ne by exact Hne. exact Hl0.
      * intros Hr. exists r, c. split.
        -- apply list_lookup_insert_eq. exact Hr.
        -- apply ltb_irrefl.
    + split; [reflexivity|]. split; [exact Hok|]. split; [auto|].
      intros _. exists r, l. split; [exact El | exact Elt].
  - split; [reflexivity|]. split; [exact Hok|]. split; [auto|].
    intros Hr. apply lookup_ge_None in El. lia.
Qed.

Lemma lane_of_lt (start j : Z) : (lane_of start j < Z.to_nat blockDimx)%nat.
Proof.
  unfold lane_of, blockDimx.
  pose proof (Z.mod_pos_bound (j - start) 32 ltac:(lia)). lia.
Qed.

Lemma cutoff_arc_lanes (C : float -> Prop) (p : params) (tok : Token)
    (start : Z) (arcs : list Z) (local local' : list float) :
  for_each (cutoff_arc p tok start) arcs local = Ret local' ->
  length local = Z.to_nat blockDimx ->
  lanes_ok C local ->
  (forall j ilabel ll weight, In j arcs ->
     load (arc_ilabels p) j = Ret ilabel ->
     load (loglikelihoods p) ilabel = Ret ll ->
     load (arc_weights p) j = Ret weight ->
     C (F32.add (F32.add (F32.add (cost_ tok) weight) (F32.neg ll))
          (beam p))) ->
  length local' = Z.to_nat blockDimx /\
  lanes_ok C local' /\
  (forall c0, covered local c0 -> covered local' c0) /\
  (forall j, In j arcs ->
     exists ilabel ll weight,
       load (arc_ilabels p) j = Ret ilabel /\
       load (loglikelihoods p) ilabel = Ret ll /\
       load (arc_weights p) j = Ret weight /\
       covered local'
         (F32.add (F32.add (F32.add (cost_ tok) weight) (F32.neg ll))
            (beam p))).
Proof.
  revert local. induction arcs as [|j arcs IH]; intros local HF Hlen Hok HC;
    simpl in HF.
  - inversion HF; subst local'. split; [exact Hlen|]. split; [exact Hok|].
    split; [auto | intros j []].
  - destruct (cutoff_arc p tok start local j) as [local1|] eqn:E1;
      [|discriminate].
    unfold cutoff_arc in E1. unfold_outcome.
    destruct (load (arc_ilabels p) j) as [ilabel|] eqn:Ei; [|discriminate].
    destruct (load (loglikelihoods p) ilabel) as [ll|] eqn:El; [|discriminate].
    destruct (load (arc_weights p) j) as [weight|] eqn:Ew; [|discriminate].
    simpl in E1.
    set (c := F32.add (F32.add (F32.add (cost_ tok) weight) (F32.neg ll))
                (beam p)) in *.
    assert (Hc : C c)
      by (apply (HC j ilabel ll weight); auto; left; reflexivity).
    destruct (lane_update C local (lane_of start j) c Hok Hc)
      as (Hlen1 & Hok1 & Hcov1 & Hnew1).
    assert (Hl1 : local1 =
              match local !! lane_of start j with
              | Some l => if F32.ltb c l
                          then <[lane_of start j := c]> local else local
              | None => local
              end).
    { destruct (local !! lane_of start j) as [l|]; [|congruence].
      destruct (F32.ltb c l); congruence. }
    rewrite <- Hl1 in Hlen1, Hok1, Hcov1, Hnew1. clear Hl1 E1.
    destruct (IH local1 HF (eq_trans Hlen1 Hlen) Hok1) as (L & O & Cv & A).
    { intros j' il' ll' w' Hj'. apply HC. right. exact Hj'. }
    split; [exact L|]. split; [exact O|]. split; [auto|].
    intros j' [<-|Hj'].
    + exists ilabel, ll, weight. repeat split; try assumption.
      apply Cv, Hnew1. rewrite Hlen. apply lane_of_lt.
    + apply A. exact Hj'.
Qed.

Lemma cutoff_token_lanes (p : params) (st : t) (fb : Z) (toks : list Z)
    (local local' : list float) :
  let size := CudaVector.Size (vector (prev_toks st)) in
  for_each (cutoff_token p st size) toks local = Ret local' ->
  (forall i, In i toks -> fb <= i < size) ->
  length local = Z.to_nat blockDimx ->
  lanes_ok (candidate p st fb) local ->
  length local' = Z.to_nat blockDimx /\
  lanes_ok (candidate p st fb) local' /\
  (forall c0, covered local c0 -> covered local' c0) /\
  (forall i ts tok start finish j ilabel ll weight, In i toks ->
     CudaVector.get (vector (prev_toks st)) i = Ret ts ->
     token_of p st ts = Ret tok ->
     histogram_pruned p st size tok = false ->
     load (e_offsets p) (state ts) = Ret start ->
     load (e_offsets p) (state ts + 1) = Ret finish ->
     start <= j < finish ->
     load (arc_ilabels p) j = Ret ilabel ->
     load (loglikelihoods p) ilabel = Ret ll ->
     load (arc_weights p) j = Ret weight ->
     covered local'
       (F32.add (F32.add (F32.add (cost_ tok) weight) (F32.neg ll))
          (beam p))).
Proof.
  intros size. revert local.
  induction toks as [|i toks IH]; intros local HF Hin Hlen Hok; simpl in HF.
  - inversion HF; subst local'. split; [exact Hlen|]. split; [exact Hok|].
    split; [auto|]. intros i ts tok start finish j ilabel ll weight [].
  - destruct (cutoff_token p st size local i) as [local1|] eqn:E1;
      [|discriminate].
    unfold cutoff_token in E1. unfold_outcome.
    destruct (CudaVector.get (vector (prev_toks st)) i) as [ts|] eqn:Ets;
      [|discriminate].
    destruct (token_of p st ts) as [tok|] eqn:Etok; [|discriminate].
    assert (Hi : fb <= i < size) by (apply Hin; left; reflexivity).
    assert (Hrest : forall i', In i' toks -> fb <= i' < size)
      by (intros i' Hi'; apply Hin; right; exact Hi').
    destruct (histogram_pruned p st size tok) eqn:Ehp.
    + inversion E1; subst local1.
      destruct (IH local HF Hrest Hlen Hok) as (L & O & Cv & A).
      split; [exact L|]. split; [exact O|]. split; [exact Cv|].
      intros i' ts' tok' start finish j ilabel ll weight [<-|Hi'].
      * intros Hts Htok Hhp. rewrite Ets in Hts. inversion Hts; subst ts'.
        rewrite Etok in Htok. inversion Htok; subst tok'. congruence.
      * apply A. exact Hi'.
    + destruct (load (e_offsets p) (state ts)) as [start|] eqn:Es;
        [|discriminate].
      destruct (load (e_offsets p) (state ts + 1)) as [finish|] eqn:Ef;
        [|discriminate].
      simpl in E1.
      destruct (cutoff_arc_lanes (candidate p st fb) p tok start _ _ _ E1
                  Hlen Hok) as (L1 & O1 & Cv1 & A1).
      { intros j ilabel ll weight Hj Hil Hll Hw.
        apply list_elem_of_In, elem_of_seqZ in Hj.
        exists i, ts, tok, start, finish, j, ilabel, ll, weight.
        cbv zeta. repeat split; try assumption; lia. }
      destruct (IH local1 HF Hrest L1 O1) as (L & O & Cv & A).
      split; [exact L|]. split; [exact O|]. split; [auto|].
      intros i' ts' tok' start' finish' j ilabel ll weight [<-|Hi'].
      * intros Hts Htok _ Hs' Hf' Hj Hil Hll Hw.
        rewrite Ets in Hts. inversion Hts; subst ts'.
        rewrite Etok in Htok. inversion Htok; subst tok'.
        rewrite Es in Hs'. inversion Hs'; subst start'.
        rewrite Ef in Hf'. inversion Hf'; subst finish'.
        destruct (A1 j) as (il2 & ll2 & w2 & Hil2 & Hll2 & Hw2 & Hcov).
        { apply list_elem_of_In, elem_of_seqZ. lia. }
        rewrite Hil in Hil2. inversion Hil2; subst il2.
        rewrite Hll in Hll2. inversion Hll2; subst ll2.
        rewrite Hw in Hw2. inversion Hw2; subst w2.
        apply Cv. exact Hcov.
      * apply A. exact Hi'.
Qed.

Lemma eqb_INFINITY (l x : float) :
  F32.neqb l F32.INFINITY = false -> F32.ltb l x = false.
Proof.
  unfold F32.neqb, F32.eqb, F32.ltb.
  destruct l as [[]|[]| |[] m e]; try discriminate; intros _;
    destruct x as [[]|[]| |[] mx ex]; reflexivity.
Qed.

Lemma neqb_INFINITY (l : float) :
  F32.neqb l F32.INFINITY = true -> l <> F32.INFINITY.
Proof. intros Hn ->. discriminate Hn. Qed.

Lemma merge_nan (local : list float) (c : float) :
  F32.isnan c = true -> merge_local_cutoffs c local = c.
Proof.
  intros Hc. unfold merge_local_cutoffs.
  induction local as [|l local IH]; [reflexivity|]. simpl.
  destruct (F32.neqb l F32.INFINITY); [|exact IH].
  unfold atomic_min. destruct c; try discriminate.
  replace (F32.ltb l S754_nan) with false; [exact IH|].
  destruct l as [[]|[]| |[] m e]; reflexivity.
Qed.

Lemma merge_local_cutoffs_min (local : list float) (c : float) :
  (forall l, In l local -> F32.isnan l = false) ->
  let c' := merge_local_cutoffs c local in
  (c' = c \/ (In c' local /\ c' <> F32.INFINITY)) /\
  F32.ltb c c' = false /\
  (forall l, In l local -> F32.ltb l c' = false).
Proof.
  intros Hnan c'. subst c'.
  destruct (F32.isnan c) eqn:Ec.
  { rewrite (merge_nan local c Ec). split; [left; reflexivity|].
    split; [apply ltb_irrefl|]. intros l _.
    destruct c; try discriminate.
    destruct l as [[]|[]| |[] m e]; reflexivity. }
  revert c Ec. unfold merge_local_cutoffs.
  induction local as [|l local IH]; intros c Ec; simpl.
  - split; [left; reflexivity|]. split; [apply ltb_irrefl | intros l []].
  - assert (Hl : F32.isnan l = false) by (apply Hnan; left; reflexivity).
    assert (Hrest : forall l', In l' local -> F32.isnan l' = false)
      by (intros l' Hl'; apply Hnan; right; exact Hl').
    destruct (F32.neqb l F32.INFINITY) eqn:En.
    + unfold atomic_min. destruct (F32.ltb l c) eqn:Elt.
      * destruct (IH Hrest l Hl) as (Ha & Hb & Hc).
        set (c' := foldl _ l local) in *.
        split; [|split].
        -- destruct Ha as [Ha|[Hin Hne]].
           ++ right. rewrite Ha.
              split; [left; reflexivity | apply neqb_INFINITY, En].
           ++ right. split; [right; exact Hin | exact Hne].
        -- destruct (F32.ltb c c') eqn:E; [|reflexivity].
           rewrite (ltb_trans _ _ _ Elt E) in Hb. discriminate.
        -- intros l' [<-|Hl']; [exact Hb | apply Hc, Hl'].
      * destruct (IH Hrest c Ec) as (Ha & Hb & Hc).
        set (c' := foldl _ c local) in *.
        split; [|split].
        -- destruct Ha as [Ha|[Hin Hne]]; [left; exact Ha|].
           right. split; [right; exact Hin | exact Hne].
        -- exact Hb.
        -- intros l' [<-|Hl']; [|apply Hc, Hl'].
           destruct (F32.ltb l c') eqn:E; [|reflexivity].
           destruct (ltb_cotrans _ c _ E Ec) as [E'|E']; congruence.
    + destruct (IH Hrest c Ec) as (Ha & Hb & Hc).
      set (c' := foldl _ c local) in *.
      split; [|split].
      * destruct Ha as [Ha|[Hin Hne]]; [left; exact Ha|].
        right. split; [right; exact Hin | exact Hne].
      * exact Hb.
      * intros l' [<-|Hl']; [apply eqb_INFINITY, En | apply Hc, Hl'].
Qed.

(** X11.  The cutoff that [_find_best_cutoff] leaves is the least of the
    cutoff it found and of the costs, with the beam, of the emitting arcs of
    the tokens of [prev_toks] that the dispatcher hands out and the
    histogram does not skip: no such cost is below it, the cutoff it found
    is not below it, and it is one of them.  The order is that of [<] on
    single precision numbers and [atomic_min] keeps the smaller of the cell
    and the value. *)
Theorem best_cutoff_is_the_least_cost (p : params) (st st' : t) :
  _find_best_cutoff p st = Ret st' ->
  (forall c, candidate p st' (fb_idx st) c ->
     F32.ltb c (cutoff st') = false) /\
  F32.ltb (cutoff st) (cutoff st') = false /\
  (cutoff st' = cutoff st \/ candidate p st' (fb_idx st) (cutoff st')).
Proof.
  intros HF. unfold _find_best_cutoff in HF. unfold_outcome.
  set (size := CudaVector.Size (vector (prev_toks st))) in *.
  destruct (if (max_active p <? size) && (1 <? frame p)
            then _find_prev_cutoff_by_histogram p st else Ret st)
    as [st1|] eqn:E1; [|discriminate].
  assert (Hst1 : exists cp, st1 = with_cutoff_prev cp st).
  { destruct ((max_active p <? size) && (1 <? frame p)).
    - unfold _find_prev_cutoff_by_histogram in E1. unfold_outcome.
      destruct (collect _ _) as [costs|]; [|discriminate].
      inversion E1. eexists. reflexivity.
    - inversion E1; subst st1. exists (cutoff_prev st).
      destruct st; reflexivity. }
  destruct Hst1 as (cp & ->). clear E1.
  set (st1 := with_cutoff_prev cp st) in *.
  unfold dispatch in HF.
  change (fb_idx st1) with (fb_idx st) in HF.
  destruct (for_each (cutoff_token p st1 size) _ _) as [local|] eqn:EL;
    [|discriminate].
  inversion HF; subst st'. clear HF.
  change (CudaVector.Size (vector (prev_toks st)))
    with (CudaVector.Size (vector (prev_toks st1))) in size.
  destruct (cutoff_token_lanes p st1 (fb_idx st) _ _ _ EL)
    as (L & O & _ & A).
  { intros i Hi. apply list_elem_of_In, elem_of_seqZ in Hi.
    fold size. lia. }
  { apply length_replicate. }
  { intros r l Hl. apply lookup_replicate in Hl. destruct Hl as [-> _].
    split; [reflexivity | left; reflexivity]. }
  assert (Hnan : forall l, In l local -> F32.isnan l = false).
  { intros l Hl. apply list_elem_of_In, list_elem_of_lookup in Hl.
    destruct Hl as (r & Hr). exact (proj1 (O r l Hr)). }
  destruct (merge_local_cutoffs_min local (cutoff st1) Hnan)
    as (Ha & Hb & Hc).
  assert (Hcand : forall c,
            candidate p (with_cutoff (merge_local_cutoffs (cutoff st1) local)
                           (with_fb_idx (Z.max (fb_idx st) size + 1) st1))
              (fb_idx st) c <-> candidate p st1 (fb_idx st) c)
    by (intros c; reflexivity).
  split; [|split].
  - intros c Hcd. apply Hcand in Hcd.
    destruct Hcd as (i & ts & tok & start & finish & j & ilabel & ll & weight
                     & Hi & Hts & Htok & Hhp & Hs & Hf & Hj & Hil & Hll & Hw
                     & ->).
    destruct (A i ts tok start finish j ilabel ll weight) as (r & l & Hl & Hcl);
      try assumption.
    { apply list_elem_of_In, elem_of_seqZ.
      change (fb_idx st <= i < size) in Hi. lia. }
    match goal with
    | |- ?x = false => destruct x eqn:E; [|reflexivity]
    end.
    change (cutoff (with_cutoff (merge_local_cutoffs (cutoff st1) local)
                      (with_fb_idx (Z.max (fb_idx st) size + 1) st1)))
      with (merge_local_cutoffs (cutoff st1) local) in E.
    destruct (ltb_cotrans _ l _ E (proj1 (O r l Hl))) as [E'|E'].
    + congruence.
    + rewrite Hc in E'; [discriminate|].
      apply list_elem_of_In, list_elem_of_lookup. exists r. exact Hl.
  - exact Hb.
  - destruct Ha as [Ha|[Hin Hne]]; [left; exact Ha|].
    right. apply Hcand.
    apply list_elem_of_In, list_elem_of_lookup in Hin.
    destruct Hin as (r & Hr). destruct (O r _ Hr) as [_ [Hinf|Hcd]].
    + contradiction.
    + exact Hcd.
Qed.

End BestCutoff.

(** The theorem for the frame 1 of [Examples.recombination_graph] after
    the kernels of [InitDecoding]: the cutoff, which was +infinity,
    becomes 2.125, the cost of the cheaper arc of the start state with
    the beam. *)
Lemma best_cutoff_is_the_least_cost_witness :
  let p0 := Examples.recombination_graph Release 0 100 16 in
  let p := Examples.recombination_graph Release 1 100 16 in
  let st := Decoder.PreProcessTokens
              (Examples.after_init p0 (Examples.fresh p0 8 (F32.of_Z 0))) in
  let st' := result_or st (Decoder._find_best_cutoff p st) in
  Decoder._find_best_cutoff p st = Ret st' /\
  Decoder.cutoff st' = F32.make 17 (-3) /\
  F32.ltb (Decoder.cutoff st) (Decoder.cutoff st') = false /\
  candidate p st' (Decoder.fb_idx st) (Decoder.cutoff st').
Proof.
  intros p0 p st st'.
  assert (HF : Decoder._find_best_cutoff p st = Ret st')
    by (apply returns_result_or; vm_compute; reflexivity).
  assert (HC : Decoder.cutoff st' = F32.make 17 (-3))
    by (vm_compute; reflexivity).
  split; [exact HF|]. split; [exact HC|].
  destruct (best_cutoff_is_the_least_cost p st st' HF) as (_ & Hlow & Hmin).
  split; [exact Hlow|].
  destruct Hmin as [Heq|Hcand]; [|exact Hcand].
  exfalso. rewrite HC in Heq.
  assert (Hinf : Decoder.cutoff st = F32.INFINITY) by (vm_compute; reflexivity).
  rewrite Hinf in Heq. vm_compute in Heq. discriminate Heq.
Defined.

(** ** The queue of the updated token states *)

Section Aggregation.
Context `{DeviceUtils}.
Import Decoder.

(** [IsUpdated] answered with a value that is not 0. *)
Definition updated (st : t) (tid : Z) : bool :=
  match IsUpdated (cur_toks st) tid with
  | Ret u => negb (u =? 0)
  | Trap _ => false
  end.

Lemma aggregate_updated_queue (size : Z) (tids : list Z) (st st' : t) :
  aggregate_updated size tids st = Ret st' ->
  0 <= agg_idx st ->
  agg_idx st + Z.of_nat (length tids) <= size ->
  let upd := List.filter (updated st) tids in
  agg_idx st' = agg_idx st + Z.of_nat (length upd) /\
  (forall (k : nat) tid, upd !! k = Some tid ->
     ne_queue st' !! (agg_idx st + Z.of_nat k) = Some tid) /\
  (forall k, ~ agg_idx st <= k < agg_idx st' ->
     ne_queue st' !! k = ne_queue st !! k) /\
  st' = with_ne_queue (ne_queue st') (with_agg_idx (agg_idx st') st).
Proof.
  revert st. induction tids as [|tid tids IH]; intros st HA H0 Hlen;
    simpl in HA.
  - inversion HA; subst st'. simpl. split; [lia|].
    split; [intros k tid Hk; discriminate|]. split; [reflexivity|].
    destruct st; reflexivity.
  - unfold_outcome. cbv zeta. cbn [List.filter].
    destruct (IsUpdated (cur_toks st) tid) as [u|] eqn:EU; [|discriminate].
    assert (Eupd : updated st tid = negb (u =? 0))
      by (unfold updated; rewrite EU; reflexivity).
    rewrite Eupd. clear Eupd.
    cbn [length] in Hlen.
    destruct (u =? 0) eqn:E0; cbn [negb].
    + destruct (IH st HA H0 ltac:(lia)) as (Ha & Hq & Ho & Hs).
      split; [exact Ha|]. split; [exact Hq|]. split; [exact Ho | exact Hs].
    + destruct (size <=? agg_idx st) eqn:Esz; [lia|].
      set (st1 := with_ne_queue
                    (<[agg_idx st := tid]>
                       (ne_queue (with_agg_idx (agg_idx st + 1) st)))
                    (with_agg_idx (agg_idx st + 1) st)) in *.
      destruct (IH st1 HA) as (Ha & Hq & Ho & Hs).
      { simpl. lia. }
      { simpl. lia. }
      change (updated st1) with (updated st) in *.
      change (agg_idx st1) with (agg_idx st + 1) in *.
      cbn [length]. split; [lia|]. split; [|split].
      * intros [|k] tid' Hk.
        -- inversion Hk; subst tid'. rewrite Ho by lia.
           replace (agg_idx st + Z.of_nat 0) with (agg_idx st) by lia.
           apply lookup_insert_eq.
        -- replace (agg_idx st + Z.of_nat (S k))
             with (agg_idx st + 1 + Z.of_nat k) by lia.
           apply Hq. exact Hk.
      * intros k Hk. rewrite Ho by lia.
        apply lookup_insert_ne. lia.
      * rewrite Hs at 1. reflexivity.
Qed.

Lemma filter_increasing (f : Z -> bool) (l : list Z) :
  (forall (j k : nat) a b, (j < k)%nat -> l !! j = Some a ->
     l !! k = Some b -> a < b) ->
  forall (j k : nat) a b, (j < k)%nat -> List.filter f l !! j = Some a ->
    List.filter f l !! k = Some b -> a < b.
Proof.
  induction l as [|x l IH]; intros Hl j k a b Hjk Hj Hk; [discriminate|].
  assert (Hl' : forall (j k : nat) a b, (j < k)%nat -> l !! j = Some a ->
                  l !! k = Some b -> a < b).
  { intros j' k' a' b' Hjk' Hj' Hk'.
    apply (Hl (S j') (S k')); [lia | exact Hj' | exact Hk']. }
  cbn [List.filter] in Hj, Hk. destruct (f x).
  - destruct k as [|k]; [lia|]. simpl in Hk. destruct j as [|j].
    + inversion Hj; subst a.
      assert (Hin : In b (List.filter f l))
        by (apply list_elem_of_In, list_elem_of_lookup; exists k; exact Hk).
      apply List.filter_In in Hin. destruct Hin as [Hin _].
      apply list_elem_of_In, list_elem_of_lookup in Hin.
      destruct Hin as (m & Hm).
      apply (Hl 0%nat (S m)); [lia | reflexivity | exact Hm].
    + simpl in Hj. apply (IH Hl' j k); [lia | exact Hj | exact Hk].
  - apply (IH Hl' j k); assumption.
Qed.

(** X12.  The aggregation stage of [_process_nonemitting_tokens], run over
    the token states below [size] with the counter [*agg_idx] at 0: when it
    returns, the counter is the number of token states for which [IsUpdated]
    answered a value other than 0, the queue lists their indices in the
    cells from 0 on, in increasing order and each once, the counter is not
    above [size], so that the loop is not left before its end, and nothing
    but the counter and these cells of the queue has changed. *)
Theorem aggregation_queues_the_updated (size : Z) (st st' : t) :
  0 <= size ->
  agg_idx st = 0 ->
  aggregate_updated size (seqZ 0 size) st = Ret st' ->
  let upd := List.filter (updated st) (seqZ 0 size) in
  agg_idx st' = Z.of_nat (length upd) /\
  agg_idx st' <= size /\
  (forall (k : nat) tid, upd !! k = Some tid ->
     ne_queue st' !! Z.of_nat k = Some tid /\ 0 <= tid < size) /\
  (forall (j k : nat) a b, (j < k)%nat -> upd !! j = Some a ->
     upd !! k = Some b -> a < b) /\
  (forall k, ~ 0 <= k < agg_idx st' -> ne_queue st' !! k = ne_queue st !! k) /\
  st' = with_ne_queue (ne_queue st') (with_agg_idx (agg_idx st') st).
Proof.
  intros Hsize H0 HA upd.
  destruct (aggregate_updated_queue size _ st st' HA) as (Ha & Hq & Ho & Hs).
  { lia. }
  { rewrite length_seqZ. lia. }
  fold upd in Ha, Hq. rewrite H0 in *.
  assert (Hlen : (length upd <= length (seqZ 0 size))%nat)
    by apply List.filter_length_le.
  rewrite length_seqZ in Hlen.
  split; [lia|]. split; [lia|]. split; [|split; [|split]].
  - intros k tid Hk. split; [apply (Hq k tid Hk)|].
    assert (Hin : In tid upd)
      by (apply list_elem_of_In, list_elem_of_lookup; exists k; exact Hk).
    apply List.filter_In in Hin. destruct Hin as [Hin _].
    apply list_elem_of_In, elem_of_seqZ in Hin. lia.
  - intros j k a b Hjk Hj Hk.
    apply (filter_increasing (updated st) (seqZ 0 size)) with j k;
      try assumption.
    intros j' k' a' b' Hjk' Hj' Hk'.
    apply lookup_seqZ in Hj', Hk'. lia.
  - intros k Hk. apply Ho. lia.
  - exact Hs.
Qed.

End Aggregation.

(** The theorem for three token states of which the first and the last
    are updated: the queue holds 0 and 2. *)
Lemma aggregation_queues_the_updated_witness :
  let p := Examples.recombination_graph Release 1 100 16 in
  let st :=
    Decoder.with_cur_toks
      (mkTokenMergeVector (CudaVector.mk 3 8 ∅)
         (Examples.cells [(0, 1); (1, 0); (2, 1)]))
      (Examples.fresh p 8 (F32.of_Z 0)) in
  let st' := result_or st (Decoder.aggregate_updated 3 (seqZ 0 3) st) in
  Decoder.aggregate_updated 3 (seqZ 0 3) st = Ret st' /\
  Decoder.agg_idx st' = 2 /\
  Decoder.ne_queue st' !! 0 = Some 0 /\
  Decoder.ne_queue st' !! 1 = Some 2.
Proof.
  intros p st st'.
  assert (HA : Decoder.aggregate_updated 3 (seqZ 0 3) st = Ret st')
    by (apply returns_result_or; vm_compute; reflexivity).
  split; [exact HA|].
  destruct (aggregation_queues_the_updated 3 st st' ltac:(lia) eq_refl HA)
    as (Hn & _ & Hq & _).
  assert (Hupd : List.filter (updated st) (seqZ 0 3) = [0; 2])
    by (vm_compute; reflexivity).
  rewrite Hupd in Hn, Hq.
  split; [exact Hn|]. split.
  - exact (proj1 (Hq 0%nat 0 eq_refl)).
  - exact (proj1 (Hq 1%nat 2 eq_refl)).
Defined.

(** ** The two buffers of token states *)

Section FrameBuffers.
Context `{DeviceUtils}.
Import CudaLatticeDecoder.

(** X13.  With two buffers and the pointers as [UpdateTokPointersByFrame]
    sets them for the count of frames, from the frame 0 on, where
    [frame - 1] wraps around: [cur_toks_] and [prev_toks_] name the two
    different buffers, [PreProcessTokens] returns, and the kernels of the
    next frame get as [prev_toks] the buffer that was [cur_toks] and as
    [cur_toks] the other buffer with its counter at 0, which is
    [Decoder.PreProcessTokens] on what the kernels had. *)
Theorem frame_buffers_change_roles (h : t) (st st0 : Decoder.t) :
  length (lat_toks_bufs_ h) = 2%nat ->
  0 <= num_frames_decoded_ h < 2 ^ 31 - 1 ->
  h = UpdateTokPointersByFrame (num_frames_decoded_ h) h ->
  InitParams h st = Ret st0 ->
  cur_toks_ h <> prev_toks_ h /\
  exists h',
    PreProcessTokens h = Ret h' /\
    num_frames_decoded_ h' = num_frames_decoded_ h + 1 /\
    h' = UpdateTokPointersByFrame (num_frames_decoded_ h') h' /\
    length (lat_toks_bufs_ h') = 2%nat /\
    cur_toks_ h' = prev_toks_ h /\
    prev_toks_ h' = cur_toks_ h /\
    InitParams h' st = Ret (Decoder.PreProcessTokens st0).
Proof.
  intros Hlen Hn Hptr Hst0.
  destruct h as [bufs n cur prev]. simpl in *.
  unfold UpdateTokPointersByFrame in Hptr. simpl in Hptr.
  injection Hptr as Hcur Hprev.
  unfold uint32, LAT_BUF_SIZE in *.
  assert (Hc : cur = n mod 2).
  { rewrite Hcur at 1. rewrite (Z.mod_small n) by lia. reflexivity. }
  assert (Hp : prev = (n + 1) mod 2).
  { rewrite Hprev at 1. rewrite (Z.mod_small n) by lia.
    destruct (Z.eq_dec n 0) as [->|Hne]; [reflexivity|].
    rewrite (Z.mod_small (n - 1)) by lia.
    replace (n + 1) with (n - 1 + 1 * 2) by lia.
    rewrite Z.mod_add by lia. reflexivity. }
  clear Hcur Hprev.
  assert (Hcp : cur <> prev).
  { rewrite Hc, Hp. pose proof (Z.mod_pos_bound n 2 ltac:(lia)).
    rewrite (Z.add_mod n 1 2) by lia.
    assert (n mod 2 = 0 \/ n mod 2 = 1) as [->| ->] by lia;
      intros E; discriminate E. }
  split; [exact Hcp|].
  destruct bufs as [|b0 [|b1 [|b2 bufs]]]; try discriminate Hlen.
  unfold InitParams in Hst0. simpl in Hst0.
  unfold PreProcessTokens, ClearToks, UpdateTokPointersByFrame, InitParams.
  simpl. unfold uint32, LAT_BUF_SIZE.
  rewrite !(Z.mod_small (n + 1) (2 ^ 32)) by lia.
  replace (n + 1 - 1) with n by lia.
  rewrite !(Z.mod_small n (2 ^ 32)) by lia.
  rewrite <- Hc, <- Hp.
  pose proof (Z.mod_pos_bound n 2 ltac:(lia)) as Hb.
  pose proof (Z.mod_pos_bound (n + 1) 2 ltac:(lia)) as Hb'.
  assert ((cur = 0 /\ prev = 1) \/ (cur = 1 /\ prev = 0)) as [[-> ->]|[-> ->]]
    by lia; simpl in *; unfold_outcome; inversion Hst0; subst st0;
    eexists; (split; [reflexivity|]); simpl;
    rewrite !(Z.mod_small (n + 1) (2 ^ 32)) by lia;
    replace (n + 1 - 1) with n by lia;
    rewrite !(Z.mod_small n (2 ^ 32)) by lia;
    rewrite <- Hc, <- Hp; repeat split; destruct st; reflexivity.
Qed.

End FrameBuffers.

(** The theorem for the frame 0, where [prev_toks_] is the buffer 1:
    [PreProcessTokens] makes the buffer 1 the vector [cur_toks_] of the
    frame 1 and empties it. *)
Lemma frame_buffers_change_roles_witness :
  let p := Examples.recombination_graph Release 0 100 16 in
  let b0 := mkTokenMergeVector (CudaVector.mk 1 8 ∅) ∅ in
  let b1 := mkTokenMergeVector (CudaVector.mk 2 8 ∅) ∅ in
  let h := CudaLatticeDecoder.mk [b0; b1] 0 0 1 in
  exists h',
    CudaLatticeDecoder.PreProcessTokens h = Ret h' /\
    CudaLatticeDecoder.cur_toks_ h' = 1 /\
    CudaLatticeDecoder.prev_toks_ h' = 0.
Proof.
  intros p b0 b1 h.
  destruct (frame_buffers_change_roles h (Examples.fresh p 8 (F32.of_Z 0))
              (Decoder.with_cur_toks b0
                 (Decoder.with_prev_toks b1
                    (Examples.fresh p 8 (F32.of_Z 0)))))
    as (_ & h' & HP & _ & _ & _ & Hc & Hp & _);
    [reflexivity | simpl; lia | reflexivity | reflexivity |].
  exists h'. split; [exact HP|]. split; [exact Hc | exact Hp].
Defined.

(** ** Copies between the host and the device *)

Section VectorCopies.
Context {T : Type}.
Import CudaVectorHost.

Lemma memcpy_lookup (n : Z) (src dst : gmap Z T) (i : Z) :
  memcpy n src dst !! i = if (0 <=? i) && (i <? n) then src !! i else dst !! i.
Proof.
  unfold memcpy.
  destruct (Z.le_gt_cases n 0) as [Hn|Hn].
  { replace (seqZ 0 n) with (@nil Z) by (symmetry; apply seqZ_nil; lia).
    simpl. destruct (0 <=? i) eqn:E1, (i <? n) eqn:E2; simpl; try reflexivity.
    lia. }
  rewrite <- (Z2Nat.id n) by lia. generalize (Z.to_nat n) as k. clear Hn.
  induction k as [|k IH].
  - change (Z.of_nat 0) with 0. rewrite seqZ_nil by lia. cbn [foldl].
    destruct (0 <=? i) eqn:E1, (i <? 0) eqn:E2; cbn [andb]; try reflexivity.
    lia.
  - rewrite Nat2Z.inj_succ, <- Z.add_1_r, seqZ_app by lia.
    rewrite foldl_app. change (seqZ (0 + Z.of_nat k) 1) with [0 + Z.of_nat k].
    cbn [foldl]. rewrite Z.add_0_l.
    set (m := foldl _ dst (seqZ 0 (Z.of_nat k))) in *.
    destruct (decide (i = Z.of_nat k)) as [->|Hne].
    + replace ((0 <=? Z.of_nat k) && (Z.of_nat k <? Z.of_nat k + 1)) with true
        by (symmetry; apply andb_true_iff; split;
            [apply Z.leb_le | apply Z.ltb_lt]; lia).
      destruct (src !! Z.of_nat k) as [x|].
      * apply lookup_insert_eq.
      * apply lookup_delete_eq.
    + assert (Hm : (match src !! Z.of_nat k with
                    | Some x => <[Z.of_nat k := x]> m
                    | None => delete (Z.of_nat k) m
                    end) !! i = m !! i).
      { destruct (src !! Z.of_nat k).
        - apply lookup_insert_ne. congruence.
        - apply lookup_delete_ne. congruence. }
      rewrite Hm, IH.
      destruct (0 <=? i) eqn:E1; simpl; [|reflexivity].
      destruct (i <? Z.of_nat k) eqn:E2, (i <? Z.of_nat k + 1) eqn:E3;
        try reflexivity; lia.
Qed.

(** X14.  A vector between the device and the host.  After [CopyAllToHost]
    the host has the size of the device and reads every element as the
    device does; the vector copied to the host and back is the vector of the
    device, and an element pushed on the host in between is, after
    [CopyAllToDevice], the last element of the device.  [CopyDataToHost]
    without [copy_size] copies as many cells as the host counts: with the
    counter of the host at [n], an element of the device at [n] or beyond
    does not reach the host. *)
Theorem copy_to_host_and_back (v : t T) :
  0 <= CudaVector.count_d (device v) < 2 ^ 32 ->
  let h := CopyAllToHost v in
  Size h = CudaVector.Size (device v) /\
  (forall idx x, get h idx = Ret x <-> CudaVector.get (device v) idx = Ret x) /\
  device (CopyAllToDevice h) = device v /\
  (forall val,
     CudaVector.count_d (device v) < CudaVector.max_size (device v) <=
       2 ^ 32 - 1 ->
     exists idx h',
       PushBack h val = Ret (idx, h') /\
       idx = CudaVector.count_d (device v) /\
       CudaVector.Size (device (CopyAllToDevice h')) = idx + 1 /\
       CudaVector.get (device (CopyAllToDevice h')) idx = Ret val /\
       (forall i x, CudaVector.get (device v) i = Ret x ->
          CudaVector.get (device (CopyAllToDevice h')) i = Ret x)) /\
  (forall i, ~ 0 <= i < count_h v ->
     mem_h (CopyDataToHost false v) !! i = mem_h v !! i).
Proof.
  intros Hc h. subst h. destruct v as [[cd ms md] ch mh]. simpl in *.
  split; [reflexivity|]. split; [|split; [|split]].
  - intros idx x. unfold get, CudaVector.get, assert, load. simpl.
    unfold_outcome. pose proof (Z.mod_pos_bound idx (2 ^ 32) ltac:(lia)) as Hb.
    fold (uint32 idx) in Hb.
    destruct (uint32 idx <? cd) eqn:E; [|split; intros Hx; discriminate].
    rewrite memcpy_lookup.
    replace ((0 <=? uint32 idx) && (uint32 idx <? cd)) with true
      by (symmetry; apply andb_true_iff; split;
            [apply Z.leb_le | apply Z.ltb_lt]; lia).
    reflexivity.
  - unfold CopyAllToDevice. simpl. f_equal. apply map_eq. intros i.
    rewrite !memcpy_lookup.
    destruct ((0 <=? i) && (i <? cd)); reflexivity.
  - intros val Hms. unfold PushBack, assert. simpl.
    replace (cd <? ms) with true by (symmetry; apply Z.ltb_lt; lia).
    unfold_outcome. eexists _, _. split; [reflexivity|].
    split; [reflexivity|]. simpl.
    assert (Hu : uint32 (cd + 1) = cd + 1)
      by (unfold uint32; apply Z.mod_small; lia).
    rewrite Hu. split; [reflexivity|]. split.
    + unfold CudaVector.get, assert, load. simpl.
      assert (Hcd : uint32 cd = cd) by (unfold uint32; apply Z.mod_small; lia).
      rewrite Hcd.
      replace (cd <? cd + 1) with true by (symmetry; apply Z.ltb_lt; lia).
      unfold_outcome. rewrite memcpy_lookup.
      replace ((0 <=? cd) && (cd <? cd + 1)) with true
        by (symmetry; apply andb_true_iff; split;
            [apply Z.leb_le | apply Z.ltb_lt]; lia).
      rewrite lookup_insert_eq. reflexivity.
    + intros i x. unfold CudaVector.get, assert, load. simpl. unfold_outcome.
      pose proof (Z.mod_pos_bound i (2 ^ 32) ltac:(lia)) as Hb.
      fold (uint32 i) in Hb.
      destruct (uint32 i <? cd) eqn:E; [|intros Hx; discriminate].
      replace (uint32 i <? cd + 1) with true by (symmetry; apply Z.ltb_lt; lia).
      rewrite !memcpy_lookup.
      replace ((0 <=? uint32 i) && (uint32 i <? cd + 1)) with true
        by (symmetry; apply andb_true_iff; split;
            [apply Z.leb_le | apply Z.ltb_lt]; lia).
      rewrite lookup_insert_ne by lia. rewrite memcpy_lookup.
      replace ((0 <=? uint32 i) && (uint32 i <? cd)) with true
        by (symmetry; apply andb_true_iff; split;
            [apply Z.leb_le | apply Z.ltb_lt]; lia).
      intros Hx. exact Hx.
  - intros i Hi. unfold CopyDataToHost. simpl. rewrite memcpy_lookup.
    replace ((0 <=? i) && (i <? ch)) with false; [reflexivity|].
    symmetry. apply andb_false_iff.
    destruct (Z.lt_ge_cases i 0); [left; apply Z.leb_gt | right; apply Z.ltb_ge];
      lia.
Qed.

End VectorCopies.

(** The theorem for a vector with two elements on the device and none on
    the host. *)
Lemma copy_to_host_and_back_witness :
  let v := CudaVectorHost.mk
             (CudaVector.mk 2 8 (Examples.cells [(0, 10); (1, 11)])) 0 ∅ in
  CudaVectorHost.Size (CudaVectorHost.CopyAllToHost v) = 2 /\
  CudaVectorHost.get (CudaVectorHost.CopyAllToHost v) 1 = Ret 11 /\
  CudaVectorHost.mem_h (CudaVectorHost.CopyDataToHost false v) !! 1 = None.
Proof.
  intros v.
  destruct (copy_to_host_and_back v ltac:(simpl; lia))
    as (Hs & Hg & _ & _ & Hstale).
  split; [exact Hs|]. split.
  - apply Hg. vm_compute. reflexivity.
  - rewrite Hstale by (simpl; lia). reflexivity.
Defined.

(** ** Finding or adding a token state *)

Section FindOrAdd.
Context `{DeviceUtils}.
Import Decoder.

Lemma uint32_id (z : Z) : 0 <= z < 2 ^ 32 -> uint32 z = z.
Proof. intros Hz. unfold uint32. apply Z.mod_small. exact Hz. Qed.

(** X15.  [_find_or_add_token_arc] without an arc, run by one thread.  When
    it returns, the slot of the state holds the index it hands back, which
    is none of the two marks.  If the slot was inactive, one token state has
    been pushed: the index is the old size of [cur_toks], the token state
    there is the one of the state, with the cell that [GetTokenAllocIdx]
    gives for the index.  If the slot was not inactive, nothing has changed.
    A second call for the same state finds the same index and changes
    nothing.  The vector has a cell at least and its counter is below
    [2 ^ 32 - 1]. *)
Theorem find_or_add_finds_what_it_added (p : params) (st st1 : t)
    (s : Z) (tc ac : float) (u u' idx : Z) (e : bool) :
  0 <= CudaVector.count_d (vector (cur_toks st)) < 2 ^ 32 - 1 ->
  1 <= CudaVector.max_size (vector (cur_toks st)) ->
  _find_or_add_token_arc p st s tc ac None 0 false u e = Ret (st1, idx, u') ->
  u' = u /\
  current_tokens_lookup st1 !! s = Some idx /\
  idx <> LOOKUP_DEACTIVE /\ idx <> LOOKUP_READY_PUSH /\
  (current_tokens_lookup st !! s = Some LOOKUP_DEACTIVE ->
     idx = CudaVector.Size (vector (cur_toks st)) /\
     CudaVector.Size (vector (cur_toks st1)) =
       CudaVector.Size (vector (cur_toks st)) + 1 /\
     exists ts,
       CudaVector.get (vector (cur_toks st1)) idx = Ret ts /\
       state ts = s /\
       LatticeProcessor.GetTokenAllocIdx (built p) (lattice_processor st) idx
         = Ret (tok_idx_allocated ts)) /\
  (current_tokens_lookup st !! s <> Some LOOKUP_DEACTIVE -> st1 = st) /\
  (forall tc' ac' u2 e',
     _find_or_add_token_arc p st1 s tc' ac' None 0 false u2 e' =
       Ret (st1, idx, u2)).
Proof.
  intros Hcount Hmax HF.
  unfold _find_or_add_token_arc in HF. unfold_outcome.
  destruct (activate p st s) as [sa|] eqn:EA; [|discriminate].
  destruct (load (current_tokens_lookup sa) s) as [i|] eqn:EL;
    [|discriminate].
  destruct ((i =? LOOKUP_DEACTIVE) || (i =? LOOKUP_READY_PUSH)) eqn:EM;
    [discriminate|].
  destruct (CudaVector.get (vector (cur_toks sa)) i) as [ts|] eqn:EG;
    [|discriminate].
  simpl in HF. inversion HF; subst sa i u'. clear HF.
  apply orb_false_iff in EM. destruct EM as [EM1 EM2].
  apply Z.eqb_neq in EM1, EM2. apply load_Ret in EL.
  assert (Hagain : forall tc' ac' u2 e',
            _find_or_add_token_arc p st1 s tc' ac' None 0 false u2 e' =
              Ret (st1, idx, u2)).
  { intros tc' ac' u2 e'. unfold _find_or_add_token_arc, activate.
    unfold_outcome. apply load_Ret in EL. rewrite EL.
    replace (idx =? LOOKUP_DEACTIVE) with false
      by (symmetry; apply Z.eqb_neq; exact EM1).
    rewrite EL.
    replace (idx =? LOOKUP_DEACTIVE) with false
      by (symmetry; apply Z.eqb_neq; exact EM1).
    replace (idx =? LOOKUP_READY_PUSH) with false
      by (symmetry; apply Z.eqb_neq; exact EM2).
    rewrite EG. reflexivity. }
  split; [reflexivity|]. split; [exact EL|]. split; [exact EM1|].
  split; [exact EM2|]. split; [|split; [|exact Hagain]].
  - intros Hd. unfold activate in EA. unfold_outcome.
    rewrite (proj2 (load_Ret _ _ _) Hd) in EA.
    change (LOOKUP_DEACTIVE =? LOOKUP_DEACTIVE) with true in EA.
    cbv iota in EA.
    unfold CudaVector.PushBack, CudaVector.fetch_add in EA. unfold_outcome.
    set (c := CudaVector.count_d (vector (cur_toks st))) in *.
    destruct (CudaVector.clamp_count (built p)
                (CudaVector.with_count (uint32 (c + 1))
                   (vector (cur_toks st)))) as [v2|] eqn:EC;
      [|discriminate].
    cbn beta iota in EA.
    destruct (LatticeProcessor.GetTokenAllocIdx _ _ c) as [tok_idx|] eqn:ET;
      [|discriminate].
    cbn beta iota in EA.
    destruct (CudaVector.get (CudaVector.store c (TokenState_new s) v2) c)
      as [ts0|] eqn:EG0; [|discriminate].
    cbn beta iota in EA.
    destruct (CudaVector.set (CudaVector.store c (TokenState_new s) v2) c
                (with_tok_idx_allocated tok_idx ts0)) as [v3|] eqn:ES;
      [|discriminate].
    cbn beta iota in EA. inversion EA; subst st1. clear EA.
    simpl in EL. rewrite lookup_insert_eq in EL. inversion EL; subst idx.
    simpl in EG.
    assert (Hu : uint32 c = c) by (apply uint32_id; unfold c; lia).
    assert (Hu1 : uint32 (c + 1) = c + 1) by (apply uint32_id; unfold c; lia).
    unfold CudaVector.get, CudaVector.set, assert in EG0, ES, EG.
    unfold_outcome. rewrite Hu in EG0, ES, EG.
    assert (Hc2 : (c <? CudaVector.count_d v2) = true).
    { destruct (c <? CudaVector.count_d
                       (CudaVector.store c (TokenState_new s) v2)) eqn:E0;
        [exact E0 | discriminate EG0]. }
    simpl in EG0, ES. rewrite Hc2 in EG0, ES. simpl in EG0, ES.
    unfold load in EG0. rewrite lookup_insert_eq in EG0.
    inversion EG0; subst ts0. inversion ES; subst v3. clear EG0 ES.
    simpl in EG. rewrite Hc2 in EG. simpl in EG.
    unfold load in EG. rewrite lookup_insert_eq in EG.
    inversion EG; subst ts. clear EG.
    assert (Hv2 : CudaVector.count_d v2 = c + 1).
    { apply Z.ltb_lt in Hc2. unfold CudaVector.clamp_count in EC.
      rewrite Hu1 in EC. destruct (built p); unfold_outcome.
      - unfold assert in EC. simpl in EC.
        destruct (c + 1 <? _); [|discriminate]. inversion EC; subst v2.
        reflexivity.
      - simpl in EC.
        destruct (CudaVector.max_size (vector (cur_toks st)) <=? c + 1)
          eqn:Em; inversion EC; subst v2; simpl in *; [|reflexivity].
        apply Z.leb_le in Em.
        pose proof (Z.mod_pos_bound
                      (CudaVector.max_size (vector (cur_toks st)) - 1)
                      (2 ^ 32) ltac:(lia)) as Hb.
        unfold uint32 in Hc2.
        rewrite Z.mod_small in Hc2 by lia. lia. }
    split; [reflexivity|]. split; [exact Hv2|].
    exists (with_tok_idx_allocated tok_idx (TokenState_new s)).
    split; [|split; [reflexivity | exact ET]].
    unfold CudaVector.get, assert. unfold_outcome. rewrite Hu. simpl.
    rewrite Hc2. simpl. unfold load. rewrite lookup_insert_eq. reflexivity.
  - intros Hnd. unfold activate in EA. unfold_outcome.
    destruct (load (current_tokens_lookup st) s) as [i|] eqn:E0;
      [|discriminate].
    destruct (i =? LOOKUP_DEACTIVE) eqn:Ei.
    + apply Z.eqb_eq in Ei. subst i. apply load_Ret in E0. contradiction.
    + inversion EA. reflexivity.
Qed.

End FindOrAdd.

(** The theorem for the state 2 of [Examples.recombination_graph] on the
    memory that [InitDecoding] starts from: the token state gets the
    index 0, and a second call finds it. *)
Lemma find_or_add_finds_what_it_added_witness :
  let p := Examples.recombination_graph Release 0 100 16 in
  let st := Examples.fresh p 8 (F32.of_Z 0) in
  let call s :=
    Decoder._find_or_add_token_arc p s 2 (F32.of_Z 0) (F32.of_Z 0) None 0
      false 0 false in
  let r := result_or (st, 0, 0) (call st) in
  call st = Ret r /\
  snd (fst r) = 0 /\
  Decoder.current_tokens_lookup (fst (fst r)) !! 2 = Some 0 /\
  call (fst (fst r)) = Ret (fst (fst r), 0, 0).
Proof.
  intros p st call r.
  assert (HF : call st = Ret r)
    by (apply returns_result_or; vm_compute; reflexivity).
  split; [exact HF|]. clearbody r. destruct r as [[st1 idx] u'].
  destruct (find_or_add_finds_what_it_added p st st1 2 (F32.of_Z 0)
              (F32.of_Z 0) 0 u' idx false)
    as (_ & Hl & _ & _ & Hadd & _ & Hagain);
    [vm_compute; split; [discriminate | reflexivity]
    | vm_compute; discriminate | exact HF |].
  destruct Hadd as (Hidx & _); [vm_compute; reflexivity|].
  assert (H0 : idx = 0) by (rewrite Hidx; vm_compute; reflexivity).
  subst idx. simpl.
  split; [reflexivity|]. split; [exact Hl|].
  apply Hagain.
Defined.
